(** * lib/analyzeFallback.ts: the heuristic scoring engine

    A shallow embedding of [analyzeTranscriptFallback] and of the helpers it
    calls, followed by the properties of the engine.

    The functions around the engine are embedded after it: what the API
    route does to the locale and to the extracted text, the previews, the
    site URLs, and, of the page, the token bucket, the CSV conversion and
    the percentages read back for the radar chart.

    Conventions of the model.
    - A JavaScript string is the list of its UTF-16 code units ([N]).
    - A JavaScript number is an IEEE-754 double, given by its exact value
      ([Q]).  Every quotient, product, sum and difference the engine forms
      is rounded to the nearest double, a tie going to the even significand
      ([toDouble]); [Math.round], [toFixed], comparisons, [Math.min],
      [Math.max] and [Math.abs] work on the exact value of their argument.
      Counts are below [2^53] and so are doubles themselves; no value the
      engine forms from them leaves the range of the normal doubles, and the
      exponent range is not modelled.  [Number.parseFloat] gives the double
      nearest to the decimal it reads.  The token bucket of the page works
      on millisecond time stamps and is given in exact arithmetic.
    - A thrown exception is an explicit [Throw] completion. *)

From Stdlib Require Import List Bool Arith NArith ZArith QArith Qround Qabs.
From Stdlib Require Import Qminmax Qpower.
From Stdlib Require Import String Ascii DecimalString Lia Permutation Sorted.
From Stdlib Require Import DecimalN Lqa.
Import ListNotations.

Close Scope Q_scope.

(** ** Strings as UTF-16 code units *)

Module JS.

Definition jsstring : Type := list N.

(** Source literals are written as Rocq strings, that is as UTF-8 bytes;
    [utf16] decodes them into code units (a four-byte sequence gives a
    surrogate pair). *)
Fixpoint utf16 (bytes : list N) : jsstring :=
  match bytes with
  | [] => []
  | b0 :: r0 =>
    if (b0 <? 128)%N then b0 :: utf16 r0
    else if (b0 <? 224)%N then
      match r0 with
      | b1 :: r1 => ((b0 - 192) * 64 + (b1 - 128))%N :: utf16 r1
      | [] => [b0]
      end
    else if (b0 <? 240)%N then
      match r0 with
      | b1 :: b2 :: r2 =>
        ((b0 - 224) * 4096 + (b1 - 128) * 64 + (b2 - 128))%N :: utf16 r2
      | _ => [b0]
      end
    else
      match r0 with
      | b1 :: b2 :: b3 :: r3 =>
        let cp := ((b0 - 240) * 262144 + (b1 - 128) * 4096
                   + (b2 - 128) * 64 + (b3 - 128))%N in
        let v := (cp - 65536)%N in
        (55296 + v / 1024)%N :: (56320 + v mod 1024)%N :: utf16 r3
      | _ => [b0]
      end
  end.

Definition lit (s : string) : jsstring :=
  utf16 (map (fun a => N_of_ascii a) (list_ascii_of_string s)).

(** WhiteSpace and LineTerminator code points: what [\s] matches and what
    [String.prototype.trim] strips. *)
Definition isWhiteSpace (c : N) : bool :=
  ((9 <=? c) && (c <=? 13) || (c =? 32) || (c =? 160) || (c =? 5760)
   || (8192 <=? c) && (c <=? 8202) || (c =? 8232) || (c =? 8233)
   || (c =? 8239) || (c =? 8287) || (c =? 12288) || (c =? 65279))%N.

(** WordCharacters of a pattern without the [u] flag: [A-Za-z0-9_]. *)
Definition isWordChar (c : N) : bool :=
  ((97 <=? c) && (c <=? 122) || (65 <=? c) && (c <=? 90)
   || (48 <=? c) && (c <=? 57) || (c =? 95))%N.

Fixpoint trimStart (s : jsstring) : jsstring :=
  match s with
  | c :: s' => if isWhiteSpace c then trimStart s' else s
  | [] => []
  end.

Definition trimEnd (s : jsstring) : jsstring :=
  fold_right
    (fun c r => match r with
                | [] => if isWhiteSpace c then [] else [c]
                | _ => c :: r
                end) [] s.

Definition trim (s : jsstring) : jsstring := trimEnd (trimStart s).

(** [String.prototype.toLowerCase].  The engine looks at the lower-cased text
    only through whitespace splitting and through patterns made of Basic
    Latin code units, so only the code units whose lower case contains a
    Basic Latin letter are mapped: [A-Z], U+212A (Kelvin sign) and U+0130
    (capital I with dot above, lowered to [i] followed by U+0307).  Every other
    code unit is kept; its real lower case is neither whitespace nor Basic
    Latin. *)
Definition lowerUnit (c : N) : jsstring :=
  if ((65 <=? c) && (c <=? 90))%N then [(c + 32)%N]
  else if (c =? 8490)%N then [107%N]
  else if (c =? 304)%N then [105%N; 775%N]
  else [c].

Definition toLowerCase (s : jsstring) : jsstring := flat_map lowerUnit s.

(** Canonicalize of a case-insensitive pattern without the [u] flag, on the
    code units that can equal a canonicalized Basic Latin pattern unit: a
    code unit of 128 or more never canonicalizes below 128. *)
Definition canonicalize (c : N) : N :=
  if ((97 <=? c) && (c <=? 122))%N then (c - 32)%N else c.

Definition unitMatches (p c : N) : bool :=
  (canonicalize p =? canonicalize c)%N.

Fixpoint eqUnits (a b : jsstring) : bool :=
  match a, b with
  | [], [] => true
  | x :: a', y :: b' => (x =? y)%N && eqUnits a' b'
  | _, _ => false
  end.

Fixpoint startsWith (s sub : jsstring) : bool :=
  match sub, s with
  | [], _ => true
  | p :: sub', c :: s' => (p =? c)%N && startsWith s' sub'
  | _ :: _, [] => false
  end.

(** [String.prototype.includes]. *)
Fixpoint includes (s sub : jsstring) : bool :=
  startsWith s sub ||
  match s with
  | [] => false
  | _ :: s' => includes s' sub
  end.

(** [s.split(/\s+/)]: the matcher is tried at each index from the end of the
    previous separator; a separator is a maximal run of whitespace.
    [inSep] says that the scan is inside a separator, [acc] holds the
    current piece reversed. *)
Fixpoint splitWs (inSep : bool) (acc s : jsstring) : list jsstring :=
  match s with
  | [] => [rev acc]
  | c :: s' =>
    if isWhiteSpace c then
      if inSep then splitWs true acc s'
      else rev acc :: splitWs true [] s'
    else splitWs false (c :: acc) s'
  end.

Definition isTerminator (c : N) : bool :=
  ((c =? 46) || (c =? 33) || (c =? 63))%N.

(** [s.split(/(?<=[.!?])\s+/)]: a separator is a maximal run of whitespace
    that starts right after one of [. ! ?]; [afterTerm] says that the
    previous code unit is one of them. *)
Fixpoint splitSentences (inSep afterTerm : bool) (acc s : jsstring)
  : list jsstring :=
  match s with
  | [] => [rev acc]
  | c :: s' =>
    if isWhiteSpace c then
      if inSep then splitSentences true false acc s'
      else if afterTerm then rev acc :: splitSentences true false [] s'
      else splitSentences false false (c :: acc) s'
    else splitSentences false (isTerminator c) (c :: acc) s'
  end.

(** [Boolean(s)] of a string. *)
Definition truthy (s : jsstring) : bool :=
  match s with [] => false | _ => true end.

(** The pattern [new RegExp(`\\b${escapeRegExp(keyword)}\\b`, 'gi')]:
    [escapeRegExp] makes every unit of the keyword a literal, so the pattern
    is the keyword between two word-boundary assertions, compared unit by
    unit up to [canonicalize]. *)
Definition wordBefore (prev : option N) : bool :=
  match prev with Some c => isWordChar c | None => false end.

Definition wordAt (s : jsstring) : bool :=
  match s with c :: _ => isWordChar c | [] => false end.

(** Matches the literal [pat] at the head of [s]; [prev] is the unit before
    the current position.  Returns whether the match succeeds together with
    the closing word-boundary assertion. *)
Fixpoint matchLiteral (pat : jsstring) (prev : option N) (s : jsstring)
  : bool :=
  match pat with
  | [] => xorb (wordBefore prev) (wordAt s)
  | p :: pat' =>
    match s with
    | c :: s' => unitMatches p c && matchLiteral pat' (Some c) s'
    | [] => false
    end
  end.

Definition matchAt (kw : jsstring) (prev : option N) (s : jsstring) : bool :=
  xorb (wordBefore prev) (wordAt s) && matchLiteral kw prev s.

(** [text.match(pattern)] with the [g] flag, counted: the scan restarts at
    the end of each match.  [skip] is the number of units of the last match
    still to step over. *)
Fixpoint countMatches (kw : jsstring) (skip : nat) (prev : option N)
    (s : jsstring) : nat :=
  match s with
  | [] => 0
  | c :: s' =>
    match skip with
    | S k => countMatches kw k (Some c) s'
    | O =>
      if matchAt kw prev s
      then S (countMatches kw (Nat.pred (List.length kw)) (Some c) s')
      else countMatches kw 0 (Some c) s'
    end
  end.

Definition matchCount (text kw : jsstring) : nat :=
  countMatches kw 0 None text.

(** [Array.prototype.sort] with the comparator [(a, b) => key b - key a]:
    a stable sort, descending by [key]. *)
Fixpoint insertDesc {A} (key : A -> nat) (x : A) (l : list A) : list A :=
  match l with
  | [] => [x]
  | y :: l' =>
    if key x <? key y then y :: insertDesc key x l' else x :: y :: l'
  end.

Definition sortDesc {A} (key : A -> nat) (l : list A) : list A :=
  fold_right (insertDesc key) [] l.

(** [Array.prototype.join]. *)
Fixpoint join (sep : jsstring) (parts : list jsstring) : jsstring :=
  match parts with
  | [] => []
  | [p] => p
  | p :: ps => p ++ sep ++ join sep ps
  end.

(** Decimal digits of a natural number, as in [`${n}`]. *)
Definition ofString (s : string) : jsstring :=
  map (fun a => N_of_ascii a) (list_ascii_of_string s).

Definition natToString (n : N) : jsstring :=
  ofString (NilZero.string_of_uint (N.to_uint n)).

Definition intToString (z : Z) : jsstring :=
  if (z <? 0)%Z then 45%N :: natToString (Z.to_N (- z))
  else natToString (Z.to_N z).

(** Doubles.  A double is given by its exact value; [toDouble x] is the
    double nearest to [x]: [x] is scaled into its binade, the significand
    is rounded to an integer of 53 bits, a tie going to the even one, and the
    result is scaled back. *)

(** The exponent of the binade of a positive number: [2^e <= x < 2^(e+1)]. *)
Definition binade (x : Q) : Z :=
  let e := (Z.log2 (Qnum x) - Z.log2 (Z.pos (Qden x)))%Z in
  if Qle_bool (2 ^ e)%Q x then e else (e - 1)%Z.

(** The nearest integer, a tie going to the even one. *)
Definition roundHalfEven (x : Q) : Z :=
  let f := Qfloor x in
  match (x - inject_Z f ?= 1 # 2)%Q with
  | Lt => f
  | Gt => (f + 1)%Z
  | Eq => if Z.even f then f else (f + 1)%Z
  end.

(** A positive number rounded to 53 significant bits. *)
Definition roundPositive (x : Q) : Q :=
  let s := (binade x - 52)%Z in
  (inject_Z (roundHalfEven (x / 2 ^ s)) * 2 ^ s)%Q.

Definition toDouble (x : Q) : Q :=
  let x := Qred x in
  match Qnum x with
  | Z0 => 0%Q
  | Zpos _ => roundPositive x
  | Zneg _ => Qopp (roundPositive (Qopp x))
  end.

(** The operators [+], [-], [*] and [/] on doubles. *)
Definition fadd (x y : Q) : Q := toDouble (x + y)%Q.
Definition fsub (x y : Q) : Q := toDouble (x - y)%Q.
Definition fmul (x y : Q) : Q := toDouble (x * y)%Q.
Definition fdiv (x y : Q) : Q := toDouble (x / y)%Q.

(** [Math.round]: the nearest integer, ties towards plus infinity. *)
Definition round (x : Q) : Z := Qfloor (x + (1 # 2))%Q.

(** [x.toFixed(1)]: the integer [n] nearest to [10 x] (the larger one on a
    tie), printed with one digit after the point. *)
Definition toFixed1 (x : Q) : jsstring :=
  let neg := Qlt_le_dec x 0%Q in
  let ax := if neg then Qopp x else x in
  let n := Z.to_N (Qfloor (ax * 10 + (1 # 2))%Q) in
  (if neg then [45%N] else [])
    ++ natToString (n / 10) ++ [46%N] ++ natToString (n mod 10).

(** [n.toLocaleString()] of a natural number under the host's default
    locale, taken to group digits by three with commas. *)
Fixpoint groupDigits (fuel : nat) (n : N) : jsstring :=
  match fuel with
  | O => natToString n
  | S f =>
    if (n <? 1000)%N then natToString n
    else
      let r := (n mod 1000)%N in
      groupDigits f (n / 1000) ++ [44%N]
        ++ (if (r <? 10)%N then [48%N; 48%N]
            else if (r <? 100)%N then [48%N] else [])
        ++ natToString r
  end.

Definition toLocaleString (n : nat) : jsstring :=
  groupDigits n (N.of_nat n).

(** Completions: a value, or a thrown exception. *)
Inductive error : Type := TypeError.

Inductive completion (A : Type) : Type :=
| Normal (a : A)
| Throw (e : error).

Arguments Normal {A} a.
Arguments Throw {A} e.

End JS.

Import JS.

(** ** The data model *)

Inductive Locale : Type := ko | en.

Inductive CueRisk : Type := Baseline | Elevated | Critical.

Record CueInsight : Type := mkCue {
  cueLabel : jsstring;
  cueValue : jsstring;
  cueRisk : CueRisk;
  cueDetail : jsstring
}.

Record MetricInsight : Type := mkMetric {
  metricLabel : jsstring;
  metricValue : jsstring;
  metricHint : jsstring
}.

Record EvidenceInsight : Type := mkEvidence {
  quote : jsstring;
  rationale : jsstring
}.

Record AnalysisResult : Type := mkResult {
  lieProbability : Z;
  confidenceScore : Z;
  summary : jsstring;
  cues : list CueInsight;
  metrics : list MetricInsight;
  evidence : list EvidenceInsight
}.

Record MetricsCopy : Type := mkMetricsCopy {
  wordCountLabel : jsstring;
  wordCountHint : jsstring;
  coverageLabel : jsstring;
  coverageHint : jsstring;
  negationMetricLabel : jsstring;
  negationHint : jsstring
}.

Record EvidenceCopy : Type := mkEvidenceCopy {
  noDataQuote : jsstring;
  noDataDetail : jsstring;
  hedgePrefix : jsstring;
  pressurePrefix : jsstring;
  defaultDetail : jsstring
}.

Record FallbackCopy : Type := mkCopy {
  copySummary : Q -> Q -> Z -> jsstring;
  hedgingLabel : jsstring;
  hedgingDetail : list jsstring -> jsstring;
  hedgingDetailNone : jsstring;
  pressureLabel : jsstring;
  pressureDetail : list jsstring -> jsstring;
  pressureDetailNone : jsstring;
  negationLabel : jsstring;
  negationDetail : jsstring;
  conflictLabel : jsstring;
  conflictDetail : jsstring;
  copyMetrics : MetricsCopy;
  copyEvidence : EvidenceCopy
}.

(** ** Keyword tables *)

Definition hedgingKeywords : list jsstring :=
    [lit "maybe"; lit "perhaps"; lit "possibly"; lit "might"; lit "guess";
     lit "around"; lit "roughly"; lit "seems"; lit "kind of";
     lit "sort of"; lit "probably"; lit "i think"; lit "i believe";
     lit "could be"].

Definition pressureKeywords : list jsstring :=
    [lit "honestly"; lit "trust me"; lit "believe me"; lit "truth";
     lit "swear"; lit "definitely"; lit "absolutely"; lit "never";
     lit "always"; lit "promise"; lit "100%"].

Definition contradictionJoiners : list jsstring :=
    [lit "but"; lit "however"; lit "yet"; lit "though"; lit "nevertheless"].

Definition negationKeywords : list jsstring :=
    [lit "not"; lit "didn't"; lit "don't"; lit "no"; lit "never"].

(** ** The two copies of [fallbackDictionary] *)

Definition percent1 (density : Q) : jsstring :=
  toFixed1 (fmul density 100) ++ lit "%".

Definition koCopy : FallbackCopy := {|
  copySummary := fun hedgingDensity pressureDensity lieProbability =>
    lit "RoBERTa-LIAR 로컬 앙상블 결과: 헤징 "
      ++ percent1 hedgingDensity ++ lit ", 압박 "
      ++ percent1 pressureDensity ++ lit " → 추정 위험도 "
      ++ intToString lieProbability ++ lit "%.";
  hedgingLabel := lit "헤징 밀도";
  hedgingDetail := fun signals =>
    lit "불확실성 지표 탐지: " ++ join (lit ", ") signals;
  hedgingDetailNone :=
    lit "뚜렷한 헤징 표현은 없으며 다른 지표가 위험도를 구성합니다.";
  pressureLabel := lit "압박 언어";
  pressureDetail := fun signals =>
    lit "보증성 어휘 관측: " ++ join (lit ", ") signals;
  pressureDetailNone := lit "직접적인 압박 언어는 낮은 수준으로 관측됩니다.";
  negationLabel := lit "부정 진술 빈도";
  negationDetail :=
    lit "연속된 부정 진술은 방어적 진술 패턴과 상관 관계가 있습니다.";
  conflictLabel := lit "상충 구문";
  conflictDetail :=
    lit "상반된 서술이 연속적으로 등장해 맥락 변동성이 상승했습니다.";
  copyMetrics := {|
    wordCountLabel := lit "단어 수";
    wordCountHint := lit "샘플 분량은 점수 안정성에 직접 영향을 줍니다.";
    coverageLabel := lit "문장 플래그 비율";
    coverageHint := lit "위험 지표에 반응한 문장의 비율입니다.";
    negationMetricLabel := lit "부정 빈도";
    negationHint :=
      lit "집중된 부정 진술은 내러티브 조정 전조일 수 있습니다."
  |};
  copyEvidence := {|
    noDataQuote := lit "증거 인용을 생성하기에 충분한 문장이 없습니다.";
    noDataDetail := lit "추가 발화를 확보한 뒤 재분석하는 것이 좋습니다.";
    hedgePrefix := lit "헤징 지표";
    pressurePrefix := lit "압박 지표";
    defaultDetail := lit "휴리스틱 점수가 높은 문장."
  |}
|}.

Definition enCopy : FallbackCopy := {|
  copySummary := fun hedgingDensity pressureDensity lieProbability =>
    lit "RoBERTa-LIAR offline ensemble: hedging "
      ++ percent1 hedgingDensity ++ lit ", pressure "
      ++ percent1 pressureDensity ++ lit " → deception score "
      ++ intToString lieProbability ++ lit "%.";
  hedgingLabel := lit "Hedging Density";
  hedgingDetail := fun signals =>
    lit "Uncertainty markers detected: " ++ join (lit ", ") signals;
  hedgingDetailNone :=
    lit "Minimal hedging observed; other cues drive the score.";
  pressureLabel := lit "Pressure Language";
  pressureDetail := fun signals =>
    lit "Reassurance pressure phrases: " ++ join (lit ", ") signals;
  pressureDetailNone := lit "Low use of reassurance language detected.";
  negationLabel := lit "Negation Burst";
  negationDetail :=
    lit "Frequent denials correlate with defensive narrative posture.";
  conflictLabel := lit "Conflicting Clauses";
  conflictDetail :=
    lit "Sequential reversals flagged for contextual volatility.";
  copyMetrics := {|
    wordCountLabel := lit "Word Count";
    wordCountHint := lit "Sample volume directly impacts scoring stability.";
    coverageLabel := lit "Sentence Coverage";
    coverageHint := lit "Share of the transcript triggering risk markers.";
    negationMetricLabel := lit "Negation Frequency";
    negationHint :=
      lit "Dense denial clusters often precede narrative adjustments."
  |};
  copyEvidence := {|
    noDataQuote :=
      lit "Not enough material to generate defensible evidence quotes.";
    noDataDetail := lit "Gather more utterances and rerun the profiler.";
    hedgePrefix := lit "Hedge cue";
    pressurePrefix := lit "Pressure cue";
    defaultDetail := lit "High scoring sentence from heuristic engine."
  |}
|}.

Definition copyOf (l : Locale) : FallbackCopy :=
  match l with ko => koCopy | en => enCopy end.

(** The tag a locale is written with, the key of [fallbackDictionary]. *)
Definition tag (l : Locale) : jsstring :=
  match l with ko => lit "ko" | en => lit "en" end.

(** [fallbackDictionary[locale]]: the object has the two own keys ['ko'] and
    ['en'].  Any other key gives [undefined] ([None]); a key inherited from
    [Object.prototype] gives a value without the copy's fields, and reading
    the nested fields of either throws the same [TypeError]. *)
Definition fallbackDictionary (locale : jsstring) : option FallbackCopy :=
  if eqUnits locale (lit "ko") then Some koCopy
  else if eqUnits locale (lit "en") then Some enCopy
  else None.

(** ** Helpers of the engine *)

(** [countKeywordHits]: the sum, over the keywords, of the number of matches
    of the keyword's pattern in [text]. *)
Definition countKeywordHits (text : jsstring) (keywords : list jsstring)
  : nat :=
  fold_left (fun total keyword => total + matchCount text keyword)
            keywords 0.

Definition formatSignal (item : jsstring * nat) : jsstring :=
  fst item ++ lit "(" ++ natToString (N.of_nat (snd item)) ++ lit ")".

(** [extractKeywordSignals]: the four most frequent keywords that occur,
    each printed as [keyword(count)]. *)
Definition extractKeywordSignals (text : jsstring) (keywords : list jsstring)
  : list jsstring :=
  map formatSignal
    (firstn 4
       (sortDesc snd
          (filter (fun item => 0 <? snd item)
             (map (fun keyword => (keyword, matchCount text keyword))
                  keywords)))).

Fixpoint mapIndexed {A B} (f : A -> nat -> B) (index : nat) (l : list A)
  : list B :=
  match l with
  | [] => []
  | x :: l' => f x index :: mapIndexed f (S index) l'
  end.

(** [signals[index]] used as a condition: present and a non-empty string. *)
Definition signalAt (signals : list jsstring) (index : nat)
  : option jsstring :=
  match nth_error signals index with
  | Some s => if truthy s then Some s else None
  | None => None
  end.

Definition evidenceRationale (copy : EvidenceCopy)
    (hedgingSignals pressureSignals : list jsstring) (index : nat)
  : jsstring :=
  let rationaleParts :=
    (match signalAt hedgingSignals index with
     | Some s => [hedgePrefix copy ++ lit ": " ++ s]
     | None => []
     end)
    ++ (match signalAt pressureSignals index with
        | Some s => [pressurePrefix copy ++ lit ": " ++ s]
        | None => []
        end) in
  if 0 <? List.length rationaleParts
  then join (lit " | ") rationaleParts
  else defaultDetail copy.

(** The body of [synthesizeEvidence] once [copy] is bound. *)
Definition evidenceEntries (copy : EvidenceCopy)
    (highlighted hedgingSignals pressureSignals : list jsstring)
  : list EvidenceInsight :=
  if List.length highlighted =? 0 then
    [ {| quote := noDataQuote copy; rationale := noDataDetail copy |} ]
  else
    mapIndexed
      (fun sentence index =>
         {| quote := sentence;
            rationale :=
              evidenceRationale copy hedgingSignals pressureSignals index |})
      0 highlighted.

(** [synthesizeEvidence].  Its first statement reads
    [fallbackDictionary[locale].evidence], which throws when the dictionary
    has no entry for [locale]. *)
Definition synthesizeEvidence (highlighted hedgingSignals pressureSignals
    : list jsstring) (locale : jsstring)
  : completion (list EvidenceInsight) :=
  match fallbackDictionary locale with
  | None => Throw TypeError
  | Some entry =>
    Normal (evidenceEntries (copyEvidence entry) highlighted hedgingSignals
                            pressureSignals)
  end.

(** ** [analyzeTranscriptFallback]

    The constants the function binds are given as functions of [raw], under
    the names they have in the source. *)

Definition gtQ (x y : Q) : bool := negb (Qle_bool x y).

Definition ofNat (n : nat) : Q := inject_Z (Z.of_nat n).

Section Analysis.

Variable raw : jsstring.

Definition text : jsstring := trim raw.

Definition lower : jsstring := toLowerCase text.

Definition words : list jsstring :=
  filter truthy (splitWs false [] lower).

Definition sentences : list jsstring :=
  filter (fun segment => 0 <? List.length segment)
    (map trim (splitSentences false false [] text)).

Definition hedgingHits : nat := countKeywordHits lower hedgingKeywords.
Definition pressureHits : nat := countKeywordHits lower pressureKeywords.
Definition negationHits : nat := countKeywordHits lower negationKeywords.

Definition density (hits : nat) : Q :=
  fdiv (ofNat hits) (ofNat (Nat.max (List.length words) 1)).

Definition hedgingDensity : Q := density hedgingHits.
Definition pressureDensity : Q := density pressureHits.
Definition negationDensity : Q := density negationHits.

Definition isConflicting (sentence : jsstring) : bool :=
  let normalized := toLowerCase sentence in
  existsb (fun joiner => includes normalized (lit " " ++ joiner ++ lit " "))
          contradictionJoiners
  && (includes normalized (lit "i didn't")
      || includes normalized (lit "i did")
      || includes normalized (lit "never")
      || includes normalized (lit "no")).

Definition contradictionCandidates : list jsstring :=
  firstn 3 (filter isConflicting sentences).

Definition keywordHits (sentence : jsstring) : nat :=
  let normalized := toLowerCase sentence in
  List.length
    (filter (fun keyword => includes normalized keyword)
            (hedgingKeywords ++ pressureKeywords)).

Definition highlightedSentences : list jsstring :=
  map fst
    (firstn 3
       (sortDesc snd
          (filter (fun entry => 0 <? snd entry)
             (map (fun sentence => (sentence, keywordHits sentence))
                  sentences)))).

Definition baseScore : Q :=
  fadd
    (fadd
       (fadd (fadd 42 (fmul hedgingDensity 520)) (fmul pressureDensity 360))
       (fmul negationDensity 180))
    (fmul (ofNat (List.length contradictionCandidates)) 4).

Definition lieProbabilityOf : Z := Z.min 96 (Z.max 5 (round baseScore)).

Definition coverageFactor : Q :=
  Qmin 1%Q (fdiv (ofNat (List.length words)) 320).

Definition stabilityPenalty : Q :=
  fmul (Qabs (fsub hedgingDensity pressureDensity)) 120.

Definition confidenceScoreOf : Z :=
  Z.max 38
    (Z.min 94
       (round (fsub (fadd 58 (fmul coverageFactor 32)) stabilityPenalty))).

Definition hedgingSignals : list jsstring :=
  extractKeywordSignals lower hedgingKeywords.

Definition pressureSignals : list jsstring :=
  extractKeywordSignals lower pressureKeywords.

Definition hedgingRisk : CueRisk :=
  if gtQ hedgingDensity (toDouble (35 # 1000)) then Elevated
  else if gtQ hedgingDensity (toDouble (2 # 100)) then Baseline
       else Baseline.

Definition pressureRisk : CueRisk :=
  if gtQ pressureDensity (toDouble (3 # 100)) then Critical
  else if gtQ pressureDensity (toDouble (15 # 1000)) then Elevated
       else Baseline.

Definition negationRisk : CueRisk :=
  if gtQ negationDensity (toDouble (25 # 1000)) then Elevated else Baseline.

Definition conflictRisk : CueRisk :=
  if 1 <? List.length contradictionCandidates then Critical else Elevated.

Definition cuesOf (fallbackCopy : FallbackCopy) : list CueInsight :=
  [ {| cueLabel := hedgingLabel fallbackCopy;
       cueValue := percent1 hedgingDensity;
       cueRisk := hedgingRisk;
       cueDetail :=
         if 0 <? List.length hedgingSignals
         then hedgingDetail fallbackCopy hedgingSignals
         else hedgingDetailNone fallbackCopy |};
    {| cueLabel := pressureLabel fallbackCopy;
       cueValue := percent1 pressureDensity;
       cueRisk := pressureRisk;
       cueDetail :=
         if 0 <? List.length pressureSignals
         then pressureDetail fallbackCopy pressureSignals
         else pressureDetailNone fallbackCopy |};
    {| cueLabel := negationLabel fallbackCopy;
       cueValue := percent1 negationDensity;
       cueRisk := negationRisk;
       cueDetail := negationDetail fallbackCopy |} ]
  ++ (if 0 <? List.length contradictionCandidates
      then [ {| cueLabel := conflictLabel fallbackCopy;
                cueValue :=
                  natToString (N.of_nat (List.length contradictionCandidates));
                cueRisk := conflictRisk;
                cueDetail := conflictDetail fallbackCopy |} ]
      else []).

Definition coveragePercent : Z :=
  round (fmul (fdiv (ofNat (List.length highlightedSentences))
                    (ofNat (Nat.max (List.length sentences) 1)))
              100).

Definition metricsOf (fallbackCopy : FallbackCopy) : list MetricInsight :=
  let m := copyMetrics fallbackCopy in
  [ {| metricLabel := wordCountLabel m;
       metricValue := toLocaleString (List.length words) ++ lit " terms";
       metricHint := wordCountHint m |};
    {| metricLabel := coverageLabel m;
       metricValue := intToString coveragePercent ++ lit "%";
       metricHint := coverageHint m |};
    {| metricLabel := negationMetricLabel m;
       metricValue := percent1 negationDensity;
       metricHint := negationHint m |} ].

(** [locale] is the value the caller passes; the declared type admits
    ['ko'] and ['en'], the function itself provides for any other value with
    [fallbackDictionary[locale] ?? fallbackDictionary.ko]. *)
Definition analyzeTranscriptFallback (locale : jsstring)
  : completion AnalysisResult :=
  let fallbackCopy :=
    match fallbackDictionary locale with
    | Some entry => entry
    | None => koCopy
    end in
  let cues := cuesOf fallbackCopy in
  let metrics := metricsOf fallbackCopy in
  match synthesizeEvidence highlightedSentences hedgingSignals
                           pressureSignals locale with
  | Throw e => Throw e
  | Normal evidence =>
    Normal {| lieProbability := lieProbabilityOf;
              confidenceScore := confidenceScoreOf;
              summary :=
                copySummary fallbackCopy hedgingDensity pressureDensity
                            lieProbabilityOf;
              cues := cues;
              metrics := metrics;
              evidence := evidence |}
  end.

End Analysis.

(** The result for a supported locale, field by field. *)
Definition resultOf (raw : jsstring) (l : Locale) : AnalysisResult :=
  {| lieProbability := lieProbabilityOf raw;
     confidenceScore := confidenceScoreOf raw;
     summary :=
       copySummary (copyOf l) (hedgingDensity raw) (pressureDensity raw)
                   (lieProbabilityOf raw);
     cues := cuesOf raw (copyOf l);
     metrics := metricsOf raw (copyOf l);
     evidence :=
       evidenceEntries (copyEvidence (copyOf l)) (highlightedSentences raw)
                       (hedgingSignals raw) (pressureSignals raw) |}.

(** ** The specification's vocabulary

    Definitions that follow the words of the specification, to be compared
    with the ones above. *)

(** The number of non-empty whitespace-separated tokens: a token starts at
    each unit that is not whitespace and does not continue a token. *)
Fixpoint tokenCount (inToken : bool) (s : jsstring) : nat :=
  match s with
  | [] => 0
  | c :: s' =>
    if isWhiteSpace c then tokenCount false s'
    else (if inToken then 0 else 1) + tokenCount true s'
  end.

(** The number of positions of [s] at which [kw] stands between two word
    boundaries, whether or not the occurrences overlap. *)
Fixpoint standaloneCount (kw : jsstring) (prev : option N) (s : jsstring)
  : nat :=
  match s with
  | [] => 0
  | c :: s' =>
    (if matchAt kw prev s then 1 else 0) + standaloneCount kw (Some c) s'
  end.

Definition totalStandalone (text : jsstring) (keywords : list jsstring)
  : nat :=
  list_sum (map (fun kw => standaloneCount kw None text) keywords).

(** [kw] stands in [s] as a word of its own: it occurs, up to letter case,
    with a word boundary at both ends of the occurrence (of the two units
    around the position, exactly one is a word character). *)
Definition standsAlone (kw s : jsstring) : Prop :=
  exists pre occ post,
    s = pre ++ occ ++ post
    /\ map canonicalize occ = map canonicalize kw
    /\ xorb (wordBefore (last (map Some pre) None)) (wordAt (occ ++ post))
        = true
    /\ xorb (wordBefore (last (map Some (pre ++ occ)) None)) (wordAt post)
        = true.

Definition clamp (x lo hi : Z) : Z := Z.max lo (Z.min hi x).

(** The word count of the specification. *)
Definition specWordCount (raw : jsstring) : nat :=
  tokenCount false (trim raw).

(** A conflicting clause in the words of the specification: the lower-cased
    sentence has one of the contrast conjunctions standing alone as a word
    and contains one of the markers "didn't", "did", "never", "no". *)
Definition specMarkers : list jsstring :=
  [lit "didn't"; lit "did"; lit "never"; lit "no"].

Definition specConflicting (sentence : jsstring) : bool :=
  let normalized := toLowerCase sentence in
  existsb (fun joiner => negb (standaloneCount joiner None normalized =? 0))
          contradictionJoiners
  && existsb (fun marker => includes normalized marker) specMarkers.

(** The markers the code looks for. *)
Definition codeMarkers : list jsstring :=
  [lit "i didn't"; lit "i did"; lit "never"; lit "no"].

(** The fourth cue, for [n] retained conflicting sentences. *)
Definition conflictCue (copy : FallbackCopy) (n : nat) : CueInsight :=
  {| cueLabel := conflictLabel copy;
     cueValue := natToString (N.of_nat n);
     cueRisk := if 1 <? n then Critical else Elevated;
     cueDetail := conflictDetail copy |}.

(** Evidence selection in the words of the specification: a sentence is
    scored by the raw number of occurrences of the hedging and pressure
    keywords in it. *)
Fixpoint occurrences (sub s : jsstring) : nat :=
  (if startsWith s sub then 1 else 0)
  + match s with
    | [] => 0
    | _ :: s' => occurrences sub s'
    end.

(** The score formulas of the specification, over its own counts.

    A word-boundary match, told from the units themselves: the keyword
    occurs at the head of [s] up to letter case, and of the two units around
    each end of the occurrence exactly one is a word character. *)
Definition standsAloneAt (kw : jsstring) (prev : option N) (s : jsstring)
  : bool :=
  let occ := firstn (List.length kw) s in
  let post := skipn (List.length kw) s in
  eqUnits (map canonicalize occ) (map canonicalize kw)
  && xorb (wordBefore prev) (wordAt s)
  && xorb (wordBefore (last (map Some occ) prev)) (wordAt post).

Fixpoint boundaryCount (kw : jsstring) (prev : option N) (s : jsstring)
  : nat :=
  match s with
  | [] => 0
  | c :: s' =>
    (if standsAloneAt kw prev s then 1 else 0) + boundaryCount kw (Some c) s'
  end.

(** A conflicting sentence as the code tells it: a contrast joiner between
    two spaces, and one of the code's markers. *)
Definition occursIn (sub s : jsstring) : bool := 0 <? occurrences sub s.

Definition conflictingSentence (sentence : jsstring) : bool :=
  let normalized := toLowerCase sentence in
  existsb (fun joiner => occursIn (lit " " ++ joiner ++ lit " ") normalized)
          contradictionJoiners
  && existsb (fun marker => occursIn marker normalized) codeMarkers.

Section SpecFormulas.

Variable raw : jsstring.

Definition specHits (keywords : list jsstring) : nat :=
  list_sum
    (map (fun kw => boundaryCount kw None (toLowerCase (trim raw))) keywords).

Definition specContradictionCount : nat :=
  Nat.min 3 (List.length (filter conflictingSentence (sentences raw))).

(** The formulas with every operation a double operation, in the order
    written. *)
Definition specDensity (keywords : list jsstring) : Q :=
  fdiv (ofNat (specHits keywords)) (ofNat (Nat.max (specWordCount raw) 1)).

Definition specLieProbability : Z :=
  clamp
    (round
       (fadd
          (fadd
             (fadd (fadd 42 (fmul (specDensity hedgingKeywords) 520))
                   (fmul (specDensity pressureKeywords) 360))
             (fmul (specDensity negationKeywords) 180))
          (fmul (ofNat specContradictionCount) 4)))
    5 96.

Definition specConfidenceScore : Z :=
  clamp
    (round
       (fsub
          (fadd 58
                (fmul (Qmin 1%Q (fdiv (ofNat (specWordCount raw)) 320)) 32))
          (fmul (Qabs (fsub (specDensity hedgingKeywords)
                            (specDensity pressureKeywords)))
                120)))
    38 94.

(** The formulas in exact arithmetic. *)
Definition exactDensity (keywords : list jsstring) : Q :=
  (ofNat (specHits keywords) / ofNat (Nat.max (specWordCount raw) 1))%Q.

Definition exactLieProbability : Z :=
  clamp
    (round (42 + exactDensity hedgingKeywords * 520
            + exactDensity pressureKeywords * 360
            + exactDensity negationKeywords * 180
            + ofNat specContradictionCount * 4)%Q)
    5 96.

Definition exactConfidenceScore : Z :=
  clamp
    (round (58 + Qmin 1%Q (ofNat (specWordCount raw) / 320)%Q * 32
            - Qabs (exactDensity hedgingKeywords
                    - exactDensity pressureKeywords) * 120)%Q)
    38 94.

End SpecFormulas.

Definition specKeywordScore (sentence : jsstring) : nat :=
  list_sum
    (map (fun keyword => occurrences keyword (toLowerCase sentence))
         (hedgingKeywords ++ pressureKeywords)).

Definition specHighlighted (raw : jsstring) : list jsstring :=
  map fst
    (firstn 3
       (sortDesc snd
          (filter (fun entry => 0 <? snd entry)
             (map (fun sentence => (sentence, specKeywordScore sentence))
                  (sentences raw))))).

(** The scored sentences the code ranks: every sentence with its number of
    keywords present, the ones with no keyword left out. *)
Definition scoredSentences (raw : jsstring) : list (jsstring * nat) :=
  filter (fun entry => 0 <? snd entry)
    (map (fun sentence => (sentence, keywordHits sentence)) (sentences raw)).

(** [sub] occurs in [s] as a contiguous piece. *)
Definition isSubstring (sub s : jsstring) : Prop :=
  exists pre post, s = pre ++ sub ++ post.

(** The text fields of a result that are taken from a copy: [localized raw
    copy r] says that each of them is the field of [copy], or the value of
    [copy]'s template on the figures of [raw]. *)
Definition cueLabelsOf (copy : FallbackCopy) : list jsstring :=
  [hedgingLabel copy; pressureLabel copy; negationLabel copy;
   conflictLabel copy].

Definition cueDetailsOf (raw : jsstring) (copy : FallbackCopy)
  : list jsstring :=
  [ if 0 <? List.length (hedgingSignals raw)
    then hedgingDetail copy (hedgingSignals raw)
    else hedgingDetailNone copy;
    if 0 <? List.length (pressureSignals raw)
    then pressureDetail copy (pressureSignals raw)
    else pressureDetailNone copy;
    negationDetail copy;
    conflictDetail copy ].

Definition rationalesOf (raw : jsstring) (copy : EvidenceCopy)
  : list jsstring :=
  match highlightedSentences raw with
  | [] => [noDataDetail copy]
  | highlighted =>
    map (evidenceRationale copy (hedgingSignals raw) (pressureSignals raw))
        (seq 0 (List.length highlighted))
  end.

Definition quotesOf (raw : jsstring) (copy : EvidenceCopy) : list jsstring :=
  match highlightedSentences raw with
  | [] => [noDataQuote copy]
  | highlighted => highlighted
  end.

Definition localized (raw : jsstring) (copy : FallbackCopy)
    (r : AnalysisResult) : Prop :=
  summary r
  = copySummary copy (hedgingDensity raw) (pressureDensity raw)
                (lieProbability r)
  /\ map cueLabel (cues r)
     = firstn (List.length (cues r)) (cueLabelsOf copy)
  /\ map cueDetail (cues r)
     = firstn (List.length (cues r)) (cueDetailsOf raw copy)
  /\ map metricLabel (metrics r)
     = [wordCountLabel (copyMetrics copy); coverageLabel (copyMetrics copy);
        negationMetricLabel (copyMetrics copy)]
  /\ map metricHint (metrics r)
     = [wordCountHint (copyMetrics copy); coverageHint (copyMetrics copy);
        negationHint (copyMetrics copy)]
  /\ map rationale (evidence r) = rationalesOf raw (copyEvidence copy)
  /\ map quote (evidence r) = quotesOf raw (copyEvidence copy).

(** [unit.repeat(n)], and the text made of [n] occurrences of a keyword,
    each followed by a space. *)
Definition repeatText (unit : jsstring) (n : nat) : jsstring :=
  List.concat (repeat unit n).

Definition keywordText (keyword : jsstring) (n : nat) : jsstring :=
  repeatText (keyword ++ lit " ") n.











(** ** Notions used by the proofs *)

(** No occurrence of a keyword can start inside another one: wherever the
    first unit of the keyword comes back at a later position, the unit
    before it has the same word-character status, so no word boundary
    separates them. *)
Fixpoint safeTail (p0 pprev : N) (tail : jsstring) : bool :=
  match tail with
  | [] => true
  | p :: tail' =>
    negb (unitMatches p0 p && xorb (isWordChar pprev) (isWordChar p))
    && safeTail p0 p tail'
  end.

Definition overlapFree (kw : jsstring) : bool :=
  match kw with
  | [] => false
  | p0 :: tail => safeTail p0 p0 tail
  end.

(** None of the first [k] positions of [s] matches [kw]. *)
Fixpoint noMatchPrefix (kw : jsstring) (k : nat) (prev : option N)
    (s : jsstring) : bool :=
  match k, s with
  | S k', c :: s' =>
    negb (matchAt kw prev s) && noMatchPrefix kw k' (Some c) s'
  | _, _ => true
  end.

(** ** Further notions used by the properties *)

Definition notWhiteSpace (c : N) : bool := negb (isWhiteSpace c).

(** Where a word may end: at the end of the text or before whitespace. *)
Definition wordEnd (rest : jsstring) : Prop :=
  match rest with
  | [] => True
  | c :: _ => isWhiteSpace c = true
  end.

(** [Runs ws s]: the text [s] is whitespace, the first word of [ws],
    whitespace, the second word, and so on; each word is not empty, holds
    no whitespace and cannot be extended. *)
Inductive Runs : list jsstring -> jsstring -> Prop :=
| Runs_nil (gap : jsstring) :
    forallb isWhiteSpace gap = true -> Runs [] gap
| Runs_cons (gap w rest : jsstring) (ws : list jsstring) :
    forallb isWhiteSpace gap = true ->
    w <> [] -> forallb notWhiteSpace w = true ->
    wordEnd rest ->
    Runs ws rest ->
    Runs (w :: ws) (gap ++ w ++ rest).

(** A sentence break: one of [. ! ?] with whitespace right after it. *)
Definition hasBreak (s : jsstring) : Prop :=
  exists pre t w post,
    s = pre ++ t :: w :: post
    /\ isTerminator t = true /\ isWhiteSpace w = true.

Definition accState (inSep afterTerm : bool) (acc : jsstring) : Prop :=
  ~ hasBreak (rev acc)
  /\ afterTerm = match acc with
                 | t :: _ => isTerminator t
                 | [] => false
                 end
  /\ (inSep = true -> acc = []).

(** The items behind the signals: the keywords that occur, with their
    counts, ranked. *)
Definition rankedKeywords (text : jsstring) (keywords : list jsstring)
  : list (jsstring * nat) :=
  sortDesc snd
    (filter (fun item => 0 <? snd item)
       (map (fun keyword => (keyword, matchCount text keyword)) keywords)).

(** The highlighted sentences as a function of the sentences. *)
Definition highlightOf (ss : list jsstring) : list jsstring :=
  map fst
    (firstn 3
       (sortDesc snd
          (filter (fun entry : jsstring * nat => 0 <? snd entry)
             (map (fun sentence => (sentence, keywordHits sentence)) ss)))).

(** ** The callers: app/api/analyze/route.ts *)

(** A form field as [FormData.get] returns it: a string, a file, or
    [null] when the field is absent. *)
Inductive FormValue : Type :=
| FormString (value : jsstring)
| FormFile
| FormNull.

(** The locale the route passes to the engine. *)
Definition selectLocale (requestedLocale : FormValue) : jsstring :=
  match requestedLocale with
  | FormString value =>
    if eqUnits value (lit "en") || eqUnits value (lit "ko")
    then value else lit "ko"
  | _ => lit "ko"
  end.

(** The class [[\u0000-\u001F\u007F]]. *)
Definition isControl (c : N) : bool := ((c <=? 31) || (c =? 127))%N.

(** [s.replace(/[class]+/g, replacement)]: every maximal run of units of
    the class gives way to one [replacement].  [inRun] says that the unit
    before belongs to the run being replaced. *)
Fixpoint replaceRuns (inClass : N -> bool) (replacement : jsstring)
    (inRun : bool) (s : jsstring) : jsstring :=
  match s with
  | [] => []
  | c :: s' =>
    if inClass c then
      (if inRun then [] else replacement)
      ++ replaceRuns inClass replacement true s'
    else c :: replaceRuns inClass replacement false s'
  end.

Definition MAX_CHARS : nat := N.to_nat 12000.

(** What the route does to the extracted text before it is analysed;
    [None] is the failure response for a file without text. *)
Definition sanitizeExtracted (extracted : jsstring) : option jsstring :=
  let extracted := trim (replaceRuns isControl (lit " ") false extracted) in
  if negb (truthy extracted) then None
  else if MAX_CHARS <? List.length extracted
       then Some (firstn MAX_CHARS extracted)
       else Some extracted.

(** [createPreview], and [createPreviewText] of the page. *)
Definition createPreview (text : jsstring) : jsstring :=
  let normalized := trim (replaceRuns isWhiteSpace (lit " ") false text) in
  if 480 <? List.length normalized
  then firstn 480 normalized ++ [8230%N]
  else normalized.

(** A unit the route keeps as it is: neither a control character nor
    whitespace. *)
Definition isVisible (c : N) : bool := negb (isControl c || isWhiteSpace c).

(** Whitespace occurs as single U+0020 units only; [afterSpace] says that
    the unit before is one. *)
Fixpoint singleSpaced (afterSpace : bool) (s : jsstring) : bool :=
  match s with
  | [] => true
  | c :: s' =>
    if isWhiteSpace c
    then (c =? 32)%N && negb afterSpace && singleSpaced true s'
    else singleSpaced false s'
  end.

(** ** lib/site-config.ts *)

Definition DEFAULT_SITE_URL : jsstring :=
  lit "https://lie-analyzer.vercel.app".

(** [url.replace(/\/+$/, "")]: the slashes at the end are dropped. *)
Definition normalizeUrl (url : jsstring) : jsstring :=
  fold_right
    (fun c r => match r with
                | [] => if (c =? 47)%N then [] else [c]
                | _ => c :: r
                end) [] url.

(** [siteUrl], given the value of [process.env.NEXT_PUBLIC_SITE_URL]. *)
Definition siteUrl (env : option jsstring) : jsstring :=
  normalizeUrl (match env with Some url => url | None => DEFAULT_SITE_URL end).

(** [absoluteUrl]; [None] is a call without argument. *)
Definition absoluteUrl (env : option jsstring) (path : option jsstring)
  : jsstring :=
  let path := match path with Some p => p | None => lit "/" end in
  let normalizedPath :=
    if startsWith path (lit "/") then path else lit "/" ++ path in
  siteUrl env ++ normalizedPath.

(** ** app/page.tsx: the token bucket *)

Definition TOKEN_MAX : Z := 3.
Definition TOKEN_INTERVAL_MS : Z := 5 * 60 * 1000.

Record TokenState : Type := {
  tokens : Z;
  lastRefill : Q;
  nextReadyInMs : Q
}.

(** [reviveTokenState].  [now] is the value of [Date.now()]; an argument
    that is not a finite number ([NaN], an infinity) is [None]. *)
Definition reviveTokenState (now : Z) (tokens lastRefill : option Q)
  : TokenState :=
  let normalizedTokens :=
    match tokens with Some t => Qfloor t | None => TOKEN_MAX end in
  let normalizedLastRefill :=
    match lastRefill with Some l => l | None => inject_Z now end in
  let normalizedTokens :=
    if (normalizedTokens <? 0)%Z then 0%Z else normalizedTokens in
  let normalizedTokens :=
    if (TOKEN_MAX <? normalizedTokens)%Z then TOKEN_MAX
    else normalizedTokens in
  let refilled :=
    if (normalizedTokens <? TOKEN_MAX)%Z then
      let elapsed := (inject_Z now - normalizedLastRefill)%Q in
      if Qle_bool (inject_Z TOKEN_INTERVAL_MS) elapsed then
        let regained := Qfloor (elapsed / inject_Z TOKEN_INTERVAL_MS)%Q in
        let normalizedTokens :=
          Z.min TOKEN_MAX (normalizedTokens + regained) in
        (normalizedTokens,
         if (normalizedTokens =? TOKEN_MAX)%Z then inject_Z now
         else (normalizedLastRefill
               + inject_Z regained * inject_Z TOKEN_INTERVAL_MS)%Q)
      else (normalizedTokens, normalizedLastRefill)
    else (normalizedTokens, normalizedLastRefill) in
  let normalizedTokens := fst refilled in
  let normalizedLastRefill := snd refilled in
  let nextReadyInMs :=
    if (TOKEN_MAX <=? normalizedTokens)%Z then 0%Q
    else Qmax 0 (inject_Z TOKEN_INTERVAL_MS
                 - (inject_Z now - normalizedLastRefill))%Q in
  {| tokens := normalizedTokens;
     lastRefill := normalizedLastRefill;
     nextReadyInMs := nextReadyInMs |}.

(** The tokens an argument stands for before any refill. *)
Definition storedTokens (tokens : option Q) : Z :=
  match tokens with
  | Some t => Z.max 0 (Z.min TOKEN_MAX (Qfloor t))
  | None => TOKEN_MAX
  end.

(** [consumeToken] applied to a state.  The clock is read twice: [argNow]
    is the [Date.now()] of the argument, [now] the one [reviveTokenState]
    reads when it starts. *)
Definition consumeToken (argNow now : Z) (current : TokenState)
  : TokenState :=
  if (tokens current <=? 0)%Z then current
  else reviveTokenState now (Some (inject_Z (tokens current - 1)))
                        (Some (inject_Z argNow)).

(** The state the timer installs every second. *)
Definition tick (now : Z) (current : TokenState) : TokenState :=
  reviveTokenState now (Some (inject_Z (tokens current)))
                   (Some (lastRefill current)).

(** ** app/page.tsx: percentages read back for the radar chart *)

(** The class [\d]. *)
Definition isDigit (c : N) : bool := ((48 <=? c) && (c <=? 57))%N.

(** The longest prefix of units of a class, and what follows it: a greedy
    [class*]. *)
Fixpoint takeWhile (inClass : N -> bool) (s : jsstring)
  : jsstring * jsstring :=
  match s with
  | c :: s' =>
    if inClass c
    then let (taken, rest) := takeWhile inClass s' in (c :: taken, rest)
    else ([], s)
  | [] => ([], [])
  end.

(** The pattern [/(-?\d+(?:\.\d+)?)\s*%/] tried at the head of [s]; the
    result is the capture, as sign, integer digits and fraction digits.
    Each greedy choice is the only one that can succeed: a shorter run of
    digits or of whitespace is followed by a unit of the same class, not by
    what the pattern asks for next. *)
Definition matchPercentAt (s : jsstring)
  : option (bool * jsstring * jsstring) :=
  let (negative, s1) :=
    match s with
    | c :: s' => if (c =? 45)%N then (true, s') else (false, s)
    | [] => (false, s)
    end in
  let (digits, s2) := takeWhile isDigit s1 in
  if negb (truthy digits) then None
  else
    let (fraction, s3) :=
      match s2 with
      | c :: s' =>
        if (c =? 46)%N
        then let (fraction, rest) := takeWhile isDigit s' in
             if truthy fraction then (fraction, rest) else ([], s2)
        else ([], s2)
      | [] => ([], s2)
      end in
    match snd (takeWhile isWhiteSpace s3) with
    | c :: _ => if (c =? 37)%N then Some (negative, digits, fraction) else None
    | [] => None
    end.

(** [input.match(pattern)]: the first position where the pattern matches. *)
Fixpoint searchPercent (s : jsstring) : option (bool * jsstring * jsstring) :=
  match matchPercentAt s with
  | Some capture => Some capture
  | None =>
    match s with
    | [] => None
    | _ :: s' => searchPercent s'
    end
  end.

Definition digitsValue (digits : jsstring) : N :=
  fold_left (fun acc c => (acc * 10 + (c - 48))%N) digits 0%N.

(** [Number.parseFloat] of a capture: the double nearest to the decimal
    the capture denotes. *)
Definition parseFloat (capture : bool * jsstring * jsstring) : Q :=
  let '(negative, digits, fraction) := capture in
  let magnitude :=
    (inject_Z (Z.of_N (digitsValue digits))
     + inject_Z (Z.of_N (digitsValue fraction))
       / inject_Z (10 ^ Z.of_nat (List.length fraction)))%Q in
  toDouble (if negative then Qopp magnitude else magnitude).

(** [extractPercent]; [None] as argument is [null] or [undefined], [None]
    as result is [null]. *)
Definition extractPercent (input : option jsstring) : option Q :=
  match input with
  | None => None
  | Some s =>
    if negb (truthy s) then None
    else option_map parseFloat (searchPercent s)
  end.

(** [average]: the entries are numbers, [null] or [undefined]. *)
Definition average (values : list (option Q)) : option Q :=
  let valid :=
    flat_map (fun value => match value with Some v => [v] | None => [] end)
             values in
  if List.length valid =? 0 then None
  else Some (fdiv (fold_left fadd valid 0%Q) (ofNat (List.length valid))).

Definition clampRadarValue (value : option Q) (fallback : Q) : Z :=
  let resolved := match value with Some v => v | None => fallback end in
  Z.max 0 (Z.min 100 (round resolved)).

(** [pattern.test(s)] for a pattern that is an alternation of literals with
    the [i] flag. *)
Fixpoint matchesLiteral (pat s : jsstring) : bool :=
  match pat, s with
  | [], _ => true
  | p :: pat', c :: s' => unitMatches p c && matchesLiteral pat' s'
  | _ :: _, [] => false
  end.

Fixpoint test (alternatives : list jsstring) (s : jsstring) : bool :=
  existsb (fun pat => matchesLiteral pat s) alternatives
  || match s with
     | [] => false
     | _ :: s' => test alternatives s'
     end.

Inductive RadarAxisKey : Type :=
| RiskAxis | ConfidenceAxis | HedgingAxis | PressureAxis | NegationAxis
| CoverageAxis.

(** [a ?? b]. *)
Definition orElse {A} (a : option A) (b : A) : A :=
  match a with Some x => x | None => b end.

Definition buildRadarSeries (analysis : AnalysisResult)
  : list (RadarAxisKey * Z) :=
  let riskValue :=
    clampRadarValue (Some (inject_Z (lieProbability analysis))) 50 in
  let confidenceValue :=
    clampRadarValue (Some (inject_Z (confidenceScore analysis))) 60 in
  let hedgingCue :=
    find (fun cue => test [lit "hedging"; lit "헤징"] (cueLabel cue))
         (cues analysis) in
  let pressureCue :=
    find (fun cue => test [lit "pressure"; lit "압박"] (cueLabel cue))
         (cues analysis) in
  let negationCue :=
    find (fun cue => test [lit "negation"; lit "부정"] (cueLabel cue))
         (cues analysis) in
  let hedgingFallback :=
    orElse (average [Some (inject_Z riskValue);
                     Some (inject_Z confidenceValue)])
           (fdiv (fadd (inject_Z riskValue) (inject_Z confidenceValue)) 2) in
  let hedgingValue :=
    clampRadarValue (extractPercent (option_map cueValue hedgingCue))
                    hedgingFallback in
  let pressureValue :=
    clampRadarValue
      (extractPercent (option_map cueValue pressureCue))
      (orElse (average [Some (inject_Z riskValue);
                        Some (inject_Z hedgingValue)])
              (fdiv (fadd (inject_Z riskValue) (inject_Z hedgingValue)) 2)) in
  let negationValue :=
    clampRadarValue
      (extractPercent (option_map cueValue negationCue))
      (orElse (average [Some (inject_Z pressureValue);
                        Some (inject_Z hedgingValue)])
              (fdiv (fadd (inject_Z pressureValue) (inject_Z hedgingValue))
                    2)) in
  let coverageMetric :=
    find (fun metric =>
            test [lit "coverage"; lit "커버"; lit "sentence"]
                 (metricLabel metric))
         (metrics analysis) in
  let metricPercents :=
    flat_map (fun metric =>
                match extractPercent (Some (metricValue metric)) with
                | Some value => [value]
                | None => []
                end)
             (metrics analysis) in
  let averageMetricPercent :=
    if 0 <? List.length metricPercents
    then average (map Some metricPercents) else None in
  let coverageFallback :=
    orElse (average [averageMetricPercent;
                     Some (inject_Z hedgingValue);
                     Some (inject_Z pressureValue)])
      (orElse averageMetricPercent
         (fdiv (fadd (fadd (inject_Z hedgingValue) (inject_Z pressureValue))
                     (inject_Z negationValue))
               3)) in
  let coverageValue :=
    clampRadarValue (extractPercent (option_map metricValue coverageMetric))
                    coverageFallback in
  [ (RiskAxis, riskValue); (ConfidenceAxis, confidenceValue);
    (HedgingAxis, hedgingValue); (PressureAxis, pressureValue);
    (NegationAxis, negationValue); (CoverageAxis, coverageValue) ].

(** The [coveragePercent] of [simulateEnsemble]: the coverage metric of the
    base result read back, or 0. *)
Definition ensembleCoverage (base : AnalysisResult) : Q :=
  let coverageMetric :=
    find (fun metric =>
            test [lit "coverage"; lit "커버"] (metricLabel metric))
         (metrics base) in
  orElse (extractPercent (option_map metricValue coverageMetric)) 0%Q.

(** The decimal number a percentage of one decimal shows for a density:
    the product [density * 100], a double, rounded to tenths. *)
Definition shownPercent (density : Q) : Q :=
  (inject_Z (Qfloor (fmul density 100 * 10 + (1 # 2))) / 10)%Q.

(** The value an axis shows for a density: its printed percentage, read
    back as a double, rounded to a whole number and capped. *)
Definition axisOfDensity (density : Q) : Z :=
  Z.max 0 (Z.min 100 (round (toDouble (shownPercent density)))).

(** ** app/page.tsx: text of a CSV file *)

(** [raw.split(/\r?\n/)]: the pieces between line breaks, a line break
    being a line feed or a carriage return followed by a line feed. *)
Fixpoint splitLines (acc : jsstring) (s : jsstring) : list jsstring :=
  match s with
  | [] => [rev acc]
  | c :: s' =>
    if (c =? 10)%N then rev acc :: splitLines [] s'
    else if (c =? 13)%N then
      match s' with
      | d :: s'' =>
        if (d =? 10)%N then rev acc :: splitLines [] s''
        else splitLines (c :: acc) s'
      | [] => splitLines (c :: acc) s'
      end
    else splitLines (c :: acc) s'
  end.

(** The class [[;,]]. *)
Definition isSeparator (c : N) : bool := ((c =? 59) || (c =? 44))%N.

Definition csvToText (raw : jsstring) : jsstring :=
  join [10%N]
    (filter truthy
       (map (fun line =>
               trim (map (fun c => if isSeparator c then 32%N else c) line))
            (splitLines [] raw))).

(** A line that splitting leaves alone: no line feed in it, and no
    carriage return at its end. *)
Fixpoint cleanLine (l : jsstring) : bool :=
  match l with
  | [] => true
  | c :: l' =>
    negb (c =? 10)%N
    && match l' with [] => negb (c =? 13)%N | _ :: _ => true end
    && cleanLine l'
  end.

Definition noLineFeed (s : jsstring) : bool :=
  forallb (fun c => negb (c =? 10)%N) s.

Definition noSeparator (s : jsstring) : bool :=
  forallb (fun c => negb (isSeparator c)) s.

(** * Properties *)

(** ** Rounding to a double *)

Lemma pow2_pos (e : Z) : (0 < 2 ^ e)%Q.
Proof. apply Qpower_0_lt. reflexivity. Qed.

Lemma pow2_plus (a b : Z) : (2 ^ (a + b) == 2 ^ a * 2 ^ b)%Q.
Proof. apply Qpower_plus. discriminate. Qed.

Lemma pow2_succ (a : Z) : (2 ^ (a + 1) == 2 * 2 ^ a)%Q.
Proof. rewrite pow2_plus. change (2 ^ 1)%Q with 2%Q. ring. Qed.

Lemma pow2_le (a b : Z) : (a <= b)%Z -> (2 ^ a <= 2 ^ b)%Q.
Proof. intros H. apply Qpower_le_compat_l; [exact H | discriminate]. Qed.

Lemma pow2_lt (a b : Z) : (a < b)%Z -> (2 ^ a < 2 ^ b)%Q.
Proof. intros H. apply Qpower_lt_compat_l; [exact H | reflexivity]. Qed.

Lemma pow2_Z (n : Z) : (0 <= n)%Z -> (inject_Z (2 ^ n) == 2 ^ n)%Q.
Proof. intros H. now rewrite Zpower_Qpower. Qed.

Lemma Qnum_pos (x : Q) : (0 < x)%Q <-> (0 < Qnum x)%Z.
Proof. unfold Qlt. simpl. rewrite Z.mul_1_r. reflexivity. Qed.

(** The binade holds the number. *)
Lemma binade_spec (x : Q) :
  (0 < x)%Q ->
  (2 ^ binade x <= x)%Q /\ (x < 2 ^ (binade x + 1))%Q.
Proof.
  intros Hx. unfold binade.
  set (a := Z.log2 (Qnum x)). set (b := Z.log2 (Z.pos (Qden x))).
  assert (Hn : (0 < Qnum x)%Z) by now apply Qnum_pos.
  destruct (Z.log2_spec (Qnum x) Hn) as [Ha1 Ha2]. fold a in Ha1, Ha2.
  destruct (Z.log2_spec (Z.pos (Qden x)) eq_refl) as [Hb1 Hb2].
  fold b in Hb1, Hb2.
  assert (Ha0 : (0 <= a)%Z) by apply Z.log2_nonneg.
  assert (Hb0 : (0 <= b)%Z) by apply Z.log2_nonneg.
  assert (Hxd : (x * inject_Z (Z.pos (Qden x)) == inject_Z (Qnum x))%Q).
  { destruct x as [n d]. unfold Qeq, Qmult, inject_Z. simpl.
    rewrite Pos.mul_1_r, Z.mul_1_r. reflexivity. }
  assert (HA1 : (2 ^ a <= inject_Z (Qnum x))%Q)
    by (rewrite <- pow2_Z by exact Ha0; now rewrite <- Zle_Qle).
  assert (HA2 : (inject_Z (Qnum x) < 2 * 2 ^ a)%Q).
  { rewrite <- pow2_succ, <- pow2_Z by lia. rewrite <- Zlt_Qlt.
    unfold Z.succ in Ha2. exact Ha2. }
  assert (HB1 : (2 ^ b <= inject_Z (Z.pos (Qden x)))%Q)
    by (rewrite <- pow2_Z by exact Hb0; now rewrite <- Zle_Qle).
  assert (HB2 : (inject_Z (Z.pos (Qden x)) < 2 * 2 ^ b)%Q).
  { rewrite <- pow2_succ, <- pow2_Z by lia. rewrite <- Zlt_Qlt.
    unfold Z.succ in Hb2. exact Hb2. }
  assert (HP : (2 ^ (a - b) * 2 ^ b == 2 ^ a)%Q)
    by (rewrite <- pow2_plus; now replace (a - b + b)%Z with a by lia).
  pose proof (pow2_pos (a - b)) as HP0.
  pose proof (pow2_pos b) as HB0.
  generalize dependent (inject_Z (Z.pos (Qden x))).
  generalize dependent (inject_Z (Qnum x)).
  intros n' HA1 HA2 d' Hxd HB1 HB2.
  destruct (Qle_bool (2 ^ (a - b)) x) eqn:E.
  - apply Qle_bool_iff in E. split; [exact E|].
    rewrite pow2_succ.
    generalize dependent (2 ^ (a - b))%Q.
    generalize dependent (2 ^ a)%Q. generalize dependent (2 ^ b)%Q.
    intros B HB0 HB1 HB2 A HA1 HA2 P HP HP0 E. nra.
  - assert (E' : (x < 2 ^ (a - b))%Q).
    { apply Qnot_le_lt. intros H. apply Qle_bool_iff in H. congruence. }
    replace (a - b - 1 + 1)%Z with (a - b)%Z by lia.
    split; [|exact E'].
    assert (Hh : (2 * 2 ^ (a - b - 1) == 2 ^ (a - b))%Q)
      by (rewrite <- pow2_succ; now replace (a - b - 1 + 1)%Z with (a - b)%Z
            by lia).
    generalize dependent (2 ^ (a - b - 1))%Q.
    generalize dependent (2 ^ (a - b))%Q.
    generalize dependent (2 ^ a)%Q. generalize dependent (2 ^ b)%Q.
    intros B HB0 HB1 HB2 A HA1 HA2 P HP HP0 E' H Hh. nra.
Qed.

Lemma binade_monotone (x y : Q) :
  (0 < x)%Q -> (x <= y)%Q -> (binade x <= binade y)%Z.
Proof.
  intros Hx Hxy.
  destruct (binade_spec x Hx) as [Hx1 _].
  destruct (binade_spec y) as [_ Hy2]; [lra|].
  destruct (Z_le_gt_dec (binade x) (binade y)) as [H|H]; [exact H|].
  exfalso. assert (Hp : (2 ^ (binade y + 1) <= 2 ^ binade x)%Q)
    by (apply pow2_le; lia).
  lra.
Qed.

Lemma roundHalfEven_cases (x : Q) :
  (roundHalfEven x = Qfloor x
   /\ (x - inject_Z (Qfloor x) <= 1 # 2)%Q)
  \/ (roundHalfEven x = (Qfloor x + 1)%Z
      /\ (1 # 2 <= x - inject_Z (Qfloor x))%Q).
Proof.
  unfold roundHalfEven.
  destruct (x - inject_Z (Qfloor x) ?= 1 # 2)%Q eqn:E.
  - apply Qeq_alt in E. destruct (Z.even (Qfloor x));
      [left | right]; (split; [reflexivity | rewrite E; apply Qle_refl]).
  - apply Qlt_alt in E. left. split; [reflexivity | now apply Qlt_le_weak].
  - apply Qgt_alt in E. right. split; [reflexivity | now apply Qlt_le_weak].
Qed.

Lemma roundHalfEven_monotone (x y : Q) :
  (x <= y)%Q -> (roundHalfEven x <= roundHalfEven y)%Z.
Proof.
  intros H. pose proof (Qfloor_resp_le x y H) as Hf.
  destruct (Z.eq_dec (Qfloor x) (Qfloor y)) as [E|E].
  - unfold roundHalfEven. rewrite E.
    assert (Hd : (x - inject_Z (Qfloor y) <= y - inject_Z (Qfloor y))%Q)
      by lra.
    destruct (x - inject_Z (Qfloor y) ?= 1 # 2)%Q eqn:Ex.
    + apply Qeq_alt in Ex.
      destruct (y - inject_Z (Qfloor y) ?= 1 # 2)%Q eqn:Ey.
      * apply Z.le_refl.
      * apply Qlt_alt in Ey. exfalso. lra.
      * destruct (Z.even (Qfloor y)); lia.
    + destruct (y - inject_Z (Qfloor y) ?= 1 # 2)%Q;
        try destruct (Z.even (Qfloor y)); lia.
    + apply Qgt_alt in Ex.
      destruct (y - inject_Z (Qfloor y) ?= 1 # 2)%Q eqn:Ey.
      * apply Qeq_alt in Ey. exfalso. lra.
      * apply Qlt_alt in Ey. exfalso. lra.
      * apply Z.le_refl.
  - destruct (roundHalfEven_cases x) as [[-> _] | [-> _]];
      destruct (roundHalfEven_cases y) as [[-> _] | [-> _]]; lia.
Qed.

Lemma roundHalfEven_integer (k : Z) : roundHalfEven (inject_Z k) = k.
Proof.
  unfold roundHalfEven. rewrite Qfloor_Z.
  assert (E : (inject_Z k - inject_Z k ?= 1 # 2)%Q = Lt)
    by (apply (proj1 (Qlt_alt _ _)); lra).
  now rewrite E.
Qed.

Lemma roundHalfEven_Qeq (x y : Q) :
  (x == y)%Q -> roundHalfEven x = roundHalfEven y.
Proof.
  intros H. apply Z.le_antisymm; apply roundHalfEven_monotone; lra.
Qed.

(** The significand of a positive number lies between [2^52] and [2^53]. *)
Lemma significand_bounds (x : Q) :
  (0 < x)%Q ->
  (2 ^ 52 <= x / 2 ^ (binade x - 52))%Q
  /\ (x / 2 ^ (binade x - 52) < 2 ^ 53)%Q.
Proof.
  intros Hx. destruct (binade_spec x Hx) as [H1 H2].
  pose proof (pow2_pos (binade x - 52)) as Hs.
  assert (E1 : (2 ^ binade x == 2 ^ 52 * 2 ^ (binade x - 52))%Q)
    by (rewrite <- pow2_plus; now replace (52 + (binade x - 52))%Z
          with (binade x) by lia).
  assert (E2 : (2 ^ (binade x + 1) == 2 ^ 53 * 2 ^ (binade x - 52))%Q)
    by (rewrite <- pow2_plus; now replace (53 + (binade x - 52))%Z
          with (binade x + 1)%Z by lia).
  split.
  - apply Qle_shift_div_l; [exact Hs|]. now rewrite <- E1.
  - apply Qlt_shift_div_r; [exact Hs|]. now rewrite <- E2.
Qed.

Lemma roundPositive_bounds (x : Q) :
  (0 < x)%Q ->
  (2 ^ binade x <= roundPositive x)%Q
  /\ (roundPositive x <= 2 ^ (binade x + 1))%Q.
Proof.
  intros Hx. destruct (significand_bounds x Hx) as [H1 H2].
  unfold roundPositive.
  set (s := (binade x - 52)%Z) in *. set (m := (x / 2 ^ s)%Q) in *.
  pose proof (pow2_pos s) as Hs.
  assert (Hlo : (2 ^ 52 <= roundHalfEven m)%Z).
  { rewrite <- (roundHalfEven_integer (2 ^ 52)).
    apply roundHalfEven_monotone. now rewrite pow2_Z by lia. }
  assert (Hhi : (roundHalfEven m <= 2 ^ 53)%Z).
  { rewrite <- (roundHalfEven_integer (2 ^ 53)).
    apply roundHalfEven_monotone. rewrite pow2_Z by lia.
    now apply Qlt_le_weak. }
  assert (E1 : (2 ^ binade x == inject_Z (2 ^ 52) * 2 ^ s)%Q).
  { rewrite pow2_Z, <- pow2_plus by lia.
    now replace (52 + s)%Z with (binade x) by (unfold s; lia). }
  assert (E2 : (2 ^ (binade x + 1) == inject_Z (2 ^ 53) * 2 ^ s)%Q).
  { rewrite pow2_Z, <- pow2_plus by lia.
    now replace (53 + s)%Z with (binade x + 1)%Z by (unfold s; lia). }
  rewrite E1, E2. rewrite Zle_Qle in Hlo, Hhi.
  split; apply Qmult_le_compat_r; try assumption; now apply Qlt_le_weak.
Qed.

Lemma roundPositive_pos (x : Q) : (0 < x)%Q -> (0 < roundPositive x)%Q.
Proof.
  intros Hx. destruct (roundPositive_bounds x Hx) as [H _].
  pose proof (pow2_pos (binade x)). lra.
Qed.

Lemma roundPositive_monotone (x y : Q) :
  (0 < x)%Q -> (x <= y)%Q -> (roundPositive x <= roundPositive y)%Q.
Proof.
  intros Hx Hxy. assert (Hy : (0 < y)%Q) by lra.
  pose proof (binade_monotone x y Hx Hxy) as He.
  destruct (Z.eq_dec (binade x) (binade y)) as [E|E].
  - unfold roundPositive. rewrite E.
    pose proof (pow2_pos (binade y - 52)) as Hs.
    apply Qmult_le_compat_r; [|now apply Qlt_le_weak].
    rewrite <- Zle_Qle. apply roundHalfEven_monotone.
    apply Qmult_le_compat_r; [exact Hxy|].
    apply Qlt_le_weak, Qinv_lt_0_compat, Hs.
  - destruct (roundPositive_bounds x Hx) as [_ H1].
    destruct (roundPositive_bounds y Hy) as [H2 _].
    assert (Hp : (2 ^ (binade x + 1) <= 2 ^ binade y)%Q)
      by (apply pow2_le; lia).
    lra.
Qed.

Lemma Qred_sign (x : Q) :
  match Qnum (Qred x) with
  | Z0 => (x == 0)%Q
  | Zpos _ => (0 < x)%Q
  | Zneg _ => (x < 0)%Q
  end.
Proof.
  pose proof (Qred_correct x) as E.
  destruct (Qred x) as [n d] eqn:Er. cbn [Qnum].
  destruct n; rewrite <- E; [reflexivity| |]; reflexivity.
Qed.

Lemma toDouble_Qeq (x y : Q) : (x == y)%Q -> toDouble x = toDouble y.
Proof. intros H. unfold toDouble. now rewrite (Qred_complete x y H). Qed.

Lemma toDouble_zero : toDouble 0 = 0%Q.
Proof. reflexivity. Qed.

Lemma toDouble_sign (x : Q) :
  ((0 <= x)%Q -> (0 <= toDouble x)%Q)
  /\ ((x <= 0)%Q -> (toDouble x <= 0)%Q).
Proof.
  unfold toDouble. pose proof (Qred_sign x) as Hs.
  pose proof (Qred_correct x) as E.
  destruct (Qnum (Qred x)) eqn:En.
  - split; intros _; apply Qle_refl.
  - assert (Hp : (0 < Qred x)%Q) by now rewrite E.
    pose proof (roundPositive_pos _ Hp) as Hr. split; intros H; lra.
  - assert (Hp : (0 < - Qred x)%Q) by (rewrite E; lra).
    pose proof (roundPositive_pos _ Hp) as Hr. split; intros H; lra.
Qed.

Lemma toDouble_nonneg (x : Q) : (0 <= x)%Q -> (0 <= toDouble x)%Q.
Proof. apply toDouble_sign. Qed.

(** Rounding to a double keeps the order. *)
Lemma toDouble_monotone (x y : Q) :
  (x <= y)%Q -> (toDouble x <= toDouble y)%Q.
Proof.
  intros H. unfold toDouble.
  pose proof (Qred_sign x) as Hx. pose proof (Qred_sign y) as Hy.
  pose proof (Qred_correct x) as Ex. pose proof (Qred_correct y) as Ey.
  destruct (Qnum (Qred x)) eqn:Enx; destruct (Qnum (Qred y)) eqn:Eny.
  - apply Qle_refl.
  - apply Qlt_le_weak, roundPositive_pos. now rewrite Ey.
  - exfalso. lra.
  - exfalso. lra.
  - apply roundPositive_monotone; rewrite ?Ex, ?Ey; assumption.
  - exfalso. lra.
  - assert (Hp : (0 < - Qred x)%Q) by (rewrite Ex; lra).
    pose proof (roundPositive_pos _ Hp). lra.
  - assert (Hp : (0 < - Qred x)%Q) by (rewrite Ex; lra).
    assert (Hq : (0 < Qred y)%Q) by now rewrite Ey.
    pose proof (roundPositive_pos _ Hp). pose proof (roundPositive_pos _ Hq).
    lra.
  - assert (Hp : (0 < - Qred y)%Q) by (rewrite Ey; lra).
    assert (Hle : (- Qred y <= - Qred x)%Q) by (rewrite Ex, Ey; lra).
    pose proof (roundPositive_monotone _ _ Hp Hle). lra.
Qed.

Lemma roundPositive_integer (x : Q) (z : Z) :
  (x == inject_Z z)%Q -> (0 < z < 2 ^ 53)%Z ->
  (roundPositive x == inject_Z z)%Q.
Proof.
  intros Ex [H0 H1].
  assert (Hx : (0 < x)%Q) by (rewrite Ex, <- (Zlt_Qlt 0); lia).
  destruct (binade_spec x Hx) as [Hb _].
  assert (He : (binade x < 53)%Z).
  { apply (Qpower_lt_compat_l_inv 2); [|reflexivity].
    apply Qle_lt_trans with x; [exact Hb|].
    rewrite Ex, <- pow2_Z by lia. now rewrite <- Zlt_Qlt. }
  unfold roundPositive.
  set (k := (52 - binade x)%Z).
  assert (Hk : (0 <= k)%Z) by (unfold k; lia).
  replace (binade x - 52)%Z with (- k)%Z by (unfold k; lia).
  assert (Hinv : (2 ^ (- k) * 2 ^ k == 1)%Q)
    by (rewrite <- pow2_plus; now replace (- k + k)%Z with 0%Z by lia).
  pose proof (pow2_pos (- k)) as Hpos.
  assert (Hne : ~ (2 ^ (- k) == 0)%Q)
    by (intros E; rewrite E in Hpos; now apply (Qlt_irrefl 0)).
  assert (Em : (x / 2 ^ (- k) == inject_Z (z * 2 ^ k))%Q).
  { rewrite inject_Z_mult, pow2_Z, Ex by exact Hk.
    unfold Qdiv. rewrite Qpower_opp, Qinv_involutive. reflexivity. }
  rewrite (roundHalfEven_Qeq _ _ Em), roundHalfEven_integer.
  rewrite inject_Z_mult, pow2_Z by exact Hk.
  rewrite <- Qmult_assoc, (Qmult_comm (2 ^ k)), Hinv. ring.
Qed.

(** Integers below [2^53] are doubles. *)
Lemma toDouble_integer (z : Z) :
  (0 <= z < 2 ^ 53)%Z -> (toDouble (inject_Z z) == inject_Z z)%Q.
Proof.
  intros [H0 H1]. unfold toDouble.
  pose proof (Qred_sign (inject_Z z)) as Hs.
  pose proof (Qred_correct (inject_Z z)) as E.
  destruct (Qnum (Qred (inject_Z z))).
  - now rewrite Hs.
  - apply roundPositive_integer; [exact E|].
    rewrite <- (Zlt_Qlt 0) in Hs. lia.
  - exfalso. rewrite <- (Zlt_Qlt _ 0) in Hs. lia.
Qed.

Lemma toDouble_between (x : Q) (a b : Z) :
  (0 <= a < 2 ^ 53)%Z -> (0 <= b < 2 ^ 53)%Z ->
  (inject_Z a <= x)%Q -> (x <= inject_Z b)%Q ->
  (inject_Z a <= toDouble x)%Q /\ (toDouble x <= inject_Z b)%Q.
Proof.
  intros Ha Hb H1 H2. split.
  - rewrite <- (toDouble_integer a Ha). now apply toDouble_monotone.
  - rewrite <- (toDouble_integer b Hb). now apply toDouble_monotone.
Qed.

Lemma toDouble_at_most (x : Q) (z : Z) :
  (0 <= z < 2 ^ 53)%Z -> (x <= inject_Z z)%Q -> (toDouble x <= inject_Z z)%Q.
Proof.
  intros Hz H. rewrite <- (toDouble_integer z Hz). now apply toDouble_monotone.
Qed.

Lemma toDouble_at_least (x : Q) (z : Z) :
  (0 <= z < 2 ^ 53)%Z -> (inject_Z z <= x)%Q -> (inject_Z z <= toDouble x)%Q.
Proof.
  intros Hz H. rewrite <- (toDouble_integer z Hz). now apply toDouble_monotone.
Qed.

(** ** A supported locale always yields a result *)

Lemma fallbackDictionary_tag (l : Locale) :
  fallbackDictionary (tag l) = Some (copyOf l).
Proof. destruct l; reflexivity. Qed.

Lemma analyze_supported (raw : jsstring) (l : Locale) :
  analyzeTranscriptFallback raw (tag l) = Normal (resultOf raw l).
Proof.
  unfold analyzeTranscriptFallback, synthesizeEvidence.
  rewrite fallbackDictionary_tag. reflexivity.
Qed.

(** ** Bounds of the two scores *)

Lemma lieProbabilityOf_bounds (raw : jsstring) :
  (5 <= lieProbabilityOf raw <= 96)%Z.
Proof.
  unfold lieProbabilityOf. generalize (round (baseScore raw)).
  intros z. lia.
Qed.

Lemma confidenceScoreOf_bounds (raw : jsstring) :
  (38 <= confidenceScoreOf raw <= 94)%Z.
Proof.
  unfold confidenceScoreOf. lia.
Qed.

(** C4: for every input string and supported locale the engine returns a
    result whose [lieProbability] lies in [5, 96] and whose
    [confidenceScore] lies in [38, 94]. *)
Theorem score_bounds (raw : jsstring) (l : Locale) :
  exists r,
    analyzeTranscriptFallback raw (tag l) = Normal r
    /\ (5 <= lieProbability r <= 96)%Z
    /\ (38 <= confidenceScore r <= 94)%Z.
Proof.
  exists (resultOf raw l). split; [apply analyze_supported|].
  split; [apply lieProbabilityOf_bounds | apply confidenceScoreOf_bounds].
Qed.

(** ** An unsupported locale *)

Lemma throws_without_entry (raw locale : jsstring) :
  fallbackDictionary locale = None ->
  analyzeTranscriptFallback raw locale = Throw TypeError.
Proof.
  intros H. unfold analyzeTranscriptFallback, synthesizeEvidence.
  rewrite H. reflexivity.
Qed.

(** C2: the engine is to return a result for every locale value, serving an
    unrecognized one with the ['ko'] copy.  On the empty text and the locale
    ['fr'] the cues and metrics are built from the ['ko'] copy, but
    [synthesizeEvidence] looks ['fr'] up again without the default and the
    call ends in a [TypeError]. *)
Theorem unsupported_locale_throws :
  analyzeTranscriptFallback (lit "") (lit "fr") = Throw TypeError.
Proof. apply throws_without_entry. reflexivity. Qed.

(** ** Empty and whitespace-only input *)

Lemma trimStart_whitespace (s : jsstring) :
  forallb isWhiteSpace s = true -> trimStart s = [].
Proof.
  induction s as [|c s IH]; simpl; [reflexivity|].
  intros H. apply andb_prop in H. destruct H as [Hc Hs].
  rewrite Hc. now apply IH.
Qed.

Lemma trim_whitespace (s : jsstring) :
  forallb isWhiteSpace s = true -> trim s = [].
Proof.
  intros H. unfold trim. now rewrite trimStart_whitespace.
Qed.

(** The result depends on [raw] through [trim raw] only. *)
Lemma resultOf_trim (raw raw' : jsstring) (l : Locale) :
  trim raw = trim raw' -> resultOf raw l = resultOf raw' l.
Proof.
  intros H.
  unfold resultOf, cuesOf, metricsOf, coveragePercent, hedgingRisk,
    pressureRisk, negationRisk, conflictRisk, lieProbabilityOf,
    confidenceScoreOf, baseScore, coverageFactor, stabilityPenalty,
    hedgingSignals, pressureSignals, highlightedSentences,
    contradictionCandidates, hedgingDensity, pressureDensity,
    negationDensity, density, hedgingHits, pressureHits, negationHits,
    sentences, words, lower, text.
  rewrite H. reflexivity.
Qed.

Lemma nonneg_ofNat (n : nat) : (0 <= ofNat n)%Q.
Proof.
  unfold ofNat, Qle. simpl. lia.
Qed.

Lemma ratio_nonneg (a b : nat) : (0 <= ofNat a / ofNat b)%Q.
Proof.
  unfold Qdiv.
  apply Qmult_le_0_compat; [apply nonneg_ofNat|].
  apply Qinv_le_0_compat, nonneg_ofNat.
Qed.

Lemma density_nonneg (raw : jsstring) (hits : nat) :
  (0 <= density raw hits)%Q.
Proof. unfold density, fdiv. apply toDouble_nonneg, ratio_nonneg. Qed.

Lemma fmul_nonneg (x c : Q) : (0 <= x)%Q -> (0 <= c)%Q -> (0 <= fmul x c)%Q.
Proof.
  intros Hx Hc. unfold fmul. now apply toDouble_nonneg, Qmult_le_0_compat.
Qed.

Lemma fadd_at_least (k : Z) (a b : Q) :
  (0 <= k < 2 ^ 53)%Z -> (inject_Z k <= a)%Q -> (0 <= b)%Q ->
  (inject_Z k <= fadd a b)%Q.
Proof.
  intros Hk Ha Hb. unfold fadd. rewrite <- (toDouble_integer k Hk).
  apply toDouble_monotone. lra.
Qed.

Lemma round_lower_bound (x : Q) (n : Z) :
  (inject_Z n <= x)%Q -> (n <= round x)%Z.
Proof.
  intros H. unfold round.
  rewrite <- (Qfloor_Z n). apply Qfloor_resp_le.
  rewrite <- (Qplus_0_r (inject_Z n)).
  apply Qplus_le_compat; [exact H | discriminate].
Qed.

Lemma Qle_plus_nonneg (x y a : Q) :
  (x <= y)%Q -> (0 <= a)%Q -> (x <= y + a)%Q.
Proof.
  intros Hxy Ha. apply Qle_trans with (x + 0)%Q.
  - rewrite Qplus_0_r. apply Qle_refl.
  - now apply Qplus_le_compat.
Qed.

Lemma Qmult_nonneg_const (x c : Q) :
  (0 <= x)%Q -> (0 <= c)%Q -> (0 <= x * c)%Q.
Proof. apply Qmult_le_0_compat. Qed.

Lemma base_sum_lower (a b c d : Q) :
  (0 <= a)%Q -> (0 <= b)%Q -> (0 <= c)%Q -> (0 <= d)%Q ->
  (42 <= 42 + a * 520 + b * 360 + c * 180 + d * 4)%Q.
Proof.
  intros Ha Hb Hc Hd.
  do 4 (apply Qle_plus_nonneg;
        [|apply Qmult_nonneg_const; [assumption | discriminate]]).
  apply Qle_refl.
Qed.

Lemma baseScore_lower_bound (raw : jsstring) : (42 <= baseScore raw)%Q.
Proof.
  unfold baseScore.
  do 4 (apply (fadd_at_least 42); [lia | |
        apply fmul_nonneg;
        [apply density_nonneg || apply nonneg_ofNat | discriminate]]).
  apply Qle_refl.
Qed.

Lemma clamp_keeps_42 (z : Z) : (42 <= z -> 42 <= Z.min 96 (Z.max 5 z))%Z.
Proof. lia. Qed.

Lemma lieProbabilityOf_at_least_42 (raw : jsstring) :
  (42 <= lieProbabilityOf raw)%Z.
Proof.
  unfold lieProbabilityOf. apply clamp_keeps_42.
  apply (round_lower_bound (baseScore raw) 42).
  apply baseScore_lower_bound.
Qed.

(** C3: on the empty string, and on any input made of whitespace only, the
    English result has [lieProbability = 42] and exactly one evidence entry,
    the English placeholder; and no input at all scores below 42, so the
    floor of 5 is never reached. *)
Theorem empty_input_result (raw : jsstring) :
  forallb isWhiteSpace raw = true ->
  (exists r,
     analyzeTranscriptFallback raw (tag en) = Normal r
     /\ lieProbability r = 42%Z
     /\ evidence r =
          [ {| quote :=
                 lit "Not enough material to generate defensible evidence quotes.";
               rationale :=
                 lit "Gather more utterances and rerun the profiler." |} ])
  /\ (forall raw' l,
        exists r,
          analyzeTranscriptFallback raw' (tag l) = Normal r
          /\ (42 <= lieProbability r)%Z).
Proof.
  intros Hws. split.
  - exists (resultOf raw en).
    split; [apply analyze_supported|].
    rewrite (resultOf_trim raw [] en)
      by (rewrite (trim_whitespace raw Hws); reflexivity).
    split; reflexivity.
  - intros raw' l. exists (resultOf raw' l).
    split; [apply analyze_supported | apply lieProbabilityOf_at_least_42].
Qed.

Lemma empty_input_result_witness :
  (exists r,
     analyzeTranscriptFallback (lit "") (tag en) = Normal r
     /\ lieProbability r = 42%Z
     /\ evidence r =
          [ {| quote :=
                 lit "Not enough material to generate defensible evidence quotes.";
               rationale :=
                 lit "Gather more utterances and rerun the profiler." |} ])
  /\ (forall raw' l,
        exists r,
          analyzeTranscriptFallback raw' (tag l) = Normal r
          /\ (42 <= lieProbability r)%Z).
Proof. apply (empty_input_result (lit "")). reflexivity. Defined.

(** ** Word count: splitting against counting token starts *)

Ltac bool_to_prop :=
  repeat (rewrite ?orb_true_iff, ?andb_true_iff, ?orb_false_iff,
            ?andb_false_iff, ?N.leb_le, ?N.leb_gt, ?N.eqb_eq, ?N.eqb_neq in *).

Lemma lowerUnit_whitespace (c : N) :
  isWhiteSpace c = true -> lowerUnit c = [c].
Proof.
  unfold isWhiteSpace, lowerUnit. intros H.
  destruct ((65 <=? c) && (c <=? 90))%N eqn:E1.
  - exfalso. bool_to_prop. lia.
  - destruct (c =? 8490)%N eqn:E2; [exfalso; bool_to_prop; lia|].
    destruct (c =? 304)%N eqn:E3; [exfalso; bool_to_prop; lia|].
    reflexivity.
Qed.

Lemma lowerUnit_token (c : N) :
  isWhiteSpace c = false ->
  lowerUnit c <> []
  /\ forallb (fun d => negb (isWhiteSpace d)) (lowerUnit c) = true.
Proof.
  intros H. unfold lowerUnit.
  destruct ((65 <=? c) && (c <=? 90))%N eqn:E1.
  - split; [discriminate|]. simpl. rewrite andb_true_r.
    apply negb_true_iff. unfold isWhiteSpace. bool_to_prop. lia.
  - destruct (c =? 8490)%N; [split; [discriminate | reflexivity]|].
    destruct (c =? 304)%N; [split; [discriminate | reflexivity]|].
    split; [discriminate|]. simpl. now rewrite H.
Qed.

Lemma tokenCount_block (b : bool) (blk s : jsstring) :
  blk <> [] ->
  forallb (fun d => negb (isWhiteSpace d)) blk = true ->
  tokenCount b (blk ++ s) = (if b then 0 else 1) + tokenCount true s.
Proof.
  revert b. induction blk as [|d blk IH]; intros b Hne Hall; [congruence|].
  simpl in Hall. apply andb_prop in Hall. destruct Hall as [Hd Hblk].
  apply negb_true_iff in Hd. simpl. rewrite Hd.
  destruct blk as [|d' blk']; [reflexivity|].
  rewrite IH by (congruence || exact Hblk). reflexivity.
Qed.

Lemma tokenCount_toLowerCase (b : bool) (s : jsstring) :
  tokenCount b (toLowerCase s) = tokenCount b s.
Proof.
  revert b. induction s as [|c s IH]; intros b; [reflexivity|].
  unfold toLowerCase in *. simpl.
  destruct (isWhiteSpace c) eqn:E.
  - rewrite (lowerUnit_whitespace c E). simpl. rewrite E. apply IH.
  - destruct (lowerUnit_token c E) as [Hne Hall].
    rewrite tokenCount_block by assumption. now rewrite IH.
Qed.

Lemma splitWs_length (s acc : jsstring) (inSep : bool) :
  (inSep = true -> acc = []) ->
  List.length (filter truthy (splitWs inSep acc s))
  = (if truthy acc then 1 else 0) + tokenCount (truthy acc) s.
Proof.
  revert acc inSep. induction s as [|c s IH]; intros acc inSep Hinv; simpl.
  - assert (Ht : truthy (rev acc) = truthy acc).
    { destruct acc as [|a acc]; [reflexivity|]. simpl.
      destruct (rev acc); reflexivity. }
    rewrite Ht. destruct (truthy acc); reflexivity.
  - destruct (isWhiteSpace c) eqn:E.
    + destruct inSep.
      * rewrite (Hinv eq_refl). rewrite IH by reflexivity. reflexivity.
      * simpl.
        assert (Ht : truthy (rev acc) = truthy acc).
        { destruct acc as [|a acc]; [reflexivity|]. simpl.
          destruct (rev acc); reflexivity. }
        rewrite Ht. destruct (truthy acc); simpl;
          rewrite IH by reflexivity; reflexivity.
    + rewrite IH by discriminate. simpl.
      destruct (truthy acc); reflexivity.
Qed.

(** The length of [words] is the number of whitespace-separated tokens of
    the trimmed text. *)
Lemma words_length (raw : jsstring) :
  List.length (words raw) = specWordCount raw.
Proof.
  unfold words, lower, text, specWordCount.
  rewrite splitWs_length by discriminate. simpl.
  apply tokenCount_toLowerCase.
Qed.

(** ** Counting matches: the global scan against counting positions *)

Lemma isWordChar_canonicalize (c : N) :
  isWordChar (canonicalize c) = isWordChar c.
Proof.
  unfold canonicalize.
  destruct ((97 <=? c) && (c <=? 122))%N eqn:E; [|reflexivity].
  unfold isWordChar. rewrite E. simpl.
  apply andb_prop in E. destruct E as [E1 E2].
  apply N.leb_le in E1. apply N.leb_le in E2.
  assert (H1 : (65 <=? c - 32)%N = true) by (apply N.leb_le; lia).
  assert (H2 : (c - 32 <=? 90)%N = true) by (apply N.leb_le; lia).
  rewrite H1, H2. simpl. now rewrite orb_true_r.
Qed.

Lemma unitMatches_word (p c : N) :
  unitMatches p c = true -> isWordChar c = isWordChar p.
Proof.
  unfold unitMatches. intros H. apply N.eqb_eq in H.
  rewrite <- (isWordChar_canonicalize c), <- (isWordChar_canonicalize p).
  now rewrite H.
Qed.

Lemma unitMatches_same (p0 p c : N) :
  unitMatches p c = true -> unitMatches p0 c = unitMatches p0 p.
Proof.
  unfold unitMatches. intros H. apply N.eqb_eq in H. now rewrite H.
Qed.

Lemma safeTail_noMatch (p0 : N) (kwrest tail : jsstring) :
  forall (pprev cprev : N) (s : jsstring),
    safeTail p0 pprev tail = true ->
    isWordChar cprev = isWordChar pprev ->
    matchLiteral tail (Some cprev) s = true ->
    noMatchPrefix (p0 :: kwrest) (List.length tail) (Some cprev) s = true.
Proof.
  induction tail as [|p tail IH]; intros pprev cprev s Hsafe Hw Hm;
    [reflexivity|].
  destruct s as [|c s]; [discriminate|].
  simpl in Hsafe, Hm.
  apply andb_prop in Hsafe. destruct Hsafe as [Hhere Hsafe].
  apply andb_prop in Hm. destruct Hm as [Hpc Hm].
  cbn [List.length noMatchPrefix].
  rewrite (IH p c s Hsafe (unitMatches_word _ _ Hpc) Hm), andb_true_r.
  unfold matchAt. cbn [wordBefore wordAt matchLiteral].
  rewrite Hw, (unitMatches_word _ _ Hpc), (unitMatches_same p0 _ _ Hpc).
  apply negb_true_iff in Hhere.
  destruct (unitMatches p0 p), (xorb (isWordChar pprev) (isWordChar p));
    simpl in *; congruence.
Qed.

Lemma countMatches_standalone (kw : jsstring) :
  overlapFree kw = true ->
  forall (s : jsstring) (k : nat) (prev : option N),
    noMatchPrefix kw k prev s = true ->
    countMatches kw k prev s = standaloneCount kw prev s.
Proof.
  intros Hfree. destruct kw as [|p0 tail]; [discriminate|].
  simpl in Hfree.
  induction s as [|c s IH]; intros k prev Hno; [reflexivity|].
  cbn [countMatches standaloneCount].
  destruct k as [|k].
  - destruct (matchAt (p0 :: tail) prev (c :: s)) eqn:E.
    + cbn [List.length Nat.pred]. rewrite IH; [reflexivity|].
      unfold matchAt in E. apply andb_prop in E. destruct E as [_ E].
      cbn [matchLiteral] in E. apply andb_prop in E. destruct E as [Ec E].
      apply safeTail_noMatch with (pprev := p0); auto using unitMatches_word.
    + now rewrite IH.
  - cbn [noMatchPrefix] in Hno. apply andb_prop in Hno.
    destruct Hno as [Hhere Hno]. apply negb_true_iff in Hhere.
    rewrite Hhere. now rewrite IH.
Qed.

Lemma matchCount_standalone (text kw : jsstring) :
  overlapFree kw = true ->
  matchCount text kw = standaloneCount kw None text.
Proof.
  intros H. unfold matchCount.
  apply countMatches_standalone; [exact H|].
  destruct text; reflexivity.
Qed.

Lemma fold_left_sum {A} (f : A -> nat) (l : list A) (a : nat) :
  fold_left (fun total x => total + f x) l a = a + list_sum (map f l).
Proof.
  revert a. induction l as [|x l IH]; intros a; simpl; [lia|].
  rewrite IH. lia.
Qed.

Lemma countKeywordHits_standalone (text : jsstring)
    (keywords : list jsstring) :
  forallb overlapFree keywords = true ->
  countKeywordHits text keywords = totalStandalone text keywords.
Proof.
  intros H. unfold countKeywordHits, totalStandalone.
  rewrite fold_left_sum. simpl. f_equal.
  induction keywords as [|kw kws IH]; [reflexivity|].
  simpl in H. apply andb_prop in H. destruct H as [Hkw Hkws].
  simpl. now rewrite matchCount_standalone, IH.
Qed.

Lemma keywords_overlapFree :
  forallb overlapFree hedgingKeywords = true
  /\ forallb overlapFree pressureKeywords = true
  /\ forallb overlapFree negationKeywords = true.
Proof. repeat split; reflexivity. Qed.

(** ** Word-boundary matching: matches are the occurrences that stand alone *)

Lemma last_cons {A} (x d : A) (l : list A) : last (x :: l) d = last l x.
Proof.
  revert x d. induction l as [|y l IH]; intros x d; [reflexivity|].
  change (last (x :: y :: l) d) with (last (y :: l) d).
  rewrite (IH y d). symmetry. apply (IH y x).
Qed.

Lemma matchLiteral_sound (pat : jsstring) :
  forall (prev : option N) (s : jsstring),
    matchLiteral pat prev s = true ->
    exists occ post,
      s = occ ++ post
      /\ map canonicalize occ = map canonicalize pat
      /\ xorb (wordBefore (last (map Some occ) prev)) (wordAt post) = true.
Proof.
  induction pat as [|p pat IH]; intros prev s H.
  - exists [], s. repeat split. exact H.
  - destruct s as [|c s]; [discriminate|].
    simpl in H. apply andb_prop in H. destruct H as [Hc H].
    destruct (IH (Some c) s H) as [occ [post [Hs [Hocc Hb]]]].
    exists (c :: occ), post. split; [now rewrite Hs|]. split.
    + simpl. unfold unitMatches in Hc. apply N.eqb_eq in Hc.
      now rewrite Hc, Hocc.
    + cbn [map]. now rewrite last_cons.
Qed.

Lemma matchLiteral_complete (pat : jsstring) :
  forall (prev : option N) (occ post : jsstring),
    map canonicalize occ = map canonicalize pat ->
    xorb (wordBefore (last (map Some occ) prev)) (wordAt post) = true ->
    matchLiteral pat prev (occ ++ post) = true.
Proof.
  induction pat as [|p pat IH]; intros prev occ post Hocc Hb.
  - destruct occ; [exact Hb | discriminate].
  - destruct occ as [|c occ]; [discriminate|].
    simpl in Hocc. injection Hocc as Hc Hocc.
    simpl. unfold unitMatches. rewrite Hc, N.eqb_refl. simpl.
    apply IH; [exact Hocc|].
    cbn [map] in Hb. now rewrite last_cons in Hb.
Qed.

Lemma standaloneCount_sound (kw : jsstring) :
  forall (s : jsstring) (prev : option N),
    standaloneCount kw prev s <> 0 ->
    exists pre occ post,
      s = pre ++ occ ++ post
      /\ map canonicalize occ = map canonicalize kw
      /\ xorb (wordBefore (last (map Some pre) prev)) (wordAt (occ ++ post))
         = true
      /\ xorb (wordBefore (last (map Some (pre ++ occ)) prev)) (wordAt post)
         = true.
Proof.
  induction s as [|c s IH]; intros prev H; [now elim H|].
  cbn [standaloneCount] in H.
  destruct (matchAt kw prev (c :: s)) eqn:E.
  - unfold matchAt in E. apply andb_prop in E. destruct E as [Hb E].
    destruct (matchLiteral_sound _ _ _ E) as [occ [post [Hs [Hocc Hb']]]].
    exists [], occ, post. simpl. rewrite <- Hs. auto.
  - destruct (IH (Some c)) as [pre [occ [post [Hs [Hocc [Hb Hb']]]]]];
      [exact H|].
    exists (c :: pre), occ, post. split; [now rewrite Hs|].
    split; [exact Hocc|].
    cbn [map app]. rewrite !last_cons. auto.
Qed.

Lemma standaloneCount_complete (kw : jsstring) :
  kw <> [] ->
  forall (pre occ post : jsstring) (prev : option N),
    map canonicalize occ = map canonicalize kw ->
    xorb (wordBefore (last (map Some pre) prev)) (wordAt (occ ++ post))
    = true ->
    xorb (wordBefore (last (map Some (pre ++ occ)) prev)) (wordAt post)
    = true ->
    standaloneCount kw prev (pre ++ occ ++ post) <> 0.
Proof.
  intros Hne. induction pre as [|c pre IH]; intros occ post prev Hocc Hb Hb'.
  - simpl in *. destruct occ as [|c occ].
    + destruct kw; [congruence | discriminate].
    + cbn [app standaloneCount].
      assert (E : matchAt kw prev (c :: occ ++ post) = true).
      { unfold matchAt. change (c :: occ ++ post) with ((c :: occ) ++ post).
        rewrite Hb. cbn [andb]. now apply matchLiteral_complete. }
      rewrite E. discriminate.
  - cbn [app standaloneCount].
    cbn [map app] in Hb, Hb'. rewrite last_cons in Hb, Hb'.
    specialize (IH occ post (Some c) Hocc Hb Hb'). lia.
Qed.

Lemma standsAlone_iff (kw s : jsstring) :
  kw <> [] -> (standsAlone kw s <-> standaloneCount kw None s <> 0).
Proof.
  intros Hne. split.
  - intros [pre [occ [post [Hs [Hocc [Hb Hb']]]]]]. subst s.
    now apply standaloneCount_complete.
  - intros H. apply standaloneCount_sound in H. exact H.
Qed.

Lemma overlapFree_nonempty (kw : jsstring) : overlapFree kw = true -> kw <> [].
Proof. destruct kw; [discriminate | discriminate]. Qed.

(** A keyword that no occurrence of itself can overlap has no match exactly
    when it does not stand alone anywhere in the text. *)
Lemma matchCount_zero_iff (text kw : jsstring) :
  overlapFree kw = true ->
  (matchCount text kw = 0 <-> ~ standsAlone kw text).
Proof.
  intros H. rewrite matchCount_standalone by exact H.
  rewrite (standsAlone_iff kw text (overlapFree_nonempty kw H)).
  destruct (standaloneCount kw None text); split; intros H0; lia.
Qed.

Lemma negationKeywords_overlapFree (kw : jsstring) :
  In kw negationKeywords -> overlapFree kw = true.
Proof.
  destruct keywords_overlapFree as [_ [_ H]].
  rewrite forallb_forall in H. apply H.
Qed.

Lemma countKeywordHits_zero (text : jsstring) (keywords : list jsstring) :
  (forall kw, In kw keywords -> matchCount text kw = 0) ->
  countKeywordHits text keywords = 0.
Proof.
  intros H. unfold countKeywordHits. rewrite fold_left_sum. simpl.
  induction keywords as [|kw kws IH]; [reflexivity|].
  simpl. rewrite (H kw) by (now left). apply IH.
  intros kw' Hin. apply H. now right.
Qed.

(** C9: keyword matching is word-boundary based.  A text in which "not"
    does not stand alone as a word (as in "notable") gives no hit for the
    negation keyword "not"; when no negation keyword stands alone in it, the
    negation density is 0. *)
Theorem word_boundary_matching (raw : jsstring) :
  (~ standsAlone (lit "not") (lower raw) ->
   matchCount (lower raw) (lit "not") = 0)
  /\ ((forall kw, In kw negationKeywords -> ~ standsAlone kw (lower raw)) ->
      negationHits raw = 0 /\ (negationDensity raw == 0)%Q).
Proof.
  split.
  - intros H. now apply matchCount_zero_iff.
  - intros H.
    assert (Hz : negationHits raw = 0).
    { apply countKeywordHits_zero. intros kw Hin.
      apply matchCount_zero_iff; auto using negationKeywords_overlapFree. }
    split; [exact Hz|].
    unfold negationDensity, density. rewrite Hz. reflexivity.
Qed.

Lemma no_negation_in_notable (kw : jsstring) :
  In kw negationKeywords ->
  ~ standsAlone kw (lower (lit "A notable result, nothing else."))%string.
Proof.
  intros Hin. apply matchCount_zero_iff.
  - now apply negationKeywords_overlapFree.
  - simpl in Hin.
    repeat (destruct Hin as [Hin | Hin]; [subst kw; reflexivity|]).
    contradiction.
Qed.

Lemma word_boundary_matching_witness :
  includes (lower (lit "A notable result, nothing else.")) (lit "not") = true
  /\ matchCount (lower (lit "A notable result, nothing else.")) (lit "not")
     = 0
  /\ negationHits (lit "A notable result, nothing else.") = 0
  /\ (negationDensity (lit "A notable result, nothing else.") == 0)%Q.
Proof.
  split; [reflexivity|].
  destruct (word_boundary_matching (lit "A notable result, nothing else."))
    as [H1 H2].
  split.
  - apply H1, no_negation_in_notable. simpl. auto.
  - apply H2, no_negation_in_notable.
Defined.

(** ** Contradiction detection *)

Lemma startsWith_iff (sub s : jsstring) :
  startsWith s sub = true <-> exists post, s = sub ++ post.
Proof.
  revert s. induction sub as [|p sub IH]; intros s; simpl.
  - split; [intros _; now exists s | destruct s; reflexivity].
  - destruct s as [|c s].
    + split; [discriminate | intros [post H]; discriminate].
    + cbn [startsWith]. rewrite andb_true_iff, N.eqb_eq, IH. split.
      * intros [Hp [post Hs]]. exists post. now rewrite Hp, Hs.
      * intros [post H]. injection H as Hc Hs. split; [auto | now exists post].
Qed.

Lemma includes_iff (sub s : jsstring) :
  includes s sub = true <-> exists pre post, s = pre ++ sub ++ post.
Proof.
  induction s as [|c s IH].
  - cbn [includes]. rewrite orb_false_r, startsWith_iff. split.
    + intros [post H]. now exists [], post.
    + intros [pre [post H]]. destruct pre; [now exists post|discriminate].
  - cbn [includes]. rewrite orb_true_iff, startsWith_iff, IH. split.
    + intros [[post H] | [pre [post H]]].
      * now exists [], post.
      * exists (c :: pre), post. now rewrite H.
    + intros [pre [post H]]. destruct pre as [|c' pre].
      * left. now exists post.
      * right. injection H as _ H. now exists pre, post.
Qed.

Lemma isConflicting_iff (sentence : jsstring) :
  isConflicting sentence = true <->
  (exists joiner pre post,
      In joiner contradictionJoiners
      /\ toLowerCase sentence = pre ++ (lit " " ++ joiner ++ lit " ") ++ post)
  /\ (exists marker pre post,
        In marker codeMarkers
        /\ toLowerCase sentence = pre ++ marker ++ post).
Proof.
  unfold isConflicting. cbv zeta.
  rewrite andb_true_iff, existsb_exists, !orb_true_iff.
  split.
  - intros [[joiner [Hin Hj]] Hm]. split.
    + apply includes_iff in Hj. destruct Hj as [pre [post Hj]].
      now exists joiner, pre, post.
    + assert (Hm' : exists marker, In marker codeMarkers
                      /\ includes (toLowerCase sentence) marker = true).
      { unfold codeMarkers. simpl.
        destruct Hm as [[[Hm | Hm] | Hm] | Hm]; eauto 7. }
      destruct Hm' as [marker [Hin' Hm']].
      apply includes_iff in Hm'. destruct Hm' as [pre [post Hm']].
      now exists marker, pre, post.
  - intros [[joiner [pre [post [Hin Hj]]]] [marker [pre' [post' [Hin' Hm]]]]].
    split.
    + exists joiner. split; [exact Hin|]. apply includes_iff. eauto.
    + assert (Hinc : includes (toLowerCase sentence) marker = true)
        by (apply includes_iff; eauto).
      unfold codeMarkers in Hin'. simpl in Hin'.
      destruct Hin' as [E | [E | [E | [E | []]]]]; subst marker; auto.
Qed.

Lemma cuesOf_shape (raw : jsstring) (copy : FallbackCopy) :
  let n := List.length (contradictionCandidates raw) in
  cuesOf raw copy
  = firstn 3 (cuesOf raw copy)
    ++ (if 0 <? n then [conflictCue copy n] else [])
  /\ List.length (firstn 3 (cuesOf raw copy)) = 3.
Proof.
  unfold cuesOf, conflictCue, conflictRisk. cbv zeta.
  destruct (0 <? List.length (contradictionCandidates raw)); split;
    reflexivity.
Qed.

(** C5 as the code has it: a sentence is a conflicting clause exactly when
    its lower-cased form contains one of the contrast conjunctions between
    two spaces and contains one of "i didn't", "i did", "never", "no"; the
    first three such sentences are retained, and a non-zero count adds the
    fourth cue, Critical above one and Elevated otherwise.  The sentence
    "I didn't take it, but I did return later." counts once and gives the
    conflict cue with value "1" and risk Elevated. *)
Theorem conflicting_clause_rule :
  (forall sentence,
     isConflicting sentence = true <->
     (exists joiner pre post,
         In joiner contradictionJoiners
         /\ toLowerCase sentence
            = pre ++ (lit " " ++ joiner ++ lit " ") ++ post)
     /\ (exists marker pre post,
           In marker codeMarkers
           /\ toLowerCase sentence = pre ++ marker ++ post))
  /\ (forall raw l,
        exists r,
          analyzeTranscriptFallback raw (tag l) = Normal r
          /\ contradictionCandidates raw
             = firstn 3 (filter isConflicting (sentences raw))
          /\ List.length (contradictionCandidates raw) <= 3
          /\ (let n := List.length (contradictionCandidates raw) in
              cues r = firstn 3 (cues r)
                       ++ (if 0 <? n then [conflictCue (copyOf l) n] else [])
              /\ List.length (firstn 3 (cues r)) = 3))
  /\ (forall l,
        exists r,
          analyzeTranscriptFallback
            (lit "I didn't take it, but I did return later.") (tag l)
          = Normal r
          /\ contradictionCandidates
               (lit "I didn't take it, but I did return later.")
             = [lit "I didn't take it, but I did return later."]
          /\ nth_error (cues r) 3
             = Some {| cueLabel := conflictLabel (copyOf l);
                       cueValue := lit "1";
                       cueRisk := Elevated;
                       cueDetail := conflictDetail (copyOf l) |}).
Proof.
  split; [exact isConflicting_iff|]. split.
  - intros raw l. exists (resultOf raw l).
    split; [apply analyze_supported|]. split; [reflexivity|]. split.
    + unfold contradictionCandidates. rewrite length_firstn. lia.
    + apply cuesOf_shape.
  - intros l. exists (resultOf (lit "I didn't take it, but I did return later.") l).
    split; [apply analyze_supported|]. split; [reflexivity|].
    destruct l; reflexivity.
Qed.

(** C5 as stated fails: "He did it, but she left." has the conjunction
    "but" standing alone and contains the marker "did", yet the code does
    not count it, because it looks for "i did". *)
Lemma conflicting_clause_counterexample :
  exists r,
    analyzeTranscriptFallback (lit "He did it, but she left.") (tag en)
    = Normal r
    /\ sentences (lit "He did it, but she left.")
       = [lit "He did it, but she left."]
    /\ specConflicting (lit "He did it, but she left.") = true
    /\ isConflicting (lit "He did it, but she left.") = false
    /\ contradictionCandidates (lit "He did it, but she left.") = []
    /\ List.length (cues r) = 3.
Proof.
  exists (resultOf (lit "He did it, but she left.") en).
  split; [apply analyze_supported|]. repeat split; reflexivity.
Qed.

(** ** The score formulas *)

Lemma matchLiteral_standsAlone (kw : jsstring) :
  forall (prev : option N) (s : jsstring),
    matchLiteral kw prev s
    = eqUnits (map canonicalize (firstn (List.length kw) s))
              (map canonicalize kw)
      && xorb (wordBefore (last (map Some (firstn (List.length kw) s)) prev))
              (wordAt (skipn (List.length kw) s)).
Proof.
  induction kw as [|p kw IH]; intros prev s; [reflexivity|].
  destruct s as [|c s]; [reflexivity|].
  cbn [matchLiteral List.length firstn skipn map eqUnits].
  rewrite IH, last_cons. unfold unitMatches.
  rewrite (N.eqb_sym (canonicalize p)). apply andb_assoc.
Qed.

Lemma matchAt_standsAloneAt (kw : jsstring) (prev : option N)
    (s : jsstring) :
  matchAt kw prev s = standsAloneAt kw prev s.
Proof.
  unfold matchAt, standsAloneAt. rewrite matchLiteral_standsAlone.
  cbv zeta.
  destruct (xorb (wordBefore prev) (wordAt s)),
    (eqUnits (map canonicalize (firstn (List.length kw) s))
             (map canonicalize kw)); reflexivity.
Qed.

Lemma boundaryCount_standalone (kw : jsstring) :
  forall (s : jsstring) (prev : option N),
    boundaryCount kw prev s = standaloneCount kw prev s.
Proof.
  induction s as [|c s IH]; intros prev; [reflexivity|].
  cbn [boundaryCount standaloneCount].
  now rewrite IH, matchAt_standsAloneAt.
Qed.

Lemma specHits_spec (raw : jsstring) (keywords : list jsstring) :
  forallb overlapFree keywords = true ->
  countKeywordHits (lower raw) keywords = specHits raw keywords.
Proof.
  intros H. rewrite countKeywordHits_standalone by exact H.
  unfold totalStandalone, specHits, lower, text. f_equal.
  apply map_ext. intros kw. symmetry. apply boundaryCount_standalone.
Qed.

Lemma density_spec (raw : jsstring) (keywords : list jsstring) :
  forallb overlapFree keywords = true ->
  density raw (countKeywordHits (lower raw) keywords)
  = specDensity raw keywords.
Proof.
  intros H. unfold density, specDensity.
  now rewrite specHits_spec, words_length.
Qed.

Lemma includes_occursIn (sub : jsstring) :
  forall s : jsstring, includes s sub = occursIn sub s.
Proof.
  unfold occursIn.
  induction s as [|c s IH]; cbn [includes occurrences];
    destruct (startsWith _ sub); try reflexivity.
  rewrite IH. reflexivity.
Qed.

Lemma existsb_pointwise {A} (f g : A -> bool) (l : list A) :
  (forall x, f x = g x) -> existsb f l = existsb g l.
Proof.
  intros H. induction l as [|x l IH]; [reflexivity|].
  simpl. now rewrite H, IH.
Qed.

Lemma isConflicting_conflictingSentence (sentence : jsstring) :
  isConflicting sentence = conflictingSentence sentence.
Proof.
  unfold isConflicting, conflictingSentence. cbv zeta.
  rewrite !includes_occursIn. f_equal.
  - apply existsb_pointwise. intros joiner. apply includes_occursIn.
  - unfold codeMarkers. cbn [existsb].
    now rewrite orb_false_r, !orb_assoc.
Qed.

Lemma contradictionCandidates_length (raw : jsstring) :
  List.length (contradictionCandidates raw) = specContradictionCount raw.
Proof.
  unfold contradictionCandidates, specContradictionCount.
  rewrite length_firstn. f_equal. f_equal.
  apply filter_ext. intros s. apply isConflicting_conflictingSentence.
Qed.

Lemma clamp_min_max (x : Z) : Z.min 96 (Z.max 5 x) = clamp x 5 96.
Proof. unfold clamp. lia. Qed.

(** C1 (amended): for every input string and supported locale the returned
    [lieProbability] and [confidenceScore] are the clamped, rounded values
    of the two score formulas evaluated in double-precision arithmetic, each
    operation rounded, in the order in which the formulas are written.  The
    word count is the number of whitespace-separated tokens of the trimmed
    text, each density is the number of positions of the lower-cased text at
    which a keyword of the list stands between two word boundaries, divided
    by [max(wordCount, 1)], and the contradiction count is the number of
    sentences that contain a contrast conjunction between two spaces and one
    of the markers, at most 3. *)
Theorem score_formulas (raw : jsstring) (l : Locale) :
  exists r,
    analyzeTranscriptFallback raw (tag l) = Normal r
    /\ lieProbability r = specLieProbability raw
    /\ confidenceScore r = specConfidenceScore raw
    /\ specContradictionCount raw <= 3.
Proof.
  destruct keywords_overlapFree as [Hh [Hp Hn]].
  exists (resultOf raw l). split; [apply analyze_supported|].
  split; [|split].
  - cbn [resultOf lieProbability].
    unfold lieProbabilityOf, specLieProbability, baseScore,
      hedgingDensity, pressureDensity, negationDensity,
      hedgingHits, pressureHits, negationHits.
    rewrite !density_spec by assumption.
    rewrite contradictionCandidates_length. apply clamp_min_max.
  - cbn [resultOf confidenceScore].
    unfold confidenceScoreOf, specConfidenceScore, coverageFactor,
      stabilityPenalty, hedgingDensity, pressureDensity,
      hedgingHits, pressureHits.
    rewrite !density_spec by assumption.
    rewrite words_length. unfold clamp. reflexivity.
  - unfold specContradictionCount. lia.
Qed.

(** C1 as stated fails: read over the rationals, the formulas give 90 for a
    56-word text with 2 hedging, 4 pressure and 1 negation hits, where the
    code returns 89 (the double sum is just below 89.5), and they give a
    confidence of 52 for a 15-word text with 5 hedging and 6 pressure hits,
    where the code returns 51. *)
Lemma score_formulas_counterexample :
  (exists r,
     analyzeTranscriptFallback
       (lit "maybe perhaps honestly truth swear always not "
        ++ repeatText (lit "a ") 49) (tag en) = Normal r
     /\ specWordCount (lit "maybe perhaps honestly truth swear always not "
                       ++ repeatText (lit "a ") 49) = 56
     /\ lieProbability r = 89%Z
     /\ exactLieProbability
          (lit "maybe perhaps honestly truth swear always not "
           ++ repeatText (lit "a ") 49) = 90%Z)
  /\ (exists r,
        analyzeTranscriptFallback
          (lit "maybe perhaps possibly might guess honestly truth swear always promise definitely a a a a")
          (tag en) = Normal r
        /\ specWordCount
             (lit "maybe perhaps possibly might guess honestly truth swear always promise definitely a a a a")
           = 15
        /\ confidenceScore r = 51%Z
        /\ exactConfidenceScore
             (lit "maybe perhaps possibly might guess honestly truth swear always promise definitely a a a a")
           = 52%Z).
Proof.
  split.
  - exists (resultOf (lit "maybe perhaps honestly truth swear always not "
                      ++ repeatText (lit "a ") 49) en).
    split; [apply analyze_supported|].
    repeat split; vm_compute; reflexivity.
  - exists (resultOf
              (lit "maybe perhaps possibly might guess honestly truth swear always promise definitely a a a a")
              en).
    split; [apply analyze_supported|].
    repeat split; vm_compute; reflexivity.
Qed.

(** ** The stable descending sort *)

Section SortDesc.

Context {A : Type} (key : A -> nat).

Lemma insertDesc_perm (x : A) (l : list A) :
  Permutation (insertDesc key x l) (x :: l).
Proof.
  induction l as [|y l IH]; simpl; [reflexivity|].
  destruct (key x <? key y); [|reflexivity].
  rewrite IH. apply perm_swap.
Qed.

Lemma sortDesc_perm (l : list A) : Permutation (sortDesc key l) l.
Proof.
  induction l as [|x l IH]; simpl; [reflexivity|].
  rewrite insertDesc_perm. now constructor.
Qed.

Lemma insertDesc_sorted (x : A) (l : list A) :
  StronglySorted (fun a b => key b <= key a) l ->
  StronglySorted (fun a b => key b <= key a) (insertDesc key x l).
Proof.
  induction l as [|y l IH]; intros Hs; simpl.
  - constructor; constructor.
  - inversion Hs as [|? ? Hl Hy]; subst.
    destruct (key x <? key y) eqn:E.
    + apply Nat.ltb_lt in E. constructor; [now apply IH|].
      rewrite (insertDesc_perm x l). constructor; [lia | exact Hy].
    + apply Nat.ltb_ge in E. constructor; [exact Hs|].
      constructor; [exact E|].
      rewrite Forall_forall in *. intros z Hz. specialize (Hy z Hz). lia.
Qed.

Lemma sortDesc_sorted (l : list A) :
  StronglySorted (fun a b => key b <= key a) (sortDesc key l).
Proof.
  induction l as [|x l IH]; simpl; [constructor|].
  now apply insertDesc_sorted.
Qed.

Lemma insertDesc_stable (k : nat) (x : A) (l : list A) :
  filter (fun e => key e =? k) (insertDesc key x l)
  = filter (fun e => key e =? k) (x :: l).
Proof.
  induction l as [|y l IH]; [reflexivity|].
  cbn [insertDesc]. destruct (key x <? key y) eqn:E; [|reflexivity].
  apply Nat.ltb_lt in E. cbn [filter] in *. rewrite IH.
  destruct (key y =? k) eqn:Ey, (key x =? k) eqn:Ex; try reflexivity.
  apply Nat.eqb_eq in Ey, Ex. lia.
Qed.

(** Entries of equal key keep the order they had before the sort. *)
Lemma sortDesc_stable (k : nat) (l : list A) :
  filter (fun e => key e =? k) (sortDesc key l)
  = filter (fun e => key e =? k) l.
Proof.
  induction l as [|x l IH]; [reflexivity|].
  cbn [sortDesc fold_right]. fold (sortDesc key l).
  rewrite insertDesc_stable. cbn [filter]. now rewrite IH.
Qed.

End SortDesc.

(** ** Sentences are pieces of the transcript *)

Lemma isSubstring_refl (s : jsstring) : isSubstring s s.
Proof. exists [], []. now rewrite app_nil_r. Qed.

Lemma isSubstring_trans (a b c : jsstring) :
  isSubstring a b -> isSubstring b c -> isSubstring a c.
Proof.
  intros [p1 [q1 H1]] [p2 [q2 H2]]. exists (p2 ++ p1), (q1 ++ q2).
  rewrite H2, H1. now rewrite !app_assoc.
Qed.

Lemma trimStart_substring (s : jsstring) : isSubstring (trimStart s) s.
Proof.
  induction s as [|c s IH]; simpl; [apply isSubstring_refl|].
  destruct (isWhiteSpace c); [|apply isSubstring_refl].
  destruct IH as [pre [post H]]. exists (c :: pre), post. now rewrite H at 1.
Qed.

Lemma trimEnd_prefix (s : jsstring) : exists post, s = trimEnd s ++ post.
Proof.
  induction s as [|c s IH]; [now exists []|].
  unfold trimEnd in *. cbn [fold_right].
  destruct (fold_right _ [] s) as [|d r] eqn:E.
  - destruct (isWhiteSpace c); [now exists (c :: s) | now exists s].
  - destruct IH as [post H]. exists post. now rewrite H at 1.
Qed.

Lemma trimEnd_substring (s : jsstring) : isSubstring (trimEnd s) s.
Proof.
  destruct (trimEnd_prefix s) as [post H]. now exists [], post.
Qed.

Lemma trim_substring (s : jsstring) : isSubstring (trim s) s.
Proof.
  unfold trim.
  apply isSubstring_trans with (trimStart s);
    [apply trimEnd_substring | apply trimStart_substring].
Qed.

Lemma splitSentences_substring (s : jsstring) :
  forall (inSep afterTerm : bool) (acc seg : jsstring),
    (inSep = true -> acc = []) ->
    In seg (splitSentences inSep afterTerm acc s) ->
    isSubstring seg (rev acc ++ s).
Proof.
  induction s as [|c s IH]; intros inSep afterTerm acc seg Hinv Hin.
  - simpl in Hin. destruct Hin as [<- | []].
    rewrite app_nil_r. apply isSubstring_refl.
  - assert (Hpush : forall b, In seg (splitSentences false b (c :: acc) s) ->
                      isSubstring seg (rev acc ++ c :: s)).
    { intros b Hb. apply IH in Hb; [|discriminate].
      simpl in Hb. now rewrite <- app_assoc in Hb. }
    cbn [splitSentences] in Hin.
    destruct (isWhiteSpace c); [|now apply Hpush in Hin].
    destruct inSep.
    + rewrite (Hinv eq_refl) in *. apply IH in Hin; [|reflexivity].
      simpl in *. destruct Hin as [pre [post H]].
      exists (c :: pre), post. now rewrite H at 1.
    + destruct afterTerm; [|now apply Hpush in Hin].
      destruct Hin as [<- | Hin].
      * exists [], (c :: s). reflexivity.
      * apply IH in Hin; [|reflexivity]. simpl in Hin.
        destruct Hin as [pre [post H]].
        exists (rev acc ++ c :: pre), post.
        rewrite H at 1. now rewrite <- app_assoc.
Qed.

Lemma sentences_substring (raw sentence : jsstring) :
  In sentence (sentences raw) -> isSubstring sentence raw.
Proof.
  unfold sentences, text. intros Hin.
  apply filter_In in Hin. destruct Hin as [Hin _].
  apply in_map_iff in Hin. destruct Hin as [seg [<- Hin]].
  apply splitSentences_substring in Hin; [|discriminate].
  simpl in Hin.
  apply isSubstring_trans with seg; [apply trim_substring|].
  apply isSubstring_trans with (trim raw); [exact Hin | apply trim_substring].
Qed.

(** ** Evidence selection *)

Lemma In_firstn {A} (n : nat) (l : list A) (x : A) :
  In x (firstn n l) -> In x l.
Proof.
  intros H. rewrite <- (firstn_skipn n l). apply in_or_app. now left.
Qed.

Lemma length_filter_sum {A} (f : A -> bool) (l : list A) :
  List.length (filter f l)
  = list_sum (map (fun x => if f x then 1 else 0) l).
Proof.
  induction l as [|x l IH]; [reflexivity|].
  simpl. destruct (f x); simpl; now rewrite IH.
Qed.

Lemma mapIndexed_quote (f : jsstring -> nat -> jsstring) (l : list jsstring) :
  forall i,
    map quote
      (mapIndexed (fun sentence index =>
                     {| quote := sentence; rationale := f sentence index |})
                  i l)
    = l.
Proof.
  induction l as [|x l IH]; intros i; [reflexivity|].
  simpl. now rewrite IH.
Qed.

Lemma highlightedSentences_ranked (raw : jsstring) :
  highlightedSentences raw
  = map fst (firstn 3 (sortDesc snd (scoredSentences raw))).
Proof. reflexivity. Qed.

Lemma highlighted_in_sentences (raw q : jsstring) :
  In q (highlightedSentences raw) ->
  In q (sentences raw) /\ 0 < keywordHits q /\ isSubstring q raw.
Proof.
  rewrite highlightedSentences_ranked. intros Hin.
  apply in_map_iff in Hin. destruct Hin as [[s n] [Hq Hin]].
  simpl in Hq. subst s.
  apply In_firstn in Hin.
  apply (Permutation_in _ (sortDesc_perm snd (scoredSentences raw))) in Hin.
  unfold scoredSentences in Hin. apply filter_In in Hin.
  destruct Hin as [Hin Hpos]. simpl in Hpos. apply Nat.ltb_lt in Hpos.
  apply in_map_iff in Hin. destruct Hin as [s [Hs Hin]].
  injection Hs as -> <-.
  repeat split; [exact Hin | exact Hpos | now apply sentences_substring].
Qed.

(** C6 as the code has it: a sentence is scored by the number of hedging
    and pressure keywords that occur in its lower-cased form, each keyword
    counted once; the sentences with a non-zero score are sorted by
    descending score, sentences of equal score keeping their order; the
    first three are the highlighted sentences, which become the evidence
    quotes, and each of them is a sentence of the transcript, a contiguous
    piece of the input. *)
Theorem evidence_selection (raw : jsstring) (l : Locale) :
  exists r ranked,
    analyzeTranscriptFallback raw (tag l) = Normal r
    /\ (forall sentence,
          keywordHits sentence
          = list_sum
              (map (fun keyword =>
                      if includes (toLowerCase sentence) keyword
                      then 1 else 0)
                   (hedgingKeywords ++ pressureKeywords)))
    /\ Permutation ranked (scoredSentences raw)
    /\ StronglySorted (fun a b => snd b <= snd a) ranked
    /\ (forall k,
          filter (fun e => snd e =? k) ranked
          = filter (fun e => snd e =? k) (scoredSentences raw))
    /\ highlightedSentences raw = map fst (firstn 3 ranked)
    /\ Forall (fun q => In q (sentences raw) /\ 0 < keywordHits q
                        /\ isSubstring q raw)
              (highlightedSentences raw)
    /\ match highlightedSentences raw with
       | [] => evidence r
               = [ {| quote := noDataQuote (copyEvidence (copyOf l));
                      rationale := noDataDetail (copyEvidence (copyOf l)) |} ]
       | _ => map quote (evidence r) = highlightedSentences raw
       end.
Proof.
  exists (resultOf raw l), (sortDesc snd (scoredSentences raw)).
  split; [apply analyze_supported|].
  split; [intros sentence; apply length_filter_sum|].
  split; [apply sortDesc_perm|].
  split; [apply sortDesc_sorted|].
  split; [intros k; apply sortDesc_stable|].
  split; [reflexivity|].
  split.
  - apply Forall_forall. intros q. apply highlighted_in_sentences.
  - cbn [resultOf evidence]. unfold evidenceEntries.
    destruct (highlightedSentences raw) as [|q qs] eqn:E; [reflexivity|].
    cbn [List.length Nat.eqb]. apply mapIndexed_quote.
Qed.

(** C6 as stated fails: in "Maybe maybe maybe. Maybe perhaps." the first
    sentence has three keyword occurrences and the second two, so ranking by
    the raw occurrence count selects the first sentence first; the code
    counts one keyword in the first sentence and two in the second, and
    quotes the second sentence first. *)
Lemma evidence_selection_counterexample :
  exists r,
    analyzeTranscriptFallback (lit "Maybe maybe maybe. Maybe perhaps.")
                              (tag en)
    = Normal r
    /\ sentences (lit "Maybe maybe maybe. Maybe perhaps.")
       = [lit "Maybe maybe maybe."; lit "Maybe perhaps."]
    /\ map specKeywordScore
           (sentences (lit "Maybe maybe maybe. Maybe perhaps."))
       = [3; 2]
    /\ map keywordHits (sentences (lit "Maybe maybe maybe. Maybe perhaps."))
       = [1; 2]
    /\ specHighlighted (lit "Maybe maybe maybe. Maybe perhaps.")
       = [lit "Maybe maybe maybe."; lit "Maybe perhaps."]
    /\ map quote (evidence r)
       = [lit "Maybe perhaps."; lit "Maybe maybe maybe."]
    /\ map quote (evidence r)
       <> specHighlighted (lit "Maybe maybe maybe. Maybe perhaps.").
Proof.
  exists (resultOf (lit "Maybe maybe maybe. Maybe perhaps.") en).
  split; [apply analyze_supported|].
  repeat split; try reflexivity. vm_compute. discriminate.
Qed.

(** ** The two locales side by side *)

Lemma mapIndexed_rationale (f : nat -> jsstring) (l : list jsstring) :
  forall i,
    map rationale
      (mapIndexed (fun sentence index =>
                     {| quote := sentence; rationale := f index |}) i l)
    = map f (seq i (List.length l)).
Proof.
  induction l as [|x l IH]; intros i; [reflexivity|].
  simpl. now rewrite IH.
Qed.

Lemma resultOf_localized (raw : jsstring) (l : Locale) :
  localized raw (copyOf l) (resultOf raw l).
Proof.
  unfold localized. cbn [resultOf summary cues metrics evidence lieProbability].
  split; [reflexivity|].
  split;
    [unfold cuesOf;
     destruct (0 <? List.length (contradictionCandidates raw)); reflexivity|].
  split;
    [unfold cuesOf;
     destruct (0 <? List.length (contradictionCandidates raw)); reflexivity|].
  split; [reflexivity|]. split; [reflexivity|].
  unfold evidenceEntries, rationalesOf, quotesOf.
  destruct (highlightedSentences raw) as [|q qs]; [split; reflexivity|].
  cbn [List.length Nat.eqb]. split.
  - apply (mapIndexed_rationale
             (evidenceRationale (copyEvidence (copyOf l)) (hedgingSignals raw)
                                (pressureSignals raw))).
  - apply mapIndexed_quote.
Qed.

(** C7: on the same text the Korean and the English results have the same
    scores, the same cue values and risks and the same metric values, as
    many cues, metrics and evidence entries in the same order, and the same
    quotes when a sentence is highlighted; the summary, the cue labels and
    details, the metric labels and hints and the evidence rationales of each
    result come from its own locale's copy. *)
Theorem locale_isolation (raw : jsstring) :
  exists rk re,
    analyzeTranscriptFallback raw (tag ko) = Normal rk
    /\ analyzeTranscriptFallback raw (tag en) = Normal re
    /\ lieProbability rk = lieProbability re
    /\ confidenceScore rk = confidenceScore re
    /\ map cueValue (cues rk) = map cueValue (cues re)
    /\ map cueRisk (cues rk) = map cueRisk (cues re)
    /\ map metricValue (metrics rk) = map metricValue (metrics re)
    /\ List.length (cues rk) = List.length (cues re)
    /\ List.length (metrics rk) = 3 /\ List.length (metrics re) = 3
    /\ List.length (evidence rk) = List.length (evidence re)
    /\ match highlightedSentences raw with
       | [] => evidence rk
               = [ {| quote := noDataQuote (copyEvidence koCopy);
                      rationale := noDataDetail (copyEvidence koCopy) |} ]
               /\ evidence re
                  = [ {| quote := noDataQuote (copyEvidence enCopy);
                         rationale := noDataDetail (copyEvidence enCopy) |} ]
       | highlighted => map quote (evidence rk) = highlighted
                        /\ map quote (evidence re) = highlighted
       end
    /\ localized raw koCopy rk
    /\ localized raw enCopy re.
Proof.
  exists (resultOf raw ko), (resultOf raw en).
  split; [apply analyze_supported|].
  split; [apply analyze_supported|].
  assert (Hk := resultOf_localized raw ko).
  assert (He := resultOf_localized raw en).
  assert (Hcues : forall c c',
             map cueValue (cuesOf raw c) = map cueValue (cuesOf raw c')
             /\ map cueRisk (cuesOf raw c) = map cueRisk (cuesOf raw c')).
  { intros c c'. unfold cuesOf, conflictCue.
    destruct (0 <? List.length (contradictionCandidates raw));
      cbn [app map cueValue cueRisk]; split; reflexivity. }
  assert (Hq : map quote (evidence (resultOf raw ko))
               = quotesOf raw (copyEvidence koCopy)).
  { destruct Hk as [_ [_ [_ [_ [_ [_ Hk]]]]]]. exact Hk. }
  assert (Hq' : map quote (evidence (resultOf raw en))
                = quotesOf raw (copyEvidence enCopy)).
  { destruct He as [_ [_ [_ [_ [_ [_ He]]]]]]. exact He. }
  split; [cbn [resultOf lieProbability]; reflexivity|].
  split; [cbn [resultOf confidenceScore]; reflexivity|].
  split; [cbn [resultOf cues]; apply Hcues|].
  split; [cbn [resultOf cues]; apply Hcues|].
  split; [cbn [resultOf metrics]; unfold metricsOf; cbn [map metricValue];
          reflexivity|].
  split.
  { cbn [resultOf cues]. rewrite <- !(length_map cueValue).
    now rewrite (proj1 (Hcues (copyOf ko) (copyOf en))). }
  split; [cbn [resultOf metrics]; unfold metricsOf; cbn [List.length];
          reflexivity|].
  split; [cbn [resultOf metrics]; unfold metricsOf; cbn [List.length];
          reflexivity|].
  split.
  { rewrite <- !(length_map quote), Hq, Hq'.
    unfold quotesOf. destruct (highlightedSentences raw); cbn [List.length]; reflexivity. }
  split.
  { cbn [resultOf evidence]. unfold evidenceEntries.
    destruct (highlightedSentences raw) as [|q qs];
      [cbn [List.length Nat.eqb]; split; reflexivity|].
    cbn [List.length Nat.eqb]. split; apply mapIndexed_quote. }
  split; [exact Hk | exact He].
Qed.

(** ** A hedging keyword repeated *)

Lemma repeatText_snoc (unit : jsstring) (n : nat) :
  repeatText unit (S n) = repeatText unit n ++ unit.
Proof.
  unfold repeatText. induction n as [|n IH]; simpl.
  - now rewrite app_nil_r.
  - simpl in IH. rewrite IH at 1. now rewrite app_assoc.
Qed.

Lemma trimEnd_snoc_space (s k : jsstring) (c : N) :
  isWhiteSpace c = false ->
  trimEnd (s ++ (k ++ [c]) ++ lit " ") = s ++ k ++ [c].
Proof.
  intros Hc. change (lit " ") with [32%N].
  assert (Hk : forall k', trimEnd (k' ++ [c; 32%N]) = k' ++ [c]).
  { induction k' as [|d k' IH].
    - unfold trimEnd. simpl. now rewrite Hc.
    - change (trimEnd ((d :: k') ++ [c; 32%N]))
        with (match trimEnd (k' ++ [c; 32%N]) with
              | [] => if isWhiteSpace d then [] else [d]
              | _ :: _ => d :: trimEnd (k' ++ [c; 32%N])
              end).
      rewrite IH. destruct k'; reflexivity. }
  replace (s ++ (k ++ [c]) ++ [32%N]) with ((s ++ k) ++ [c; 32%N])
    by (rewrite <- !app_assoc; reflexivity).
  rewrite Hk. now rewrite <- app_assoc.
Qed.

Lemma tokenCount_app_space (a s : jsstring) (b : bool) :
  tokenCount b (a ++ lit " " ++ s) = tokenCount b a + tokenCount false s.
Proof.
  revert b. induction a as [|c a IH]; intros b; [reflexivity|].
  cbn [app tokenCount]. destruct (isWhiteSpace c); rewrite IH; lia.
Qed.

Lemma toLowerCase_app (a b : jsstring) :
  toLowerCase (a ++ b) = toLowerCase a ++ toLowerCase b.
Proof. unfold toLowerCase. apply flat_map_app. Qed.

Lemma toLowerCase_repeatText (unit : jsstring) (n : nat) :
  toLowerCase unit = unit ->
  toLowerCase (repeatText unit n) = repeatText unit n.
Proof.
  intros H. unfold repeatText. induction n as [|n IH]; [reflexivity|].
  simpl. now rewrite toLowerCase_app, H, IH.
Qed.

Lemma gtQ_spec (x y : Q) : gtQ x y = true <-> (y < x)%Q.
Proof.
  unfold gtQ. rewrite negb_true_iff. split.
  - intros H. apply Qnot_le_lt. intros Hle.
    apply Qle_bool_iff in Hle. congruence.
  - intros H. destruct (Qle_bool x y) eqn:E; [|reflexivity].
    apply Qle_bool_iff in E. exfalso. exact (Qlt_not_le _ _ H E).
Qed.

Lemma gtQ_Qeq (x y c : Q) : (x == y)%Q -> gtQ x c = gtQ y c.
Proof.
  intros H. destruct (gtQ x c) eqn:Ex, (gtQ y c) eqn:Ey; try reflexivity.
  - apply gtQ_spec in Ex. rewrite H in Ex. apply gtQ_spec in Ex. congruence.
  - apply gtQ_spec in Ey. rewrite <- H in Ey. apply gtQ_spec in Ey.
    congruence.
Qed.

Lemma toFixed1_Qeq (x y : Q) : (x == y)%Q -> toFixed1 x = toFixed1 y.
Proof.
  intros H. unfold toFixed1.
  destruct (Qlt_le_dec x 0) as [Hx | Hx], (Qlt_le_dec y 0) as [Hy | Hy].
  - assert (E : (- x * 10 + (1 # 2) == - y * 10 + (1 # 2))%Q)
      by now rewrite H.
    now rewrite (Qfloor_comp _ _ E).
  - exfalso. rewrite H in Hx. exact (Qlt_not_le _ _ Hx Hy).
  - exfalso. rewrite H in Hx. exact (Qlt_not_le _ _ Hy Hx).
  - assert (E : (x * 10 + (1 # 2) == y * 10 + (1 # 2))%Q) by now rewrite H.
    now rewrite (Qfloor_comp _ _ E).
Qed.

Lemma percent1_Qeq (x y : Q) : (x == y)%Q -> percent1 x = percent1 y.
Proof.
  intros H. unfold percent1, fmul. do 2 f_equal.
  apply toDouble_Qeq. now rewrite H.
Qed.

Lemma hedgingRisk_spec (raw : jsstring) :
  (hedgingRisk raw = Elevated
   <-> (toDouble (35 # 1000) < hedgingDensity raw)%Q)
  /\ hedgingRisk raw <> Critical.
Proof.
  unfold hedgingRisk.
  destruct (gtQ (hedgingDensity raw) (toDouble (35 # 1000))) eqn:E.
  - split; [|discriminate]. split; [intros _; now apply gtQ_spec | reflexivity].
  - split.
    + split.
      * destruct (gtQ (hedgingDensity raw) (toDouble (2 # 100)));
          discriminate.
      * intros H. apply gtQ_spec in H. congruence.
    + destruct (gtQ (hedgingDensity raw) (toDouble (2 # 100)));
        discriminate.
Qed.

Lemma ofNat_mult (a b : nat) : (ofNat (a * b) == ofNat a * ofNat b)%Q.
Proof.
  unfold ofNat. rewrite Nat2Z.inj_mul, inject_Z_mult. apply Qeq_refl.
Qed.

Lemma ofNat_nonzero (a : nat) : 0 < a -> ~ (ofNat a == 0)%Q.
Proof.
  intros Ha H. unfold ofNat, Qeq in H. simpl in H. lia.
Qed.

Lemma density_ratio (n w : nat) :
  0 < w -> (ofNat (S n) / ofNat (S n * w) == ofNat 1 / ofNat w)%Q.
Proof.
  intros Hw. rewrite ofNat_mult.
  assert (Hn : ~ (ofNat (S n) == 0)%Q) by (apply ofNat_nonzero; lia).
  assert (Hw' : ~ (ofNat w == 0)%Q) by now apply ofNat_nonzero.
  change (ofNat 1) with 1%Q. field. split; assumption.
Qed.

Ltac eval_lits :=
  repeat match goal with
         | |- context [lit ?s] =>
           let v := eval vm_compute in (lit s) in change (lit s) with v
         end.

Ltac each_keyword H :=
  repeat (destruct H as [H | H]; [subst|]); [..|contradiction].

Lemma standalone_step (k kw : jsstring) (prev : option N) (s : jsstring) :
  In k hedgingKeywords -> In kw hedgingKeywords ->
  prev = None \/ prev = Some 32%N ->
  standaloneCount kw prev ((k ++ lit " ") ++ s)
  = standaloneCount kw None k + standaloneCount kw (Some 32%N) s.
Proof.
  intros Hk Hkw Hprev.
  unfold hedgingKeywords in Hk, Hkw. cbn [In] in Hk, Hkw.
  each_keyword Hk; each_keyword Hkw; destruct Hprev; subst prev; reflexivity.
Qed.

Lemma standalone_base (k kw : jsstring) :
  In k hedgingKeywords -> In kw hedgingKeywords ->
  standaloneCount kw (Some 32%N) k = standaloneCount kw None k.
Proof.
  intros Hk Hkw.
  unfold hedgingKeywords in Hk, Hkw. cbn [In] in Hk, Hkw.
  each_keyword Hk; each_keyword Hkw; reflexivity.
Qed.

Lemma keywordText_succ (k : jsstring) (n : nat) :
  keywordText k (S n) = (k ++ lit " ") ++ keywordText k n.
Proof. reflexivity. Qed.

Lemma standalone_keywordText (k kw : jsstring) (n : nat) :
  In k hedgingKeywords -> In kw hedgingKeywords ->
  forall prev,
    prev = None \/ prev = Some 32%N ->
    standaloneCount kw prev (keywordText k n ++ k)
    = S n * standaloneCount kw None k.
Proof.
  intros Hk Hkw. induction n as [|n IH]; intros prev Hprev.
  - cbn [keywordText repeatText repeat List.concat app].
    destruct Hprev; subst prev; [lia|].
    rewrite standalone_base by assumption. lia.
  - rewrite keywordText_succ, <- app_assoc.
    rewrite standalone_step by assumption.
    rewrite IH by now right. lia.
Qed.

Lemma list_sum_scale {A} (f : A -> nat) (c : nat) (l : list A) :
  list_sum (map (fun x => c * f x) l) = c * list_sum (map f l).
Proof.
  induction l as [|x l IH]; simpl; [lia|]. rewrite IH. lia.
Qed.

Lemma hedging_one_each (k : jsstring) :
  In k hedgingKeywords ->
  list_sum (map (fun kw => standaloneCount kw None k) hedgingKeywords) = 1.
Proof.
  intros Hk. unfold hedgingKeywords in Hk. cbn [In] in Hk.
  each_keyword Hk; reflexivity.
Qed.

Lemma totalStandalone_keywordText (k : jsstring) (n : nat) :
  In k hedgingKeywords ->
  totalStandalone (keywordText k n ++ k) hedgingKeywords = S n.
Proof.
  intros Hk. unfold totalStandalone.
  rewrite (map_ext_in _ (fun kw => S n * standaloneCount kw None k)).
  - rewrite list_sum_scale, hedging_one_each by assumption. lia.
  - intros kw Hkw. apply standalone_keywordText; auto.
Qed.

Lemma hedging_keyword_shape (k : jsstring) :
  In k hedgingKeywords ->
  toLowerCase k = k
  /\ 0 < tokenCount false k
  /\ exists c0 k0 k1 c1,
       k = c0 :: k0 /\ k = k1 ++ [c1]
       /\ isWhiteSpace c0 = false /\ isWhiteSpace c1 = false.
Proof.
  intros Hk. unfold hedgingKeywords in Hk. cbn [In] in Hk.
  each_keyword Hk; (split; [reflexivity|]); (split; [cbv; lia|]);
    eval_lits;
    match goal with
    | |- exists c0 k0 k1 c1, ?c :: ?r = _ /\ _ =>
      exists c, r, (removelast (c :: r)), (last (c :: r) 0%N)
    end; repeat split; reflexivity.
Qed.

Lemma trim_keywordText (k : jsstring) (n : nat) :
  In k hedgingKeywords ->
  trim (keywordText k (S n)) = keywordText k n ++ k.
Proof.
  intros Hk.
  destruct (hedging_keyword_shape k Hk)
    as [_ [_ [c0 [k0 [k1 [c1 [E0 [E1 [H0 H1]]]]]]]]].
  unfold trim.
  assert (Hs : trimStart (keywordText k (S n)) = keywordText k (S n)).
  { rewrite keywordText_succ, E0. cbn [app trimStart]. now rewrite H0. }
  rewrite Hs. unfold keywordText. rewrite repeatText_snoc.
  rewrite E1. rewrite trimEnd_snoc_space by assumption. reflexivity.
Qed.

Lemma lower_keywordText (k : jsstring) (n : nat) :
  In k hedgingKeywords ->
  lower (keywordText k (S n)) = keywordText k n ++ k.
Proof.
  intros Hk. unfold lower, text. rewrite trim_keywordText by assumption.
  destruct (hedging_keyword_shape k Hk) as [Hl _].
  rewrite toLowerCase_app, Hl. f_equal.
  apply toLowerCase_repeatText.
  rewrite toLowerCase_app, Hl. reflexivity.
Qed.

Lemma hedgingHits_keywordText (k : jsstring) (n : nat) :
  In k hedgingKeywords -> hedgingHits (keywordText k (S n)) = S n.
Proof.
  intros Hk. unfold hedgingHits.
  rewrite countKeywordHits_standalone by apply keywords_overlapFree.
  rewrite lower_keywordText by assumption.
  now apply totalStandalone_keywordText.
Qed.

Lemma tokenCount_keywordText (k : jsstring) (n : nat) :
  tokenCount false (keywordText k n ++ k) = S n * tokenCount false k.
Proof.
  induction n as [|n IH]; [simpl; lia|].
  rewrite keywordText_succ, <- !app_assoc.
  rewrite tokenCount_app_space, IH. lia.
Qed.

Lemma words_keywordText (k : jsstring) (n : nat) :
  In k hedgingKeywords ->
  List.length (words (keywordText k (S n))) = S n * tokenCount false k.
Proof.
  intros Hk. rewrite words_length. unfold specWordCount.
  rewrite trim_keywordText by assumption. apply tokenCount_keywordText.
Qed.

(** One over the number of words of a hedging keyword, 1 or 1/2, is a
    double. *)
Lemma hedging_keyword_double (k : jsstring) :
  In k hedgingKeywords ->
  (toDouble (ofNat 1 / ofNat (tokenCount false k))
   == ofNat 1 / ofNat (tokenCount false k))%Q.
Proof.
  intros Hk. unfold hedgingKeywords in Hk. cbn [In] in Hk.
  each_keyword Hk; vm_compute; reflexivity.
Qed.

Lemma hedgingDensity_keywordText (k : jsstring) (n : nat) :
  In k hedgingKeywords ->
  (hedgingDensity (keywordText k (S n))
   == ofNat 1 / ofNat (tokenCount false k))%Q.
Proof.
  intros Hk. unfold hedgingDensity, density, fdiv.
  rewrite hedgingHits_keywordText, words_keywordText by assumption.
  destruct (hedging_keyword_shape k Hk) as [_ [Hw _]].
  rewrite Nat.max_l by nia.
  rewrite (toDouble_Qeq _ _ (density_ratio n _ Hw)).
  now apply hedging_keyword_double.
Qed.

Lemma ratio_cross (a : Q) (h w : nat) :
  0 < w ->
  ((a < ofNat h / ofNat w)%Q <-> (a * ofNat w < ofNat h)%Q)
  /\ ((a <= ofNat h / ofNat w)%Q <-> (a * ofNat w <= ofNat h)%Q).
Proof.
  intros Hw.
  assert (Hp : (0 < ofNat w)%Q).
  { unfold ofNat. change 0%Q with (inject_Z 0). rewrite <- Zlt_Qlt. lia. }
  assert (E : (ofNat h / ofNat w * ofNat w == ofNat h)%Q).
  { field. intros H. rewrite H in Hp. exact (Qlt_irrefl _ Hp). }
  split; split; intros H.
  - rewrite <- E. now apply Qmult_lt_compat_r.
  - now apply Qlt_shift_div_l.
  - rewrite <- E. apply Qmult_le_compat_r; [exact H|]. now apply Qlt_le_weak.
  - now apply Qle_shift_div_l.
Qed.

(** The comparison of a density with the double 0.035 is the comparison of
    the exact ratio with 0.035, for every text of at most 2^40 words: the
    ratio of two such counts is never close enough to 0.035 to round across
    it. *)
Lemma elevated_threshold (h w : nat) :
  0 < w -> (Z.of_nat w <= 2 ^ 40)%Z ->
  (toDouble (35 # 1000) < fdiv (ofNat h) (ofNat w))%Q
  <-> (35 # 1000 < ofNat h / ofNat w)%Q.
Proof.
  intros Hw Hb. unfold fdiv. split; intros H.
  - apply Qnot_le_lt. intros Hle.
    apply (Qlt_not_le _ _ H). now apply toDouble_monotone.
  - apply Qlt_le_trans
      with (toDouble ((35 # 1000) + (1 # 1000) * (1 # 1099511627776))).
    + vm_compute. reflexivity.
    + apply toDouble_monotone.
      apply (proj1 (ratio_cross _ h w Hw)) in H.
      apply (proj2 (ratio_cross _ h w Hw)).
      unfold ofNat in *. revert H Hb.
      generalize (Z.of_nat h) (Z.of_nat w). intros zh zw H Hb.
      unfold Qlt, Qle, Qmult, Qplus, inject_Z in *.
      cbn [Qnum Qden] in *. lia.
Qed.

Lemma hedging_keyword_elevated (k : jsstring) :
  In k hedgingKeywords ->
  gtQ (ofNat 1 / ofNat (tokenCount false k)) (toDouble (35 # 1000)) = true.
Proof.
  intros Hk. unfold hedgingKeywords in Hk. cbn [In] in Hk.
  each_keyword Hk; vm_compute; reflexivity.
Qed.

Lemma hedgingCue_of (raw : jsstring) (l : Locale) :
  exists r cue,
    analyzeTranscriptFallback raw (tag l) = Normal r
    /\ hd_error (cues r) = Some cue
    /\ cueValue cue = percent1 (hedgingDensity raw)
    /\ cueRisk cue = hedgingRisk raw.
Proof.
  exists (resultOf raw l). eexists.
  split; [apply analyze_supported|].
  cbn [resultOf cues]. unfold cuesOf. cbn [app hd_error].
  split; [reflexivity|]. split; reflexivity.
Qed.

(** C8 as the code has it: for a text made of [n] occurrences of one hedging
    keyword the hedging density does not grow with [n]: it is 0 for no
    occurrence and, for every [n >= 1], one over the number of words of the
    keyword (1 for "maybe", cue value "100.0%"), the same as for a single
    occurrence; its cue is Elevated for every [n >= 1].  For every text the
    hedging cue is Elevated exactly when the hedging density, a double,
    exceeds the double 0.035, which for a text of at most 2^40 words is
    exactly when the ratio of hedging hits to words exceeds 0.035; it is
    never Critical. *)
Theorem hedging_repetition (k : jsstring) (n : nat) (l : Locale) :
  In k hedgingKeywords -> 1 <= n ->
  (exists r cue,
     analyzeTranscriptFallback (keywordText k n) (tag l) = Normal r
     /\ hd_error (cues r) = Some cue
     /\ (hedgingDensity (keywordText k n)
         == ofNat 1 / ofNat (tokenCount false k))%Q
     /\ (hedgingDensity (keywordText k n)
         == hedgingDensity (keywordText k 1))%Q
     /\ cueValue cue = percent1 (ofNat 1 / ofNat (tokenCount false k))
     /\ cueRisk cue = Elevated)
  /\ (hedgingDensity (keywordText k 0) == 0)%Q
  /\ (forall raw l',
        exists r cue,
          analyzeTranscriptFallback raw (tag l') = Normal r
          /\ hd_error (cues r) = Some cue
          /\ (cueRisk cue = Elevated
              <-> (toDouble (35 # 1000) < hedgingDensity raw)%Q)
          /\ ((Z.of_nat (List.length (words raw)) <= 2 ^ 40)%Z ->
              (cueRisk cue = Elevated
               <-> (35 # 1000
                    < ofNat (hedgingHits raw)
                      / ofNat (Nat.max (List.length (words raw)) 1))%Q))
          /\ cueRisk cue <> Critical).
Proof.
  intros Hk Hn. split; [|split].
  - destruct n as [|n]; [lia|].
    destruct (hedgingCue_of (keywordText k (S n)) l)
      as [r [cue [Hr [Hcue [Hval Hrisk]]]]].
    assert (Hd := hedgingDensity_keywordText k n Hk).
    exists r, cue. split; [exact Hr|]. split; [exact Hcue|].
    split; [exact Hd|]. split.
    + rewrite Hd. symmetry. apply (hedgingDensity_keywordText k 0 Hk).
    + split.
      * rewrite Hval. now apply percent1_Qeq.
      * rewrite Hrisk. unfold hedgingRisk.
        rewrite (gtQ_Qeq _ _ _ Hd), hedging_keyword_elevated by assumption.
        reflexivity.
  - reflexivity.
  - intros raw l'.
    destruct (hedgingCue_of raw l') as [r [cue [Hr [Hcue [Hval Hrisk]]]]].
    exists r, cue. split; [exact Hr|]. split; [exact Hcue|].
    rewrite Hrisk. destruct (hedgingRisk_spec raw) as [Hiff Hnot].
    split; [exact Hiff|]. split; [|exact Hnot].
    intros Hwords. rewrite Hiff. unfold hedgingDensity, density.
    apply elevated_threshold; lia.
Qed.

Lemma hedging_repetition_witness :
  In (lit "maybe") hedgingKeywords /\ 1 <= 50
  /\ percent1 (ofNat 1 / ofNat (tokenCount false (lit "maybe")))
     = lit "100.0%"
  /\ exists r cue,
       analyzeTranscriptFallback (keywordText (lit "maybe") 50) (tag en)
       = Normal r
       /\ hd_error (cues r) = Some cue
       /\ (hedgingDensity (keywordText (lit "maybe") 50)
           == ofNat 1 / ofNat (tokenCount false (lit "maybe")))%Q
       /\ (hedgingDensity (keywordText (lit "maybe") 50)
           == hedgingDensity (keywordText (lit "maybe") 1))%Q
       /\ cueValue cue
          = percent1 (ofNat 1 / ofNat (tokenCount false (lit "maybe")))
       /\ cueRisk cue = Elevated.
Proof.
  assert (Hin : In (lit "maybe") hedgingKeywords) by (left; reflexivity).
  assert (Hn : 1 <= 50) by lia.
  split; [exact Hin|]. split; [exact Hn|]. split; [reflexivity|].
  exact (proj1 (hedging_repetition (lit "maybe") 50 en Hin Hn)).
Defined.

(** C8 as stated fails: "maybe " once and "maybe " twice have the same
    hedging density, 1, and the same cue value, so the value does not
    strictly increase with the repetition count. *)
Lemma hedging_repetition_counterexample :
  exists r1 r2,
    analyzeTranscriptFallback (keywordText (lit "maybe") 1) (tag en)
    = Normal r1
    /\ analyzeTranscriptFallback (keywordText (lit "maybe") 2) (tag en)
       = Normal r2
    /\ ~ (hedgingDensity (keywordText (lit "maybe") 1)
          < hedgingDensity (keywordText (lit "maybe") 2))%Q
    /\ map cueValue (firstn 1 (cues r1)) = [lit "100.0%"]
    /\ map cueValue (firstn 1 (cues r2)) = [lit "100.0%"].
Proof.
  exists (resultOf (keywordText (lit "maybe") 1) en),
         (resultOf (keywordText (lit "maybe") 2) en).
  split; [apply analyze_supported|]. split; [apply analyze_supported|].
  split; [|split; reflexivity].
  intros H. vm_compute in H. discriminate.
Qed.

(** ** One language per result *)
































(** ** Shape of the result *)

Lemma mapIndexed_length {A B} (f : A -> nat -> B) (l : list A) :
  forall i, List.length (mapIndexed f i l) = List.length l.
Proof.
  induction l as [|x l IH]; intros i; [reflexivity|].
  simpl. now rewrite IH.
Qed.

Lemma highlightedSentences_length (raw : jsstring) :
  List.length (highlightedSentences raw)
  <= Nat.min 3 (List.length (sentences raw)).
Proof.
  rewrite highlightedSentences_ranked, length_map, length_firstn.
  rewrite (Permutation_length (sortDesc_perm snd (scoredSentences raw))).
  unfold scoredSentences.
  assert (H := filter_length_le (fun entry : jsstring * nat => 0 <? snd entry)
                 (map (fun sentence => (sentence, keywordHits sentence))
                      (sentences raw))).
  rewrite length_map in H. lia.
Qed.

Lemma evidenceEntries_length (copy : EvidenceCopy)
    (highlighted hs ps : list jsstring) :
  List.length (evidenceEntries copy highlighted hs ps)
  = Nat.max 1 (List.length highlighted).
Proof.
  unfold evidenceEntries. destruct highlighted as [|q qs]; [reflexivity|].
  cbn [List.length Nat.eqb]. rewrite mapIndexed_length. simpl. lia.
Qed.

(** X1: every result has three or four cues, exactly three metrics and
    between one and three evidence entries: one entry per highlighted
    sentence, or the single placeholder when no sentence is highlighted. *)
Theorem result_shape (raw : jsstring) (l : Locale) :
  exists r,
    analyzeTranscriptFallback raw (tag l) = Normal r
    /\ 3 <= List.length (cues r) <= 4
    /\ List.length (metrics r) = 3
    /\ List.length (evidence r)
       = Nat.max 1 (List.length (highlightedSentences raw))
    /\ 1 <= List.length (evidence r) <= 3.
Proof.
  exists (resultOf raw l). split; [apply analyze_supported|].
  assert (Hh := highlightedSentences_length raw).
  assert (He : List.length (evidence (resultOf raw l))
               = Nat.max 1 (List.length (highlightedSentences raw))).
  { cbn [resultOf evidence]. apply evidenceEntries_length. }
  split.
  { cbn [resultOf cues]. unfold cuesOf. rewrite length_app.
    destruct (0 <? List.length (contradictionCandidates raw));
      cbn [List.length]; lia. }
  split; [reflexivity|]. split; [exact He|]. rewrite He. lia.
Qed.

(** ** The confidence score *)

Lemma round_upper_bound (x : Q) (n : Z) :
  (x <= inject_Z n)%Q -> (round x <= n)%Z.
Proof.
  intros H. unfold round.
  destruct (Z_lt_le_dec n (Qfloor (x + (1 # 2)))) as [Hgt | Hle]; [|exact Hle].
  exfalso.
  assert (Hf := Qfloor_le (x + (1 # 2))).
  assert (H1 : (inject_Z (n + 1) <= x + (1 # 2))%Q).
  { eapply Qle_trans; [|exact Hf]. rewrite <- Zle_Qle. lia. }
  assert (H2 : (x + (1 # 2) < inject_Z (n + 1))%Q).
  { rewrite inject_Z_plus, (Qplus_comm x), (Qplus_comm (inject_Z n)).
    apply Qplus_lt_le_compat; [reflexivity | exact H]. }
  exact (Qlt_not_le _ _ H2 H1).
Qed.

Lemma round_Qeq (x y : Q) : (x == y)%Q -> round x = round y.
Proof.
  intros H. unfold round. apply Qfloor_comp. now rewrite H.
Qed.

Lemma coverageFactor_bounds (raw : jsstring) :
  (0 <= coverageFactor raw <= 1)%Q.
Proof.
  unfold coverageFactor. split.
  - apply Q.min_glb; [discriminate|].
    unfold fdiv. apply toDouble_nonneg.
    unfold Qdiv. apply Qmult_le_0_compat; [apply nonneg_ofNat | discriminate].
  - apply Q.le_min_l.
Qed.

Lemma stabilityPenalty_nonneg (raw : jsstring) :
  (0 <= stabilityPenalty raw)%Q.
Proof.
  unfold stabilityPenalty.
  apply fmul_nonneg; [apply Qabs_nonneg | discriminate].
Qed.

Lemma confidence_sum_upper (c p : Q) :
  (c <= 1)%Q -> (0 <= p)%Q -> (fsub (fadd 58 (fmul c 32)) p <= 90)%Q.
Proof.
  intros Hc Hp.
  assert (H1 : (fmul c 32 <= 32)%Q).
  { apply (toDouble_at_most _ 32); [lia|].
    change (inject_Z 32) with (1 * 32)%Q.
    apply Qmult_le_compat_r; [exact Hc | discriminate]. }
  assert (H2 : (fadd 58 (fmul c 32) <= 90)%Q).
  { apply (toDouble_at_most _ 90); [lia|].
    change (inject_Z 90) with (58 + 32)%Q. now apply Qplus_le_r. }
  apply (toDouble_at_most _ 90); [lia|].
  change (inject_Z 90) with (90 # 1)%Q. lra.
Qed.

Lemma clamp_below_90 (z : Z) : (z <= 90 -> Z.max 38 (Z.min 94 z) <= 90)%Z.
Proof. lia. Qed.

Lemma confidenceScoreOf_at_most_90 (raw : jsstring) :
  (confidenceScoreOf raw <= 90)%Z.
Proof.
  unfold confidenceScoreOf. apply clamp_below_90.
  apply (round_upper_bound _ 90).
  apply confidence_sum_upper;
    [apply coverageFactor_bounds | apply stabilityPenalty_nonneg].
Qed.

Lemma coverageFactor_saturated (raw : jsstring) :
  320 <= List.length (words raw) -> (coverageFactor raw == 1)%Q.
Proof.
  intros H. unfold coverageFactor. apply Q.min_l.
  apply (toDouble_at_least _ 1); [lia|].
  apply Qle_shift_div_l; [reflexivity|].
  change (inject_Z 1 * 320)%Q with (inject_Z 320).
  unfold ofNat. rewrite <- Zle_Qle. lia.
Qed.

Lemma stabilityPenalty_balanced (raw : jsstring) :
  hedgingHits raw = pressureHits raw -> (stabilityPenalty raw == 0)%Q.
Proof.
  intros H. unfold stabilityPenalty, hedgingDensity, pressureDensity.
  rewrite H.
  assert (E : (density raw (pressureHits raw) - density raw (pressureHits raw)
               == 0)%Q) by ring.
  unfold fsub. rewrite (toDouble_Qeq _ _ E). reflexivity.
Qed.

Lemma confidenceScoreOf_saturated (raw : jsstring) :
  320 <= List.length (words raw) ->
  hedgingHits raw = pressureHits raw ->
  confidenceScoreOf raw = 90%Z.
Proof.
  intros Hw Hb. unfold confidenceScoreOf.
  assert (E1 : fmul (coverageFactor raw) 32 = fmul 1 32).
  { unfold fmul. apply toDouble_Qeq.
    now rewrite (coverageFactor_saturated raw Hw). }
  assert (E2 : fsub (fadd 58 (fmul (coverageFactor raw) 32))
                    (stabilityPenalty raw)
               = fsub (fadd 58 (fmul 1 32)) 0).
  { rewrite E1. unfold fsub. apply toDouble_Qeq.
    now rewrite (stabilityPenalty_balanced raw Hb). }
  rewrite E2. vm_compute. reflexivity.
Qed.

(** X2: the confidence score never exceeds 90, so the ceiling of 94 is
    never reached; it is exactly 90 for a text of at least 320 words in
    which hedging and pressure keywords occur equally often. *)
Theorem confidence_ceiling (raw : jsstring) (l : Locale) :
  320 <= List.length (words raw) ->
  hedgingHits raw = pressureHits raw ->
  (exists r,
     analyzeTranscriptFallback raw (tag l) = Normal r
     /\ confidenceScore r = 90%Z)
  /\ (forall raw' l',
        exists r,
          analyzeTranscriptFallback raw' (tag l') = Normal r
          /\ (38 <= confidenceScore r <= 90)%Z).
Proof.
  intros Hw Hb. split.
  - exists (resultOf raw l). split; [apply analyze_supported|].
    now apply confidenceScoreOf_saturated.
  - intros raw' l'. exists (resultOf raw' l').
    split; [apply analyze_supported|]. split.
    + apply confidenceScoreOf_bounds.
    + apply confidenceScoreOf_at_most_90.
Qed.

Lemma confidence_ceiling_witness :
  320 <= List.length (words (repeatText (lit "a ") 320))
  /\ hedgingHits (repeatText (lit "a ") 320)
     = pressureHits (repeatText (lit "a ") 320)
  /\ exists r,
       analyzeTranscriptFallback (repeatText (lit "a ") 320) (tag en)
       = Normal r
       /\ confidenceScore r = 90%Z.
Proof.
  assert (Hw : 320 <= List.length (words (repeatText (lit "a ") 320)))
    by (vm_compute; lia).
  assert (Hb : hedgingHits (repeatText (lit "a ") 320)
               = pressureHits (repeatText (lit "a ") 320))
    by (vm_compute; reflexivity).
  split; [exact Hw|]. split; [exact Hb|].
  exact (proj1 (confidence_ceiling (repeatText (lit "a ") 320) en Hw Hb)).
Defined.

Lemma ratio_at_most_one (a b : nat) :
  a <= b -> (fmul (fdiv (ofNat a) (ofNat (Nat.max b 1))) 100 <= 100)%Q.
Proof.
  intros H.
  apply (toDouble_at_most _ 100); [lia|].
  change (inject_Z 100) with (1 * 100)%Q.
  apply Qmult_le_compat_r; [|discriminate].
  apply (toDouble_at_most _ 1); [lia|].
  apply Qle_shift_div_r.
  - unfold ofNat, Qlt. simpl. lia.
  - change (inject_Z 1) with 1%Q. rewrite Qmult_1_l.
    unfold ofNat. rewrite <- Zle_Qle. lia.
Qed.

Lemma coveragePercent_bounds (raw : jsstring) :
  (0 <= coveragePercent raw <= 100)%Z.
Proof.
  unfold coveragePercent. split.
  - apply (round_lower_bound _ 0).
    apply fmul_nonneg; [|discriminate].
    unfold fdiv. apply toDouble_nonneg, ratio_nonneg.
  - apply (round_upper_bound _ 100). apply ratio_at_most_one.
    assert (H := highlightedSentences_length raw). lia.
Qed.

(** X3: the sentence-coverage metric is a whole percentage between 0 and
    100: no more sentences are highlighted than the transcript has. *)
Theorem coverage_metric_range (raw : jsstring) (l : Locale) :
  exists r m,
    analyzeTranscriptFallback raw (tag l) = Normal r
    /\ nth_error (metrics r) 1 = Some m
    /\ metricLabel m = coverageLabel (copyMetrics (copyOf l))
    /\ metricValue m = intToString (coveragePercent raw) ++ lit "%"
    /\ (0 <= coveragePercent raw <= 100)%Z
    /\ List.length (highlightedSentences raw)
       <= List.length (sentences raw).
Proof.
  exists (resultOf raw l). eexists.
  split; [apply analyze_supported|].
  split; [cbn [resultOf metrics]; unfold metricsOf; reflexivity|].
  split; [reflexivity|]. split; [reflexivity|].
  split; [apply coveragePercent_bounds|].
  assert (H := highlightedSentences_length raw). lia.
Qed.

(** ** Words *)

Lemma splitWs_concat (s : jsstring) :
  forall (inSep : bool) (acc : jsstring),
    List.concat (splitWs inSep acc s) = rev acc ++ filter notWhiteSpace s.
Proof.
  induction s as [|c s IH]; intros inSep acc.
  - simpl. now rewrite !app_nil_r.
  - cbn [splitWs filter]. unfold notWhiteSpace at 1.
    destruct (isWhiteSpace c); cbn [negb].
    + destruct inSep.
      * apply IH.
      * cbn [List.concat]. rewrite IH. reflexivity.
    + rewrite IH. cbn [rev]. now rewrite <- app_assoc.
Qed.

Lemma concat_filter_truthy (l : list jsstring) :
  List.concat (filter truthy l) = List.concat l.
Proof.
  induction l as [|x l IH]; [reflexivity|].
  cbn [filter List.concat]. destruct x as [|c x]; cbn [truthy].
  - exact IH.
  - cbn [List.concat]. now rewrite IH.
Qed.

Lemma splitWs_pieces (s : jsstring) :
  forall (inSep : bool) (acc : jsstring),
    forallb notWhiteSpace acc = true ->
    Forall (fun w => forallb notWhiteSpace w = true) (splitWs inSep acc s).
Proof.
  induction s as [|c s IH]; intros inSep acc Hacc.
  - constructor; [|constructor].
    rewrite forallb_forall in *. intros x Hx. apply Hacc.
    now apply in_rev.
  - cbn [splitWs]. destruct (isWhiteSpace c) eqn:E.
    + destruct inSep.
      * now apply IH.
      * constructor; [|now apply IH].
        rewrite forallb_forall in *. intros x Hx. apply Hacc.
        now apply in_rev.
    + apply IH. cbn [forallb]. unfold notWhiteSpace at 1.
      now rewrite E, Hacc.
Qed.

Lemma Runs_space (c : N) (ws : list jsstring) (s : jsstring) :
  isWhiteSpace c = true -> Runs ws s -> Runs ws (c :: s).
Proof.
  intros Hc H. destruct H as [gap Hg | gap w rest ws Hg Hw Hn He Hr].
  - apply Runs_nil. cbn [forallb]. now rewrite Hc.
  - change (c :: gap ++ w ++ rest) with ((c :: gap) ++ w ++ rest).
    apply Runs_cons; try assumption. cbn [forallb]. now rewrite Hc.
Qed.

Lemma truthy_rev (acc : jsstring) : truthy (rev acc) = truthy acc.
Proof.
  destruct acc as [|a acc]; [reflexivity|]. simpl.
  destruct (rev acc); reflexivity.
Qed.

(** The pieces of [splitWs] that are not empty are the runs of the text;
    [acc] is the part of the current run already read. *)
Lemma splitWs_runs (s : jsstring) :
  forall (inSep : bool) (acc : jsstring),
    (inSep = true -> acc = []) ->
    match acc with
    | [] => Runs (filter truthy (splitWs inSep [] s)) s
    | _ :: _ =>
      exists w rest ws,
        s = w ++ rest /\ forallb notWhiteSpace w = true /\ wordEnd rest
        /\ Runs ws rest
        /\ filter truthy (splitWs inSep acc s) = (rev acc ++ w) :: ws
    end.
Proof.
  induction s as [|c s IH]; intros inSep acc Hinv.
  - destruct acc as [|a acc].
    + apply Runs_nil. reflexivity.
    + exists [], [], []. split; [reflexivity|]. split; [reflexivity|].
      split; [exact I|]. split; [now apply Runs_nil|].
      cbn [splitWs filter]. rewrite truthy_rev, app_nil_r. reflexivity.
  - cbn [splitWs]. destruct (isWhiteSpace c) eqn:Ec.
    + pose proof (IH true [] (fun _ => eq_refl)) as Hs. cbn beta iota in Hs.
      destruct acc as [|a acc].
      * apply Runs_space; [exact Ec|].
        destruct inSep; [exact Hs|]. exact Hs.
      * destruct inSep; [now discriminate (Hinv eq_refl)|].
        exists [], (c :: s), (filter truthy (splitWs true [] s)).
        split; [reflexivity|]. split; [reflexivity|].
        split; [exact Ec|]. split; [now apply Runs_space|].
        cbn [filter]. rewrite truthy_rev, app_nil_r. reflexivity.
    + destruct (IH false (c :: acc) ltac:(discriminate))
        as (w & rest & ws & Es & Hw & He & Hr & Hf).
      destruct acc as [|a acc].
      * rewrite Hf, Es. cbn [rev app].
        apply (Runs_cons [] (c :: w) rest ws); try assumption.
        -- reflexivity.
        -- discriminate.
        -- cbn [forallb]. unfold notWhiteSpace at 1. now rewrite Ec, Hw.
      * exists (c :: w), rest, ws. split; [now rewrite Es|].
        split; [cbn [forallb]; unfold notWhiteSpace at 1; now rewrite Ec, Hw|].
        split; [exact He|]. split; [exact Hr|].
        rewrite Hf. cbn [rev]. now rewrite <- !app_assoc.
Qed.

Lemma gap_word_split (gap gap' x x' : jsstring) :
  forallb isWhiteSpace gap = true -> forallb isWhiteSpace gap' = true ->
  match x with [] => True | c :: _ => isWhiteSpace c = false end ->
  match x' with [] => True | c :: _ => isWhiteSpace c = false end ->
  gap ++ x = gap' ++ x' -> gap = gap' /\ x = x'.
Proof.
  revert gap'. induction gap as [|g gap IH]; intros gap' Hg Hg' Hx Hx' E.
  - destruct gap' as [|g' gap']; [now split|].
    cbn [app] in E. subst x. cbn [forallb] in Hg'.
    apply andb_prop in Hg'. destruct Hg' as [Hg' _]. congruence.
  - destruct gap' as [|g' gap'].
    + cbn [app] in E. subst x'. cbn [forallb] in Hg.
      apply andb_prop in Hg. destruct Hg as [Hg _]. congruence.
    + cbn [app] in E. injection E as -> E.
      cbn [forallb] in Hg, Hg'.
      apply andb_prop in Hg. apply andb_prop in Hg'.
      destruct (IH gap' (proj2 Hg) (proj2 Hg') Hx Hx' E) as [-> ->].
      now split.
Qed.

Lemma word_rest_split (w w' rest rest' : jsstring) :
  forallb notWhiteSpace w = true -> forallb notWhiteSpace w' = true ->
  wordEnd rest -> wordEnd rest' ->
  w ++ rest = w' ++ rest' -> w = w' /\ rest = rest'.
Proof.
  revert w'. induction w as [|c w IH]; intros w' Hw Hw' Hr Hr' E.
  - destruct w' as [|c' w']; [now split|].
    cbn [app] in E. subst rest. cbn [forallb] in Hw'.
    apply andb_prop in Hw'. destruct Hw' as [Hc _].
    unfold notWhiteSpace in Hc. cbn [wordEnd] in Hr.
    rewrite Hr in Hc. discriminate.
  - destruct w' as [|c' w'].
    + cbn [app] in E. subst rest'. cbn [forallb] in Hw.
      apply andb_prop in Hw. destruct Hw as [Hc _].
      unfold notWhiteSpace in Hc. cbn [wordEnd] in Hr'.
      rewrite Hr' in Hc. discriminate.
    + cbn [app] in E. injection E as -> E.
      cbn [forallb] in Hw, Hw'.
      apply andb_prop in Hw. apply andb_prop in Hw'.
      destruct (IH w' (proj2 Hw) (proj2 Hw') Hr Hr' E) as [-> ->].
      now split.
Qed.

Lemma word_head (w rest : jsstring) :
  w <> [] -> forallb notWhiteSpace w = true ->
  match w ++ rest with [] => True | c :: _ => isWhiteSpace c = false end.
Proof.
  intros Hne Hw. destruct w as [|c w]; [now elim Hne|].
  cbn [app forallb] in *. apply andb_prop in Hw. destruct Hw as [Hc _].
  unfold notWhiteSpace in Hc. now apply negb_true_iff in Hc.
Qed.

(** The runs of a text are determined by the text. *)
Lemma Runs_unique (ws : list jsstring) (s : jsstring) :
  Runs ws s -> forall ws', Runs ws' s -> ws = ws'.
Proof.
  induction 1 as [gap Hg | gap w rest ws Hg Hne Hw He Hr IH];
    intros ws' H'.
  - inversion H' as [gap' Hg' E1 E2 | gap' w' rest' ws'' Hg' Hne' Hw' He' Hr' E1 E2];
      [reflexivity|].
    exfalso. subst gap.
    rewrite !forallb_app in Hg. apply andb_prop in Hg.
    destruct Hg as [_ Hg]. apply andb_prop in Hg. destruct Hg as [Hg _].
    destruct w' as [|c w']; [now elim Hne'|].
    cbn [forallb] in Hg, Hw'. apply andb_prop in Hg. apply andb_prop in Hw'.
    destruct Hg as [Hc _]. destruct Hw' as [Hc' _].
    unfold notWhiteSpace in Hc'. rewrite Hc in Hc'. discriminate.
  - inversion H' as [gap' Hg' E1 E2 | gap' w' rest' ws'' Hg' Hne' Hw' He' Hr' E1 E2].
    + exfalso. subst gap'.
      rewrite !forallb_app in Hg'. apply andb_prop in Hg'.
      destruct Hg' as [_ Hg']. apply andb_prop in Hg'.
      destruct Hg' as [Hg' _].
      destruct w as [|c w]; [now elim Hne|].
      cbn [forallb] in Hg', Hw. apply andb_prop in Hg'. apply andb_prop in Hw.
      destruct Hg' as [Hc _]. destruct Hw as [Hc' _].
      unfold notWhiteSpace in Hc'. rewrite Hc in Hc'. discriminate.
    + destruct (gap_word_split gap' gap (w' ++ rest') (w ++ rest) Hg' Hg
                  (word_head w' rest' Hne' Hw') (word_head w rest Hne Hw) E2)
        as [_ E].
      destruct (word_rest_split w' w rest' rest Hw' Hw He' He E) as [-> ->].
      f_equal. now apply IH.
Qed.

(** X4: the words are the maximal whitespace-free runs of the lower-cased
    text.  The lower-cased text is whitespace, a word, whitespace, a word
    and so on, where a word is not empty, holds no whitespace and ends at
    whitespace or at the end of the text; the list of words is the only
    list that splits the text this way.  The words put end to end give back
    the text without its whitespace, and their number is the number of
    whitespace-separated tokens of the trimmed text. *)
Theorem words_partition (raw : jsstring) :
  Runs (words raw) (lower raw)
  /\ (forall ws, Runs ws (lower raw) -> ws = words raw)
  /\ List.concat (words raw) = filter notWhiteSpace (lower raw)
  /\ Forall (fun w => w <> [] /\ forallb notWhiteSpace w = true) (words raw)
  /\ List.length (words raw) = tokenCount false (trim raw).
Proof.
  assert (Hruns : Runs (words raw) (lower raw))
    by exact (splitWs_runs (lower raw) false [] ltac:(discriminate)).
  split; [exact Hruns|]. split; [|split; [|split]].
  - intros ws H. symmetry. now apply (Runs_unique _ _ Hruns).
  - unfold words. rewrite concat_filter_truthy. apply splitWs_concat.
  - unfold words. apply Forall_forall. intros w Hw.
    apply filter_In in Hw. destruct Hw as [Hin Ht]. split.
    + intros ->. discriminate.
    + assert (H := splitWs_pieces (lower raw) false [] eq_refl).
      rewrite Forall_forall in H. now apply H.
  - apply words_length.
Qed.

(** ** Sentences *)

Lemma trimStart_head (s : jsstring) :
  match trimStart s with
  | [] => True
  | c :: _ => isWhiteSpace c = false
  end.
Proof.
  induction s as [|c s IH]; simpl; [exact I|].
  destruct (isWhiteSpace c) eqn:E; [exact IH | exact E].
Qed.

Lemma trimStart_id (c : N) (s : jsstring) :
  isWhiteSpace c = false -> trimStart (c :: s) = c :: s.
Proof. intros H. simpl. now rewrite H. Qed.

Lemma trimEnd_cons (c : N) (s : jsstring) :
  trimEnd (c :: s)
  = match trimEnd s with
    | [] => if isWhiteSpace c then [] else [c]
    | _ :: _ => c :: trimEnd s
    end.
Proof. reflexivity. Qed.

Lemma trimEnd_idem (s : jsstring) : trimEnd (trimEnd s) = trimEnd s.
Proof.
  induction s as [|c s IH]; [reflexivity|].
  rewrite trimEnd_cons. destruct (trimEnd s) as [|d r] eqn:E.
  - destruct (isWhiteSpace c) eqn:Ec; [reflexivity|].
    rewrite trimEnd_cons. simpl. now rewrite Ec.
  - rewrite trimEnd_cons, IH. reflexivity.
Qed.

Lemma trimEnd_keeps_head (c : N) (s : jsstring) :
  isWhiteSpace c = false -> exists r, trimEnd (c :: s) = c :: r.
Proof.
  intros H. rewrite trimEnd_cons. destruct (trimEnd s) as [|d r].
  - rewrite H. now exists [].
  - now exists (d :: r).
Qed.

Lemma trim_idem (s : jsstring) : trim (trim s) = trim s.
Proof.
  unfold trim. assert (Hh := trimStart_head s).
  destruct (trimStart s) as [|c u]; [reflexivity|].
  destruct (trimEnd_keeps_head c u Hh) as [r Hr].
  rewrite Hr, trimStart_id by exact Hh. rewrite <- Hr. apply trimEnd_idem.
Qed.

Lemma filter_trimStart (s : jsstring) :
  filter notWhiteSpace (trimStart s) = filter notWhiteSpace s.
Proof.
  induction s as [|c s IH]; [reflexivity|].
  cbn [trimStart filter]. unfold notWhiteSpace at 2.
  destruct (isWhiteSpace c) eqn:E; [exact IH|].
  cbn [filter]. unfold notWhiteSpace at 1. now rewrite E.
Qed.

Lemma filter_trimEnd (s : jsstring) :
  filter notWhiteSpace (trimEnd s) = filter notWhiteSpace s.
Proof.
  induction s as [|c s IH]; [reflexivity|].
  rewrite trimEnd_cons. cbn [filter]. rewrite <- IH.
  destruct (trimEnd s) as [|d r].
  - unfold notWhiteSpace. destruct (isWhiteSpace c) eqn:E; cbn [negb filter].
    + reflexivity.
    + unfold notWhiteSpace. now rewrite E.
  - reflexivity.
Qed.

Lemma filter_trim (s : jsstring) :
  filter notWhiteSpace (trim s) = filter notWhiteSpace s.
Proof. unfold trim. now rewrite filter_trimEnd, filter_trimStart. Qed.

Lemma splitSentences_keeps (s : jsstring) :
  forall (inSep afterTerm : bool) (acc : jsstring),
    filter notWhiteSpace (List.concat (splitSentences inSep afterTerm acc s))
    = filter notWhiteSpace (rev acc ++ s).
Proof.
  induction s as [|c s IH]; intros inSep afterTerm acc.
  - simpl. now rewrite !app_nil_r.
  - cbn [splitSentences]. destruct (isWhiteSpace c) eqn:E.
    + assert (Hc : forall a b, filter notWhiteSpace (a ++ c :: b)
                               = filter notWhiteSpace (a ++ b)).
      { intros a b. rewrite !filter_app. cbn [filter].
        unfold notWhiteSpace at 2. now rewrite E. }
      destruct inSep; [now rewrite IH, Hc|].
      destruct afterTerm.
      * cbn [List.concat]. rewrite filter_app, IH. cbn [rev app].
        now rewrite Hc, filter_app.
      * rewrite IH. cbn [rev]. now rewrite <- app_assoc.
    + rewrite IH. cbn [rev]. now rewrite <- app_assoc.
Qed.

Lemma filter_concat_map_trim (l : list jsstring) :
  filter notWhiteSpace (List.concat (map trim l))
  = filter notWhiteSpace (List.concat l).
Proof.
  induction l as [|x l IH]; [reflexivity|].
  cbn [map List.concat]. now rewrite !filter_app, filter_trim, IH.
Qed.

Lemma concat_filter_nonempty (l : list jsstring) :
  List.concat (filter (fun segment => 0 <? List.length segment) l)
  = List.concat l.
Proof.
  induction l as [|x l IH]; [reflexivity|].
  destruct x as [|c x]; simpl; [exact IH | now rewrite IH].
Qed.

Lemma hasBreak_substring (a b : jsstring) :
  isSubstring a b -> hasBreak a -> hasBreak b.
Proof.
  intros [p [q Hb]] [pre [t [w [post [Ha [Ht Hw]]]]]].
  exists (p ++ pre), t, w, (post ++ q). subst. split; [|auto].
  rewrite <- !app_assoc. reflexivity.
Qed.

(** While a piece is being read, [acc] holds no break and [afterTerm] tells
    whether its last unit is a terminator. *)
Lemma hasBreak_snoc (acc : jsstring) (c : N) :
  ~ hasBreak (rev acc) ->
  (match acc with
   | t :: _ => isTerminator t = true -> isWhiteSpace c = false
   | [] => True
   end) ->
  ~ hasBreak (rev (c :: acc)).
Proof.
  intros Hacc Hlast [pre [t [w [post [E [Ht Hw]]]]]].
  cbn [rev] in E.
  destruct (rev post) as [|z tsop] eqn:Ep.
  - assert (post = []) by (apply (f_equal (@rev N)) in Ep;
                           now rewrite rev_involutive in Ep).
    subst post.
    change (pre ++ [t; w]) with (pre ++ [t] ++ [w]) in E.
    rewrite app_assoc in E. apply app_inj_tail in E. destruct E as [E ->].
    destruct acc as [|t' acc].
    + destruct pre; discriminate.
    + cbn [rev] in E. apply app_inj_tail in E. destruct E as [_ ->].
      rewrite (Hlast Ht) in Hw. discriminate.
  - assert (Hp : post = rev tsop ++ [z]).
    { apply (f_equal (@rev N)) in Ep. rewrite rev_involutive in Ep.
      exact Ep. }
    subst post.
    change (pre ++ t :: w :: rev tsop ++ [z])
      with (pre ++ (t :: w :: rev tsop) ++ [z]) in E.
    rewrite app_assoc in E. apply app_inj_tail in E. destruct E as [E _].
    apply Hacc. exists pre, t, w, (rev tsop). auto.
Qed.

Lemma accState_nil (inSep : bool) : accState inSep false [].
Proof.
  split; [|split; [reflexivity | reflexivity]].
  intros [pre [t [w [post [E _]]]]]. destruct pre; discriminate.
Qed.

Lemma splitSentences_no_break (s : jsstring) :
  forall (inSep afterTerm : bool) (acc seg : jsstring),
    accState inSep afterTerm acc ->
    In seg (splitSentences inSep afterTerm acc s) ->
    ~ hasBreak seg.
Proof.
  induction s as [|c s IH]; intros inSep afterTerm acc seg [Hacc [Hat Hsep]] Hin.
  - simpl in Hin. destruct Hin as [<- | []]. exact Hacc.
  - assert (Hpush : forall b,
               (match acc with
                | t :: _ => isTerminator t = true -> isWhiteSpace c = false
                | [] => True
                end) ->
               b = isTerminator c ->
               In seg (splitSentences false b (c :: acc) s) -> ~ hasBreak seg).
    { intros b Hlast Hb Hseg. apply (IH false b (c :: acc) seg); [|exact Hseg].
      split; [now apply hasBreak_snoc|]. split; [exact Hb | discriminate]. }
    cbn [splitSentences] in Hin. destruct (isWhiteSpace c) eqn:E.
    + destruct inSep.
      * rewrite (Hsep eq_refl) in *.
        apply (IH true false [] seg); [apply accState_nil | exact Hin].
      * destruct afterTerm.
        -- destruct Hin as [<- | Hin]; [exact Hacc|].
           apply (IH true false [] seg); [apply accState_nil | exact Hin].
        -- apply (IH false false (c :: acc) seg); [|exact Hin].
           split; [|split; [|discriminate]].
           ++ apply hasBreak_snoc; [exact Hacc|].
              destruct acc as [|t acc]; [exact I|].
              intros Ht. rewrite Ht in Hat. discriminate.
           ++ cbn. unfold isTerminator, isWhiteSpace in *.
              destruct (c =? 46)%N eqn:E1; [apply N.eqb_eq in E1; subst; discriminate|].
              destruct (c =? 33)%N eqn:E2; [apply N.eqb_eq in E2; subst; discriminate|].
              destruct (c =? 63)%N eqn:E3; [apply N.eqb_eq in E3; subst; discriminate|].
              reflexivity.
    + apply (Hpush (isTerminator c)); [|reflexivity | exact Hin].
      destruct acc as [|t acc]; [exact I | intros _; reflexivity].
Qed.

Lemma trim_nonempty_head (s : jsstring) :
  match trim s with
  | [] => True
  | c :: _ => isWhiteSpace c = false
  end.
Proof.
  unfold trim. assert (Hh := trimStart_head s).
  destruct (trimStart s) as [|c u]; [exact I|].
  destruct (trimEnd_keeps_head c u Hh) as [r ->]. exact Hh.
Qed.

(** X5: every sentence is a non-empty, trimmed piece of the transcript
    that holds no sentence break (a terminator followed by whitespace), and
    the sentences together keep every non-whitespace unit of the transcript
    in order. *)
Theorem sentences_partition (raw : jsstring) :
  Forall (fun s => s <> [] /\ trim s = s /\ isSubstring s raw
                   /\ ~ hasBreak s)
         (sentences raw)
  /\ filter notWhiteSpace (List.concat (sentences raw))
     = filter notWhiteSpace raw.
Proof.
  split.
  - apply Forall_forall. intros s Hs.
    assert (Hsub := sentences_substring raw s Hs).
    unfold sentences in Hs. apply filter_In in Hs. destruct Hs as [Hin Hlen].
    apply in_map_iff in Hin. destruct Hin as [seg [<- Hin]].
    split; [intros E; rewrite E in Hlen; discriminate|].
    split; [apply trim_idem|]. split; [exact Hsub|].
    intros Hb.
    apply (splitSentences_no_break (text raw) false false [] seg
             (accState_nil false) Hin).
    apply (hasBreak_substring (trim seg)); [apply trim_substring | exact Hb].
  - unfold sentences. rewrite concat_filter_nonempty, filter_concat_map_trim.
    rewrite splitSentences_keeps. cbn [rev app]. unfold text.
    apply filter_trim.
Qed.

(** ** Keyword signals *)

Lemma StronglySorted_app_order {A} (R : A -> A -> Prop) (a b : list A) :
  StronglySorted R (a ++ b) ->
  forall x y, In x a -> In y b -> R x y.
Proof.
  induction a as [|z a IH]; intros Hs x y Hx Hy; [contradiction|].
  cbn [app] in Hs. inversion Hs as [|? ? Hs' Hall]; subst.
  destruct Hx as [<- | Hx].
  - rewrite Forall_forall in Hall. apply Hall, in_or_app. now right.
  - now apply IH.
Qed.

Lemma StronglySorted_firstn {A} (R : A -> A -> Prop) (n : nat) (l : list A) :
  StronglySorted R l -> StronglySorted R (firstn n l).
Proof.
  revert n. induction l as [|x l IH]; intros n Hs.
  - rewrite firstn_nil. constructor.
  - destruct n as [|n]; [constructor|].
    inversion Hs as [|? ? Hs' Hall]; subst. cbn [firstn]. constructor.
    + now apply IH.
    + rewrite Forall_forall in *. intros y Hy. apply Hall.
      now apply (In_firstn n).
Qed.

Lemma rankedKeywords_In (text : jsstring) (keywords : list jsstring)
    (kw : jsstring) (n : nat) :
  In (kw, n) (rankedKeywords text keywords)
  <-> In kw keywords /\ n = matchCount text kw /\ 0 < n.
Proof.
  unfold rankedKeywords. split.
  - intros H.
    apply (Permutation_in _ (sortDesc_perm snd _)) in H.
    apply filter_In in H. destruct H as [H Hpos].
    apply in_map_iff in H. destruct H as [kw' [E Hin]].
    injection E as -> <-. cbn [snd] in Hpos. apply Nat.ltb_lt in Hpos. auto.
  - intros [Hin [-> Hpos]].
    apply (Permutation_in _ (Permutation_sym (sortDesc_perm snd _))).
    apply filter_In. split.
    + apply in_map_iff. now exists kw.
    + cbn [snd]. now apply Nat.ltb_lt.
Qed.

Lemma list_sum_zero (l : list nat) :
  list_sum l = 0 <-> forall n, In n l -> n = 0.
Proof.
  induction l as [|x l IH]; simpl.
  - split; [intros _ n [] | reflexivity].
  - split.
    + intros H n [<- | Hin]; [lia|]. apply IH; [lia | exact Hin].
    + intros H. rewrite (H x) by now left.
      apply IH. intros n Hn. apply H. now right.
Qed.

Lemma rankedKeywords_nil (text : jsstring) (keywords : list jsstring) :
  rankedKeywords text keywords = [] <-> countKeywordHits text keywords = 0.
Proof.
  unfold countKeywordHits. rewrite fold_left_sum. cbn [Nat.add].
  rewrite list_sum_zero. split.
  - intros H n Hn. apply in_map_iff in Hn. destruct Hn as [kw [<- Hin]].
    destruct (matchCount text kw) as [|m] eqn:E; [reflexivity|].
    exfalso.
    assert (Hr : In (kw, S m) (rankedKeywords text keywords))
      by (apply rankedKeywords_In; repeat split; [exact Hin | auto | lia]).
    rewrite H in Hr. contradiction.
  - intros H. destruct (rankedKeywords text keywords) as [|[kw n] r] eqn:E;
      [reflexivity|].
    exfalso.
    assert (Hr : In (kw, n) (rankedKeywords text keywords))
      by (rewrite E; now left).
    apply rankedKeywords_In in Hr. destruct Hr as [Hin [-> Hpos]].
    assert (Hz : matchCount text kw = 0)
      by (apply H, in_map_iff; now exists kw).
    lia.
Qed.

(** X6: the signals are the (at most four) most frequent keywords of the
    list that occur in the text, printed as [keyword(count)] in descending
    order of count; no keyword left out occurs more often than one kept,
    and there is no signal exactly when the list has no hit at all. *)
Theorem keyword_signals (text : jsstring) (keywords : list jsstring) :
  exists kept dropped,
    rankedKeywords text keywords = kept ++ dropped
    /\ extractKeywordSignals text keywords = map formatSignal kept
    /\ List.length kept = Nat.min 4 (List.length (kept ++ dropped))
    /\ (forall kw n,
          In (kw, n) (kept ++ dropped)
          <-> In kw keywords /\ n = matchCount text kw /\ 0 < n)
    /\ StronglySorted (fun a b => snd b <= snd a) kept
    /\ (forall a b, In a kept -> In b dropped -> snd b <= snd a)
    /\ (extractKeywordSignals text keywords = []
        <-> countKeywordHits text keywords = 0).
Proof.
  exists (firstn 4 (rankedKeywords text keywords)),
         (skipn 4 (rankedKeywords text keywords)).
  assert (Hsorted : StronglySorted (fun a b : jsstring * nat => snd b <= snd a)
                      (rankedKeywords text keywords))
    by apply sortDesc_sorted.
  rewrite firstn_skipn.
  split; [reflexivity|]. split; [reflexivity|].
  split; [apply length_firstn|].
  split; [intros kw n; apply rankedKeywords_In|].
  split; [now apply StronglySorted_firstn|].
  split.
  - apply (StronglySorted_app_order (fun a b : jsstring * nat => snd b <= snd a)).
    now rewrite firstn_skipn.
  - rewrite <- rankedKeywords_nil.
    change (extractKeywordSignals text keywords)
      with (map formatSignal (firstn 4 (rankedKeywords text keywords))).
    destruct (rankedKeywords text keywords) as [|x r];
      [split; reflexivity | split; discriminate].
Qed.

Lemma signals_nil (text : jsstring) (keywords : list jsstring) :
  extractKeywordSignals text keywords = []
  <-> countKeywordHits text keywords = 0.
Proof.
  rewrite <- rankedKeywords_nil.
  change (extractKeywordSignals text keywords)
    with (map formatSignal (firstn 4 (rankedKeywords text keywords))).
  destruct (rankedKeywords text keywords) as [|x r];
    [split; reflexivity | split; discriminate].
Qed.

Lemma density_zero (raw : jsstring) : (density raw 0 == 0)%Q.
Proof. unfold density. reflexivity. Qed.

(** X7: a keyword list without any hit shows as the value "0.0%" and the
    copy's "none" detail; with a hit the cue's detail is the copy's template
    applied to a non-empty list of signals.  This holds for the hedging
    and for the pressure cue. *)
Theorem cue_detail_follows_hits (raw : jsstring) (l : Locale) :
  exists r hedging pressure,
    analyzeTranscriptFallback raw (tag l) = Normal r
    /\ nth_error (cues r) 0 = Some hedging
    /\ nth_error (cues r) 1 = Some pressure
    /\ (if hedgingHits raw =? 0
        then cueValue hedging = lit "0.0%"
             /\ cueRisk hedging = Baseline
             /\ cueDetail hedging = hedgingDetailNone (copyOf l)
        else hedgingSignals raw <> []
             /\ cueDetail hedging
                = hedgingDetail (copyOf l) (hedgingSignals raw))
    /\ (if pressureHits raw =? 0
        then cueValue pressure = lit "0.0%"
             /\ cueRisk pressure = Baseline
             /\ cueDetail pressure = pressureDetailNone (copyOf l)
        else pressureSignals raw <> []
             /\ cueDetail pressure
                = pressureDetail (copyOf l) (pressureSignals raw)).
Proof.
  exists (resultOf raw l). do 2 eexists.
  split; [apply analyze_supported|].
  cbn [resultOf cues]. unfold cuesOf. cbn [app nth_error].
  split; [reflexivity|]. split; [reflexivity|].
  cbn [cueValue cueRisk cueDetail]. split.
  - destruct (hedgingHits raw =? 0) eqn:E.
    + apply Nat.eqb_eq in E.
      assert (Hs : hedgingSignals raw = []) by (apply signals_nil; exact E).
      unfold hedgingRisk, hedgingDensity. rewrite Hs, E.
      rewrite (percent1_Qeq _ _ (density_zero raw)).
      rewrite !(gtQ_Qeq _ _ _ (density_zero raw)).
      repeat split; reflexivity.
    + apply Nat.eqb_neq in E.
      assert (Hs : hedgingSignals raw <> [])
        by (intros Hs; apply signals_nil in Hs; contradiction).
      split; [exact Hs|].
      destruct (hedgingSignals raw); [contradiction | reflexivity].
  - destruct (pressureHits raw =? 0) eqn:E.
    + apply Nat.eqb_eq in E.
      assert (Hs : pressureSignals raw = []) by (apply signals_nil; exact E).
      unfold pressureRisk, pressureDensity. rewrite Hs, E.
      rewrite (percent1_Qeq _ _ (density_zero raw)).
      rewrite !(gtQ_Qeq _ _ _ (density_zero raw)).
      repeat split; reflexivity.
    + apply Nat.eqb_neq in E.
      assert (Hs : pressureSignals raw <> [])
        by (intros Hs; apply signals_nil in Hs; contradiction).
      split; [exact Hs|].
      destruct (pressureSignals raw); [contradiction | reflexivity].
Qed.

(** ** Surrounding whitespace, and the locale *)

Lemma trimStart_app_whitespace (pre s : jsstring) :
  forallb isWhiteSpace pre = true -> trimStart (pre ++ s) = trimStart s.
Proof.
  induction pre as [|c pre IH]; intros H; [reflexivity|].
  cbn [forallb] in H. apply andb_prop in H. destruct H as [Hc Hpre].
  cbn [app trimStart]. rewrite Hc. now apply IH.
Qed.

Lemma trimEnd_whitespace (s : jsstring) :
  forallb isWhiteSpace s = true -> trimEnd s = [].
Proof.
  induction s as [|c s IH]; intros H; [reflexivity|].
  cbn [forallb] in H. apply andb_prop in H. destruct H as [Hc Hs].
  rewrite trimEnd_cons, (IH Hs), Hc. reflexivity.
Qed.

Lemma trimEnd_app_whitespace (s post : jsstring) :
  forallb isWhiteSpace post = true -> trimEnd (s ++ post) = trimEnd s.
Proof.
  intros H. induction s as [|c s IH].
  - now apply trimEnd_whitespace.
  - cbn [app]. now rewrite !trimEnd_cons, IH.
Qed.

Lemma trim_app_whitespace (pre s post : jsstring) :
  forallb isWhiteSpace pre = true ->
  forallb isWhiteSpace post = true ->
  trim (pre ++ s ++ post) = trim s.
Proof.
  intros Hpre Hpost. unfold trim. rewrite trimStart_app_whitespace by exact Hpre.
  induction s as [|c s IH].
  - cbn [app]. now rewrite trimStart_whitespace.
  - cbn [app trimStart]. destruct (isWhiteSpace c); [exact IH|].
    change (c :: s ++ post) with ((c :: s) ++ post).
    now apply trimEnd_app_whitespace.
Qed.

Lemma analyze_trim (raw raw' locale : jsstring) :
  trim raw = trim raw' ->
  analyzeTranscriptFallback raw locale = analyzeTranscriptFallback raw' locale.
Proof.
  intros H.
  unfold analyzeTranscriptFallback, cuesOf, metricsOf, coveragePercent,
    hedgingRisk, pressureRisk, negationRisk, conflictRisk, lieProbabilityOf,
    confidenceScoreOf, baseScore, coverageFactor, stabilityPenalty,
    hedgingSignals, pressureSignals, highlightedSentences,
    contradictionCandidates, hedgingDensity, pressureDensity,
    negationDensity, density, hedgingHits, pressureHits, negationHits,
    sentences, words, lower, text.
  rewrite H. reflexivity.
Qed.

(** X8: whitespace around the transcript does not matter: with any run of
    whitespace put before and after the text, the call ends the same way,
    whatever the locale. *)
Theorem surrounding_whitespace_ignored (pre raw post locale : jsstring) :
  forallb isWhiteSpace pre = true ->
  forallb isWhiteSpace post = true ->
  analyzeTranscriptFallback (pre ++ raw ++ post) locale
  = analyzeTranscriptFallback raw locale.
Proof.
  intros Hpre Hpost. apply analyze_trim. now apply trim_app_whitespace.
Qed.

Lemma surrounding_whitespace_ignored_witness :
  analyzeTranscriptFallback
    (lit "  " ++ lit "I guess so." ++ [10%N; 9%N; 160%N]) (lit "en")
  = analyzeTranscriptFallback (lit "I guess so.") (lit "en").
Proof.
  apply surrounding_whitespace_ignored; reflexivity.
Defined.

Lemma eqUnits_eq (a b : jsstring) : eqUnits a b = true <-> a = b.
Proof.
  revert b. induction a as [|x a IH]; intros [|y b]; cbn [eqUnits];
    try (split; [discriminate | discriminate]); [split; reflexivity|].
  rewrite andb_true_iff, N.eqb_eq, IH. split.
  - intros [-> ->]. reflexivity.
  - intros E. injection E as -> ->. auto.
Qed.

(** X9: the call returns a result exactly when the locale is ['ko'] or
    ['en']; for every other locale value it ends in a [TypeError], whatever
    the text. *)
Theorem result_iff_supported_locale (raw locale : jsstring) :
  ((exists r, analyzeTranscriptFallback raw locale = Normal r)
   <-> locale = lit "ko" \/ locale = lit "en")
  /\ (analyzeTranscriptFallback raw locale = Throw TypeError
      <-> locale <> lit "ko" /\ locale <> lit "en").
Proof.
  assert (Hko : locale = lit "ko" ->
                analyzeTranscriptFallback raw locale = Normal (resultOf raw ko))
    by (intros ->; apply (analyze_supported raw ko)).
  assert (Hen : locale = lit "en" ->
                analyzeTranscriptFallback raw locale = Normal (resultOf raw en))
    by (intros ->; apply (analyze_supported raw en)).
  assert (Hother : locale <> lit "ko" -> locale <> lit "en" ->
                   analyzeTranscriptFallback raw locale = Throw TypeError).
  { intros H1 H2. apply throws_without_entry. unfold fallbackDictionary.
    destruct (eqUnits locale (lit "ko")) eqn:E1;
      [apply eqUnits_eq in E1; contradiction|].
    destruct (eqUnits locale (lit "en")) eqn:E2;
      [apply eqUnits_eq in E2; contradiction|].
    reflexivity. }
  destruct (list_eq_dec N.eq_dec locale (lit "ko")) as [Ek | Nk];
    [|destruct (list_eq_dec N.eq_dec locale (lit "en")) as [Ee | Ne]].
  - rewrite (Hko Ek). split; split; try (intros; eauto; fail).
    + discriminate.
    + intros [H _]. contradiction.
  - rewrite (Hen Ee). split; split; try (intros; eauto; fail).
    + discriminate.
    + intros [_ H]. contradiction.
  - rewrite (Hother Nk Ne). split; split; try (intros; eauto; fail).
    + intros [r Hr]. discriminate.
    + intros [H | H]; contradiction.
Qed.

(** ** Letter case *)

Lemma canonicalize_whitespace (c : N) :
  isWhiteSpace (canonicalize c) = isWhiteSpace c.
Proof.
  unfold canonicalize.
  destruct ((97 <=? c) && (c <=? 122))%N eqn:E; [|reflexivity].
  assert (H1 : isWhiteSpace c = false)
    by (unfold isWhiteSpace; bool_to_prop; lia).
  assert (H2 : isWhiteSpace (c - 32) = false)
    by (unfold isWhiteSpace; bool_to_prop; lia).
  now rewrite H1, H2.
Qed.

Lemma canonicalize_terminator (c : N) :
  isTerminator (canonicalize c) = isTerminator c.
Proof.
  unfold canonicalize.
  destruct ((97 <=? c) && (c <=? 122))%N eqn:E; [|reflexivity].
  assert (H1 : isTerminator c = false)
    by (unfold isTerminator; bool_to_prop; lia).
  assert (H2 : isTerminator (c - 32) = false)
    by (unfold isTerminator; bool_to_prop; lia).
  now rewrite H1, H2.
Qed.

Lemma lowerUnit_canonicalize (c : N) :
  lowerUnit (canonicalize c) = lowerUnit c.
Proof.
  unfold canonicalize.
  destruct ((97 <=? c) && (c <=? 122))%N eqn:E; [|reflexivity].
  apply andb_prop in E. destruct E as [E1 E2].
  apply N.leb_le in E1. apply N.leb_le in E2.
  unfold lowerUnit.
  assert (H1 : ((65 <=? c - 32) && (c - 32 <=? 90))%N = true)
    by (bool_to_prop; lia).
  assert (H2 : ((65 <=? c) && (c <=? 90))%N = false)
    by (bool_to_prop; lia).
  assert (H3 : (c =? 8490)%N = false) by (apply N.eqb_neq; lia).
  assert (H4 : (c =? 304)%N = false) by (apply N.eqb_neq; lia).
  rewrite H1, H2, H3, H4. f_equal. lia.
Qed.

Lemma toLowerCase_canonicalize (s : jsstring) :
  toLowerCase (map canonicalize s) = toLowerCase s.
Proof.
  unfold toLowerCase. induction s as [|c s IH]; [reflexivity|].
  cbn [map flat_map]. now rewrite lowerUnit_canonicalize, IH.
Qed.

Lemma trimStart_canonicalize (s : jsstring) :
  trimStart (map canonicalize s) = map canonicalize (trimStart s).
Proof.
  induction s as [|c s IH]; [reflexivity|].
  cbn [map trimStart]. rewrite canonicalize_whitespace.
  destruct (isWhiteSpace c); [exact IH | reflexivity].
Qed.

Lemma trimEnd_canonicalize (s : jsstring) :
  trimEnd (map canonicalize s) = map canonicalize (trimEnd s).
Proof.
  induction s as [|c s IH]; [reflexivity|].
  cbn [map]. rewrite !trimEnd_cons, IH, canonicalize_whitespace.
  destruct (trimEnd s); [destruct (isWhiteSpace c)|]; reflexivity.
Qed.

Lemma trim_canonicalize (s : jsstring) :
  trim (map canonicalize s) = map canonicalize (trim s).
Proof.
  unfold trim. now rewrite trimStart_canonicalize, trimEnd_canonicalize.
Qed.

Lemma splitSentences_canonicalize (s : jsstring) :
  forall (inSep afterTerm : bool) (acc : jsstring),
    splitSentences inSep afterTerm (map canonicalize acc)
                   (map canonicalize s)
    = map (map canonicalize) (splitSentences inSep afterTerm acc s).
Proof.
  induction s as [|c s IH]; intros inSep afterTerm acc.
  - cbn [map splitSentences]. now rewrite map_rev.
  - cbn [map splitSentences].
    rewrite canonicalize_whitespace, canonicalize_terminator.
    destruct (isWhiteSpace c).
    + destruct inSep; [apply IH|]. destruct afterTerm.
      * cbn [map]. rewrite map_rev. f_equal. apply (IH true false []).
      * apply (IH false false (c :: acc)).
    + apply (IH false (isTerminator c) (c :: acc)).
Qed.

Lemma filter_map_commute {A B} (g : A -> B) (p : B -> bool) (l : list A) :
  filter p (map g l) = map g (filter (fun x => p (g x)) l).
Proof.
  induction l as [|x l IH]; [reflexivity|].
  cbn [map filter]. rewrite IH. destruct (p (g x)); reflexivity.
Qed.

Lemma sentences_canonicalize (raw : jsstring) :
  sentences (map canonicalize raw) = map (map canonicalize) (sentences raw).
Proof.
  unfold sentences, text. rewrite trim_canonicalize.
  pose proof (splitSentences_canonicalize (trim raw) false false []) as E.
  change (map canonicalize []) with (@nil N) in E. rewrite E. clear E.
  rewrite map_map.
  rewrite (map_ext (fun x => trim (map canonicalize x))
                   (fun x => map canonicalize (trim x)))
    by (intros x; apply trim_canonicalize).
  rewrite <- (map_map trim (map canonicalize)).
  rewrite filter_map_commute. f_equal.
  apply filter_ext. intros x. now rewrite length_map.
Qed.

Lemma lower_canonicalize (raw : jsstring) :
  lower (map canonicalize raw) = lower raw.
Proof.
  unfold lower, text. now rewrite trim_canonicalize, toLowerCase_canonicalize.
Qed.

Lemma isConflicting_canonicalize (s : jsstring) :
  isConflicting (map canonicalize s) = isConflicting s.
Proof. unfold isConflicting. now rewrite toLowerCase_canonicalize. Qed.

Lemma keywordHits_canonicalize (s : jsstring) :
  keywordHits (map canonicalize s) = keywordHits s.
Proof. unfold keywordHits. now rewrite toLowerCase_canonicalize. Qed.

Lemma insertDesc_map {A B} (g : A -> B) (key : A -> nat) (key' : B -> nat)
    (x : A) (l : list A) :
  (forall y, key' (g y) = key y) ->
  insertDesc key' (g x) (map g l) = map g (insertDesc key x l).
Proof.
  intros H. induction l as [|y l IH]; [reflexivity|].
  cbn [map insertDesc]. rewrite !H, IH.
  destruct (key x <? key y); reflexivity.
Qed.

Lemma sortDesc_map {A B} (g : A -> B) (key : A -> nat) (key' : B -> nat)
    (l : list A) :
  (forall y, key' (g y) = key y) ->
  sortDesc key' (map g l) = map g (sortDesc key l).
Proof.
  intros H. induction l as [|x l IH]; [reflexivity|].
  cbn [map sortDesc fold_right]. fold (sortDesc key' (map g l)).
  fold (sortDesc key l). rewrite IH. now apply insertDesc_map.
Qed.

Lemma highlightOf_canonicalize (ss : list jsstring) :
  highlightOf (map (map canonicalize) ss)
  = map (map canonicalize) (highlightOf ss).
Proof.
  unfold highlightOf.
  set (G := fun e : jsstring * nat => (map canonicalize (fst e), snd e)).
  assert (E1 : map (fun sentence => (sentence, keywordHits sentence))
                   (map (map canonicalize) ss)
               = map G (map (fun sentence => (sentence, keywordHits sentence))
                            ss)).
  { rewrite !map_map. apply map_ext. intros s. unfold G. cbn [fst snd].
    now rewrite keywordHits_canonicalize. }
  rewrite E1, filter_map_commute.
  rewrite (filter_ext (fun x => 0 <? snd (G x)) (fun x => 0 <? snd x))
    by reflexivity.
  rewrite (sortDesc_map G snd snd) by reflexivity.
  rewrite firstn_map, !map_map. reflexivity.
Qed.

Lemma length_filter_canonicalize (ss : list jsstring) :
  List.length (filter isConflicting (map (map canonicalize) ss))
  = List.length (filter isConflicting ss).
Proof.
  rewrite filter_map_commute, length_map.
  apply (f_equal (@List.length jsstring)).
  apply filter_ext. intros s. apply isConflicting_canonicalize.
Qed.

Lemma highlightedSentences_highlightOf (raw : jsstring) :
  highlightedSentences raw = highlightOf (sentences raw).
Proof. reflexivity. Qed.

Lemma same_letters_lower (a b : jsstring) :
  map canonicalize a = map canonicalize b -> lower a = lower b.
Proof.
  intros H. now rewrite <- (lower_canonicalize a), H, lower_canonicalize.
Qed.

Lemma same_letters_sentences (a b : jsstring) :
  map canonicalize a = map canonicalize b ->
  map (map canonicalize) (sentences a) = map (map canonicalize) (sentences b).
Proof. intros H. now rewrite <- !sentences_canonicalize, H. Qed.

Lemma same_letters_highlighted (a b : jsstring) :
  map canonicalize a = map canonicalize b ->
  map (map canonicalize) (highlightedSentences a)
  = map (map canonicalize) (highlightedSentences b).
Proof.
  intros H. rewrite !highlightedSentences_highlightOf.
  rewrite <- !highlightOf_canonicalize.
  now rewrite (same_letters_sentences a b H).
Qed.

Lemma same_letters_candidates (a b : jsstring) :
  map canonicalize a = map canonicalize b ->
  List.length (contradictionCandidates a)
  = List.length (contradictionCandidates b).
Proof.
  intros H. unfold contradictionCandidates. rewrite !length_firstn.
  rewrite <- (length_filter_canonicalize (sentences a)).
  rewrite <- (length_filter_canonicalize (sentences b)).
  now rewrite (same_letters_sentences a b H).
Qed.

Lemma same_lower_words (a b : jsstring) :
  lower a = lower b -> words a = words b.
Proof. intros H. unfold words. now rewrite H. Qed.

Lemma same_lower_densities (a b : jsstring) :
  lower a = lower b ->
  hedgingDensity a = hedgingDensity b
  /\ pressureDensity a = pressureDensity b
  /\ negationDensity a = negationDensity b.
Proof.
  intros H. pose proof (same_lower_words a b H) as Hw.
  unfold hedgingDensity, pressureDensity, negationDensity, density,
    hedgingHits, pressureHits, negationHits.
  rewrite H, Hw. repeat split; reflexivity.
Qed.

Lemma same_lower_scores (a b : jsstring) :
  lower a = lower b ->
  List.length (contradictionCandidates a)
  = List.length (contradictionCandidates b) ->
  lieProbabilityOf a = lieProbabilityOf b
  /\ confidenceScoreOf a = confidenceScoreOf b.
Proof.
  intros H Hc. pose proof (same_lower_words a b H) as Hw.
  destruct (same_lower_densities a b H) as (H1 & H2 & H3).
  unfold lieProbabilityOf, confidenceScoreOf, baseScore, coverageFactor,
    stabilityPenalty.
  rewrite H1, H2, H3, Hc, Hw. split; reflexivity.
Qed.

Lemma same_lower_cues (a b : jsstring) (copy : FallbackCopy) :
  lower a = lower b ->
  List.length (contradictionCandidates a)
  = List.length (contradictionCandidates b) ->
  cuesOf a copy = cuesOf b copy.
Proof.
  intros H Hc. destruct (same_lower_densities a b H) as (H1 & H2 & H3).
  unfold cuesOf, hedgingRisk, pressureRisk, negationRisk, conflictRisk,
    hedgingSignals, pressureSignals.
  rewrite H1, H2, H3, Hc, H. reflexivity.
Qed.

Lemma same_lower_metrics (a b : jsstring) (copy : FallbackCopy) :
  lower a = lower b ->
  List.length (sentences a) = List.length (sentences b) ->
  List.length (highlightedSentences a)
  = List.length (highlightedSentences b) ->
  metricsOf a copy = metricsOf b copy.
Proof.
  intros H Hs Hh. pose proof (same_lower_words a b H) as Hw.
  destruct (same_lower_densities a b H) as (_ & _ & H3).
  unfold metricsOf, coveragePercent.
  rewrite H3, Hs, Hh, Hw. reflexivity.
Qed.

Lemma map_eq_length {A B} (g : A -> B) (l1 l2 : list A) :
  map g l1 = map g l2 -> List.length l1 = List.length l2.
Proof.
  intros H. apply (f_equal (@List.length B)) in H.
  now rewrite !length_map in H.
Qed.

Lemma evidenceEntries_same_letters (copy : EvidenceCopy)
    (h1 h2 hs ps : list jsstring) :
  map (map canonicalize) h1 = map (map canonicalize) h2 ->
  map rationale (evidenceEntries copy h1 hs ps)
  = map rationale (evidenceEntries copy h2 hs ps)
  /\ map (fun e => map canonicalize (quote e)) (evidenceEntries copy h1 hs ps)
     = map (fun e => map canonicalize (quote e))
           (evidenceEntries copy h2 hs ps).
Proof.
  intros H.
  assert (Hlen : List.length h1 = List.length h2)
    by exact (map_eq_length _ _ _ H).
  unfold evidenceEntries. rewrite Hlen.
  destruct (List.length h2 =? 0); [split; reflexivity|].
  split.
  - rewrite !(mapIndexed_rationale (evidenceRationale copy hs ps)), Hlen.
    reflexivity.
  - rewrite <- !(map_map quote (map canonicalize)).
    rewrite !(mapIndexed_quote
                (fun _ index => evidenceRationale copy hs ps index)).
    exact H.
Qed.

(** X10: letter case of the transcript does not matter.  Two transcripts
    that differ only in the case of the letters a-z get the same scores,
    summary, cues and metrics, the same rationales, and quotes that differ
    only in letter case. *)
Theorem letter_case_ignored (a b : jsstring) (l : Locale) :
  map canonicalize a = map canonicalize b ->
  exists ra rb,
    analyzeTranscriptFallback a (tag l) = Normal ra
    /\ analyzeTranscriptFallback b (tag l) = Normal rb
    /\ lieProbability ra = lieProbability rb
    /\ confidenceScore ra = confidenceScore rb
    /\ summary ra = summary rb
    /\ cues ra = cues rb
    /\ metrics ra = metrics rb
    /\ map rationale (evidence ra) = map rationale (evidence rb)
    /\ map (fun e => map canonicalize (quote e)) (evidence ra)
       = map (fun e => map canonicalize (quote e)) (evidence rb).
Proof.
  intros H.
  exists (resultOf a l), (resultOf b l).
  split; [apply analyze_supported|]. split; [apply analyze_supported|].
  pose proof (same_letters_lower a b H) as Hl.
  pose proof (same_letters_candidates a b H) as Hc.
  pose proof (same_letters_highlighted a b H) as Hh.
  pose proof (same_letters_sentences a b H) as Hs.
  destruct (same_lower_scores a b Hl Hc) as (Hlie & Hconf).
  destruct (same_lower_densities a b Hl) as (H1 & H2 & _).
  cbn [resultOf lieProbability confidenceScore summary cues metrics evidence].
  split; [exact Hlie|]. split; [exact Hconf|].
  split; [now rewrite H1, H2, Hlie|].
  split; [now apply same_lower_cues|].
  split.
  - apply same_lower_metrics;
      [exact Hl | exact (map_eq_length _ _ _ Hs)
       | exact (map_eq_length _ _ _ Hh)].
  - unfold hedgingSignals, pressureSignals. rewrite Hl.
    apply evidenceEntries_same_letters. exact Hh.
Qed.

Lemma letter_case_ignored_witness :
  map canonicalize (lit "Maybe I was There. HONESTLY!")
  = map canonicalize (lit "maybe i was there. honestly!")
  /\ exists ra rb,
    analyzeTranscriptFallback (lit "Maybe I was There. HONESTLY!") (tag en)
    = Normal ra
    /\ analyzeTranscriptFallback (lit "maybe i was there. honestly!") (tag en)
       = Normal rb
    /\ lieProbability ra = lieProbability rb
    /\ confidenceScore ra = confidenceScore rb
    /\ summary ra = summary rb
    /\ cues ra = cues rb
    /\ metrics ra = metrics rb
    /\ map rationale (evidence ra) = map rationale (evidence rb)
    /\ map (fun e => map canonicalize (quote e)) (evidence ra)
       = map (fun e => map canonicalize (quote e)) (evidence rb).
Proof.
  split; [vm_compute; reflexivity|].
  apply (letter_case_ignored (lit "Maybe I was There. HONESTLY!")
           (lit "maybe i was there. honestly!") en).
  vm_compute; reflexivity.
Defined.

(** ** The route: locale and text handed to the engine *)

Lemma selectLocale_cases (v : FormValue) :
  (v = FormString (lit "en") /\ selectLocale v = lit "en")
  \/ (v <> FormString (lit "en") /\ selectLocale v = lit "ko").
Proof.
  destruct v as [value| |]; [|right; split; [discriminate|reflexivity]..].
  unfold selectLocale.
  destruct (eqUnits value (lit "en")) eqn:Een.
  - apply eqUnits_eq in Een. subst value. left. split; reflexivity.
  - right. split.
    + intros H. injection H as ->. vm_compute in Een. discriminate.
    + cbn [orb]. destruct (eqUnits value (lit "ko")) eqn:Eko; [|reflexivity].
      now apply eqUnits_eq in Eko.
Qed.

(** X11: the route never makes the engine throw.  Whatever the [locale]
    form field holds, the engine is called with ['en'] when the field is
    the string "en" and with ['ko'] otherwise, and it returns a result. *)
Theorem route_locale_guard (requestedLocale : FormValue) (text : jsstring) :
  exists l r,
    selectLocale requestedLocale = tag l
    /\ analyzeTranscriptFallback text (selectLocale requestedLocale)
       = Normal r
    /\ (l = en <-> requestedLocale = FormString (lit "en")).
Proof.
  destruct (selectLocale_cases requestedLocale) as [[Hv Hs] | [Hv Hs]].
  - exists en, (resultOf text en). rewrite Hs. split; [reflexivity|].
    split; [apply (analyze_supported text en)|]. tauto.
  - exists ko, (resultOf text ko). rewrite Hs. split; [reflexivity|].
    split; [apply (analyze_supported text ko)|].
    split; [discriminate | intros H; now elim Hv].
Qed.

Lemma replaceRuns_visible (inClass : N -> bool) (keep : N -> bool)
    (s : jsstring) :
  (forall c, inClass c = true -> keep c = false) ->
  keep 32%N = false ->
  forall inRun,
    filter keep (replaceRuns inClass (lit " ") inRun s) = filter keep s.
Proof.
  intros Hclass Hspace. change (lit " ") with [32%N].
  induction s as [|c s IH]; intros inRun; [reflexivity|].
  cbn [replaceRuns filter]. destruct (inClass c) eqn:Ec.
  - rewrite (Hclass c Ec), filter_app, IH.
    destruct inRun; cbn [filter app]; [|rewrite Hspace]; reflexivity.
  - cbn [filter]. now rewrite IH.
Qed.

Lemma replaceRuns_control_free (s : jsstring) :
  forall inRun,
    forallb (fun c => negb (isControl c))
            (replaceRuns isControl (lit " ") inRun s) = true.
Proof.
  change (lit " ") with [32%N].
  induction s as [|c s IH]; intros inRun; [reflexivity|].
  cbn [replaceRuns]. destruct (isControl c) eqn:Ec.
  - rewrite forallb_app, IH. destruct inRun; reflexivity.
  - cbn [forallb]. now rewrite Ec, IH.
Qed.

Lemma replaceRuns_control_blank (s : jsstring) :
  forall inRun,
    forallb isWhiteSpace (replaceRuns isControl (lit " ") inRun s)
    = forallb (fun c => isControl c || isWhiteSpace c) s.
Proof.
  change (lit " ") with [32%N].
  induction s as [|c s IH]; intros inRun; [reflexivity|].
  cbn [replaceRuns forallb]. destruct (isControl c) eqn:Ec.
  - rewrite forallb_app, IH. destruct inRun; reflexivity.
  - cbn [forallb orb]. now rewrite IH.
Qed.

Lemma filter_nil_forallb {A} (p : A -> bool) (l : list A) :
  filter p l = [] <-> forallb (fun x => negb (p x)) l = true.
Proof.
  induction l as [|x l IH]; [easy|].
  cbn [filter forallb]. destruct (p x); cbn [negb andb]; [easy | exact IH].
Qed.

Lemma forallb_pointwise {A} (p q : A -> bool) (l : list A) :
  (forall x, p x = q x) -> forallb p l = forallb q l.
Proof.
  intros H. induction l as [|x l IH]; [reflexivity|].
  cbn [forallb]. now rewrite H, IH.
Qed.

Lemma trim_nil_iff (s : jsstring) :
  trim s = [] <-> forallb isWhiteSpace s = true.
Proof.
  split; [|apply trim_whitespace].
  intros H. pose proof (filter_trim s) as E. rewrite H in E.
  symmetry in E. apply filter_nil_forallb in E.
  rewrite <- E. apply forallb_pointwise. intros c. unfold notWhiteSpace.
  now rewrite negb_involutive.
Qed.

Lemma forallb_substring (p : N -> bool) (sub s : jsstring) :
  isSubstring sub s -> forallb p s = true -> forallb p sub = true.
Proof.
  intros (pre & post & ->) H. rewrite !forallb_app in H.
  apply andb_prop in H. destruct H as [_ H].
  apply andb_prop in H. now destruct H.
Qed.

Lemma forallb_firstn_keeps {A} (p : A -> bool) (n : nat) (l : list A) :
  forallb p l = true -> forallb p (firstn n l) = true.
Proof.
  intros H. rewrite <- (firstn_skipn n l), forallb_app in H.
  apply andb_prop in H. now destruct H.
Qed.

Lemma filter_visible_trim (s : jsstring) :
  filter isVisible (trim s) = filter isVisible s.
Proof.
  assert (E : forall u, filter isVisible u
                        = filter isVisible (filter notWhiteSpace u)).
  { induction u as [|c u IH]; [reflexivity|].
    simpl. unfold notWhiteSpace, isVisible in *.
    destruct (isControl c) eqn:E1, (isWhiteSpace c) eqn:E2; simpl;
      rewrite ?E1, ?E2; simpl; rewrite <- ?IH; reflexivity. }
  rewrite (E (trim s)), filter_trim. symmetry. apply E.
Qed.

Lemma tokenCount_head (c : N) (s : jsstring) :
  isWhiteSpace c = false -> 1 <= tokenCount false (c :: s).
Proof. intros H. cbn [tokenCount]. rewrite H. lia. Qed.

Lemma words_nonempty (t : jsstring) :
  trim t <> [] -> 1 <= List.length (words t).
Proof.
  intros H. rewrite words_length. unfold specWordCount.
  pose proof (trim_nonempty_head t) as Hh.
  destruct (trim t) as [|c u]; [now elim H|].
  now apply tokenCount_head.
Qed.

Lemma tokenCount_le_length (s : jsstring) :
  forall b, tokenCount b s <= List.length s.
Proof.
  induction s as [|c s IH]; intros b; [apply Nat.le_refl|].
  cbn [tokenCount List.length].
  destruct (isWhiteSpace c).
  - specialize (IH false). lia.
  - specialize (IH true). destruct b; lia.
Qed.

Lemma trim_length (s : jsstring) : List.length (trim s) <= List.length s.
Proof.
  destruct (trim_substring s) as (pre & post & E).
  rewrite E at 2. rewrite !length_app. lia.
Qed.

Lemma words_at_most_length (t : jsstring) :
  List.length (words t) <= List.length t.
Proof.
  rewrite words_length. unfold specWordCount.
  pose proof (tokenCount_le_length (trim t) false).
  pose proof (trim_length t). lia.
Qed.

Lemma head_keeps_trim (c : N) (u : jsstring) :
  isWhiteSpace c = false -> trim (c :: u) <> [].
Proof.
  intros H. unfold trim. rewrite trimStart_id by exact H.
  destruct (trimEnd_keeps_head c u H) as [r ->]. discriminate.
Qed.

Lemma filter_firstn_prefix {A} (p : A -> bool) (n : nat) (l : list A) :
  exists rest, filter p l = filter p (firstn n l) ++ rest.
Proof.
  exists (filter p (skipn n l)).
  now rewrite <- filter_app, firstn_skipn.
Qed.

Lemma MAX_CHARS_positive : 0 < MAX_CHARS.
Proof. unfold MAX_CHARS. lia. Qed.

(** X12: the text the route hands on.  A file whose text holds only
    control characters and whitespace is refused; otherwise the text that
    is analysed is non-empty, at most 12000 units long, free of control
    characters, it keeps the visible units of the file in order up to the
    cut, and the engine finds at least one word in it. *)
Theorem sanitized_transcript (extracted : jsstring) :
  match sanitizeExtracted extracted with
  | None =>
    forallb (fun c => isControl c || isWhiteSpace c) extracted = true
  | Some t =>
    existsb isVisible extracted = true
    /\ t <> []
    /\ List.length t <= MAX_CHARS
    /\ forallb (fun c => negb (isControl c)) t = true
    /\ (exists rest, filter isVisible extracted = filter isVisible t ++ rest)
    /\ 1 <= List.length (words t) <= MAX_CHARS
  end.
Proof.
  unfold sanitizeExtracted.
  set (e := trim (replaceRuns isControl (lit " ") false extracted)).
  assert (Hblank : forallb isWhiteSpace
                     (replaceRuns isControl (lit " ") false extracted)
                   = forallb (fun c => isControl c || isWhiteSpace c)
                             extracted)
    by apply replaceRuns_control_blank.
  assert (Hfree : forallb (fun c => negb (isControl c)) e = true).
  { apply (forallb_substring _ e _ (trim_substring _)).
    apply replaceRuns_control_free. }
  assert (Hvis : filter isVisible e = filter isVisible extracted).
  { unfold e. rewrite filter_visible_trim.
    apply replaceRuns_visible; [|reflexivity].
    intros c Hc. unfold isVisible. now rewrite Hc. }
  pose proof (trim_nonempty_head
                (replaceRuns isControl (lit " ") false extracted)) as Hhead.
  fold e in Hhead.
  destruct e as [|c u] eqn:Ee.
  - cbn [truthy negb]. rewrite <- Hblank. now apply trim_nil_iff.
  - cbn [truthy negb].
    assert (Hsome : existsb isVisible extracted = true).
    { destruct (existsb isVisible extracted) eqn:Ex; [reflexivity|].
      exfalso.
      assert (Hall : forallb (fun c => isControl c || isWhiteSpace c)
                             extracted = true).
      { clear -Ex. induction extracted as [|d l IH]; [reflexivity|].
        cbn [existsb] in Ex. apply orb_false_elim in Ex.
        destruct Ex as [Hd Hl]. cbn [forallb]. rewrite (IH Hl).
        unfold isVisible in Hd. apply negb_false_iff in Hd. now rewrite Hd. }
      rewrite <- Hblank in Hall. apply trim_nil_iff in Hall.
      unfold e in Ee. rewrite Ee in Hall. discriminate. }
    pose proof MAX_CHARS_positive as Hmax.
    destruct (MAX_CHARS <? List.length (c :: u)) eqn:Ecut.
    + apply Nat.ltb_lt in Ecut.
      destruct MAX_CHARS as [|k] eqn:Ek; [lia|].
      cbn [firstn].
      assert (Hlen : List.length (c :: firstn k u) <= S k).
      { cbn [List.length]. pose proof (firstn_le_length k u). lia. }
      split; [exact Hsome|]. split; [discriminate|].
      split; [exact Hlen|].
      split; [exact (forallb_firstn_keeps _ (S k) (c :: u) Hfree)|].
      split.
      * rewrite <- Hvis. apply (filter_firstn_prefix isVisible (S k) (c :: u)).
      * split; [apply words_nonempty, head_keeps_trim, Hhead|].
        pose proof (words_at_most_length (c :: firstn k u)). lia.
    + apply Nat.ltb_ge in Ecut.
      split; [exact Hsome|]. split; [discriminate|].
      split; [exact Ecut|]. split; [exact Hfree|].
      split; [exists []; now rewrite app_nil_r|].
      split; [apply words_nonempty, head_keeps_trim, Hhead|].
      pose proof (words_at_most_length (c :: u)). lia.
Qed.

(** ** The preview *)

Lemma replaceRuns_singleSpaced (s : jsstring) :
  forall inRun,
    singleSpaced inRun (replaceRuns isWhiteSpace (lit " ") inRun s) = true.
Proof.
  change (lit " ") with [32%N].
  induction s as [|c s IH]; intros inRun; [reflexivity|].
  cbn [replaceRuns]. destruct (isWhiteSpace c) eqn:Ec.
  - destruct inRun; cbn [app]; [apply IH|].
    cbn [singleSpaced]. change (isWhiteSpace 32) with true.
    cbn [N.eqb Pos.eqb negb andb]. apply IH.
  - cbn [singleSpaced]. rewrite Ec. apply IH.
Qed.

Lemma singleSpaced_fixed (s : jsstring) :
  forall afterSpace,
    singleSpaced afterSpace s = true ->
    replaceRuns isWhiteSpace (lit " ") afterSpace s = s.
Proof.
  change (lit " ") with [32%N].
  induction s as [|c s IH]; intros afterSpace H; [reflexivity|].
  cbn [singleSpaced replaceRuns] in *. destruct (isWhiteSpace c).
  - apply andb_prop in H. destruct H as [H Hs].
    apply andb_prop in H. destruct H as [Hc Ha].
    apply N.eqb_eq in Hc. subst c.
    destruct afterSpace; [discriminate|].
    cbn [app]. now rewrite (IH true Hs).
  - now rewrite (IH false H).
Qed.

Lemma singleSpaced_weaken (s : jsstring) :
  singleSpaced true s = true -> singleSpaced false s = true.
Proof.
  destruct s as [|c s]; [reflexivity|]. cbn [singleSpaced].
  destruct (isWhiteSpace c); [|trivial].
  rewrite andb_false_r. discriminate.
Qed.

Lemma singleSpaced_trimStart (s : jsstring) :
  forall afterSpace,
    singleSpaced afterSpace s = true ->
    singleSpaced false (trimStart s) = true.
Proof.
  induction s as [|c s IH]; intros afterSpace H; [reflexivity|].
  cbn [trimStart]. cbn [singleSpaced] in H.
  destruct (isWhiteSpace c) eqn:Ec.
  - apply andb_prop in H. destruct H as [_ Hs]. exact (IH true Hs).
  - cbn [singleSpaced]. now rewrite Ec.
Qed.

Lemma singleSpaced_trimEnd (s : jsstring) :
  forall afterSpace,
    singleSpaced afterSpace s = true ->
    singleSpaced afterSpace (trimEnd s) = true.
Proof.
  induction s as [|c s IH]; intros afterSpace H; [reflexivity|].
  rewrite trimEnd_cons. cbn [singleSpaced] in H.
  destruct (isWhiteSpace c) eqn:Ec.
  - apply andb_prop in H. destruct H as [H Hs]. specialize (IH true Hs).
    destruct (trimEnd s) as [|d r]; [reflexivity|].
    cbn [singleSpaced] in *. now rewrite Ec, H.
  - specialize (IH false H).
    destruct (trimEnd s) as [|d r].
    + cbn [singleSpaced]. now rewrite Ec.
    + cbn [singleSpaced] in *. now rewrite Ec.
Qed.

Lemma singleSpaced_firstn (n : nat) (s : jsstring) :
  forall afterSpace,
    singleSpaced afterSpace s = true ->
    singleSpaced afterSpace (firstn n s) = true.
Proof.
  revert n. induction s as [|c s IH]; intros n afterSpace H.
  - now destruct n.
  - destruct n as [|n]; [reflexivity|].
    cbn [firstn singleSpaced] in *. destruct (isWhiteSpace c).
    + apply andb_prop in H. destruct H as [H Hs].
      now rewrite H, (IH n true Hs).
    + exact (IH n false H).
Qed.

Lemma singleSpaced_snoc (s : jsstring) (c : N) :
  isWhiteSpace c = false ->
  forall afterSpace,
    singleSpaced afterSpace s = true ->
    singleSpaced afterSpace (s ++ [c]) = true.
Proof.
  intros Hc. induction s as [|d s IH]; intros afterSpace H.
  - cbn [app singleSpaced]. now rewrite Hc.
  - cbn [app singleSpaced] in *. destruct (isWhiteSpace d).
    + apply andb_prop in H. destruct H as [H Hs].
      now rewrite H, (IH true Hs).
    + exact (IH false H).
Qed.

Lemma trimEnd_snoc_visible (s : jsstring) (c : N) :
  isWhiteSpace c = false -> trimEnd (s ++ [c]) = s ++ [c].
Proof.
  intros Hc. induction s as [|d s IH].
  - cbn [app]. rewrite trimEnd_cons. cbn [trimEnd fold_right]. now rewrite Hc.
  - cbn [app]. rewrite trimEnd_cons, IH. now destruct s.
Qed.

Lemma firstn_snoc_exact {A} (l : list A) (x : A) :
  firstn (List.length l) (l ++ [x]) = l.
Proof.
  rewrite firstn_app, Nat.sub_diag, firstn_all. cbn [firstn].
  apply app_nil_r.
Qed.

Lemma normalized_preview (text : jsstring) :
  let normalized := trim (replaceRuns isWhiteSpace (lit " ") false text) in
  singleSpaced false normalized = true
  /\ trim normalized = normalized
  /\ filter notWhiteSpace normalized = filter notWhiteSpace text
  /\ match normalized with
     | [] => True
     | c :: _ => isWhiteSpace c = false
     end.
Proof.
  cbv zeta. split; [|split; [|split]].
  - unfold trim. apply singleSpaced_trimEnd.
    apply (singleSpaced_trimStart _ false). apply replaceRuns_singleSpaced.
  - apply trim_idem.
  - rewrite filter_trim. apply replaceRuns_visible; [|reflexivity].
    intros c Hc. unfold notWhiteSpace. now rewrite Hc.
  - apply trim_nonempty_head.
Qed.

Lemma preview_cut (k : nat) (normalized : jsstring) :
  0 < k -> k < List.length normalized ->
  singleSpaced false normalized = true ->
  match normalized with
  | [] => True
  | c :: _ => isWhiteSpace c = false
  end ->
  let preview := firstn k normalized ++ [8230%N] in
  List.length preview = S k
  /\ singleSpaced false preview = true
  /\ trim preview = preview
  /\ firstn k preview = firstn k normalized.
Proof.
  intros Hk Hlen Hss Hhead. cbv zeta.
  assert (Hfl : List.length (firstn k normalized) = k)
    by (apply firstn_length_le; lia).
  split; [rewrite length_app, Hfl; cbn [List.length]; lia|].
  split; [apply singleSpaced_snoc;
          [reflexivity | now apply singleSpaced_firstn]|].
  split.
  - destruct normalized as [|c u]; [cbn [List.length] in Hlen; lia|].
    destruct k as [|k]; [lia|]. cbn [firstn app].
    unfold trim. rewrite trimStart_id by exact Hhead.
    change (c :: firstn k u ++ [8230%N])
      with ((c :: firstn k u) ++ [8230%N]).
    now apply trimEnd_snoc_visible.
  - rewrite <- Hfl at 1. apply firstn_snoc_exact.
Qed.

(** X13: the preview is a normal form.  It is at most 481 units long, its
    only whitespace is single U+0020 units between other units, computing
    the preview of a preview changes nothing, and it keeps the
    non-whitespace units of the text: all of them, or, when it is cut, the
    ones of its first 480 units followed by an ellipsis. *)
Theorem preview_normal_form (text : jsstring) :
  let preview := createPreview text in
  List.length preview <= 481
  /\ singleSpaced false preview = true
  /\ trim preview = preview
  /\ createPreview preview = preview
  /\ (filter notWhiteSpace preview = filter notWhiteSpace text
      \/ (List.length preview = 481
          /\ preview = firstn 480 preview ++ [8230%N]
          /\ exists rest,
               filter notWhiteSpace text
               = filter notWhiteSpace (firstn 480 preview) ++ rest)).
Proof.
  cbv zeta.
  destruct (normalized_preview text) as (Hss & Htrim & Hfilter & Hhead).
  assert (Hp : createPreview text
               = let normalized :=
                   trim (replaceRuns isWhiteSpace (lit " ") false text) in
                 if 480 <? List.length normalized
                 then firstn 480 normalized ++ [8230%N]
                 else normalized) by reflexivity.
  cbv zeta in Hp, Hss, Htrim, Hfilter, Hhead.
  set (normalized := trim (replaceRuns isWhiteSpace (lit " ") false text))
    in *.
  destruct (480 <? List.length normalized) eqn:Ecut; rewrite Hp; clear Hp.
  - apply Nat.ltb_lt in Ecut.
    destruct (preview_cut 480 normalized ltac:(lia) Ecut Hss Hhead)
      as (Hlen & Hss' & Htrim' & Hfirst).
    set (preview := firstn 480 normalized ++ [8230%N]) in *.
    split; [lia|]. split; [exact Hss'|]. split; [exact Htrim'|].
    split.
    + unfold createPreview.
      rewrite (singleSpaced_fixed preview false Hss'), Htrim', Hlen.
      change (480 <? 481) with true. cbv iota. now rewrite Hfirst.
    + right. split; [exact Hlen|]. split; [now rewrite Hfirst|].
      rewrite Hfirst, <- Hfilter.
      apply (filter_firstn_prefix notWhiteSpace 480 normalized).
  - split; [apply Nat.ltb_ge in Ecut; lia|].
    split; [exact Hss|]. split; [exact Htrim|].
    split; [|now left].
    unfold createPreview.
    rewrite (singleSpaced_fixed normalized false Hss), Htrim.
    now rewrite Ecut.
Qed.

(** ** Absolute URLs *)

Lemma normalizeUrl_cons (c : N) (url : jsstring) :
  normalizeUrl (c :: url)
  = match normalizeUrl url with
    | [] => if (c =? 47)%N then [] else [c]
    | _ :: _ => c :: normalizeUrl url
    end.
Proof. reflexivity. Qed.

Lemma normalizeUrl_last (url : jsstring) :
  last (normalizeUrl url) 0%N <> 47%N.
Proof.
  induction url as [|c url IH]; [discriminate|].
  rewrite normalizeUrl_cons. destruct (normalizeUrl url) as [|d r].
  - destruct (c =? 47)%N eqn:E; [discriminate|].
    cbn [last]. now apply N.eqb_neq.
  - exact IH.
Qed.

Lemma normalizeUrl_split (url : jsstring) :
  exists slashes,
    url = normalizeUrl url ++ slashes
    /\ forallb (fun c => (c =? 47)%N) slashes = true.
Proof.
  induction url as [|c url (slashes & E & H)]; [now exists []|].
  rewrite normalizeUrl_cons. destruct (normalizeUrl url) as [|d r].
  - destruct (c =? 47)%N eqn:Ec.
    + exists (c :: url). split; [reflexivity|].
      cbn [forallb]. rewrite Ec. cbn [app] in E. now rewrite E.
    + exists url. split; [reflexivity|]. cbn [app] in E. now rewrite E.
  - exists slashes. split; [|exact H]. now rewrite E at 1.
Qed.

Lemma normalizeUrl_idem (url : jsstring) :
  normalizeUrl (normalizeUrl url) = normalizeUrl url.
Proof.
  induction url as [|c url IH]; [reflexivity|].
  rewrite normalizeUrl_cons. destruct (normalizeUrl url) as [|d r] eqn:E.
  - destruct (c =? 47)%N eqn:Ec; [reflexivity|].
    rewrite normalizeUrl_cons. cbn [normalizeUrl fold_right]. now rewrite Ec.
  - rewrite normalizeUrl_cons, IH. reflexivity.
Qed.

(** X14: the junction of an absolute URL.  Whatever the configured site
    URL and the path, [siteUrl] is the configured URL without the slashes
    at its end, and [absoluteUrl] is [siteUrl], a slash, and the path
    without its first slash if it starts with one.  What follows the slash
    starts with another slash exactly when the path starts with two, as in
    [absoluteUrl("//y")]; for every other path the junction holds exactly
    one slash. *)
Theorem absolute_url_junction (env path : option jsstring) :
  (exists slashes,
      match env with Some url => url | None => DEFAULT_SITE_URL end
      = siteUrl env ++ slashes
      /\ forallb (fun c => (c =? 47)%N) slashes = true)
  /\ last (siteUrl env) 0%N <> 47%N
  /\ normalizeUrl (siteUrl env) = siteUrl env
  /\ (exists rest,
        absoluteUrl env path = siteUrl env ++ lit "/" ++ rest
        /\ match path with
           | None => rest = []
           | Some p =>
             p = lit "/" ++ rest
             \/ (p = rest /\ startsWith p (lit "/") = false)
           end
        /\ (startsWith rest (lit "/") = true
            <-> exists p, path = Some p /\ startsWith p (lit "//") = true))
  /\ absoluteUrl env (Some (lit "//y")) = siteUrl env ++ lit "//y".
Proof.
  split; [apply normalizeUrl_split|].
  split; [apply normalizeUrl_last|].
  split; [apply normalizeUrl_idem|].
  split; [|reflexivity].
  unfold absoluteUrl. change (lit "//") with [47%N; 47%N].
  change (lit "/") with [47%N].
  destruct path as [p|].
  - destruct (startsWith p [47%N]) eqn:E.
    + destruct p as [|c rest]; [discriminate|].
      cbn [startsWith] in E. apply andb_prop in E. destruct E as [E _].
      apply N.eqb_eq in E. apply eq_sym in E. subst c.
      exists rest. split; [reflexivity|].
      split; [now left|]. split.
      * intros H. exists (47%N :: rest). split; [reflexivity|].
        cbn [startsWith]. rewrite N.eqb_refl. exact H.
      * intros (p & Hp & H). injection Hp as <-.
        cbn [startsWith] in H. rewrite N.eqb_refl in H. exact H.
    + exists p. split; [reflexivity|].
      split; [now right|]. split.
      * intros H. congruence.
      * intros (q & Hq & H). injection Hq as <-. exfalso.
        destruct p as [|c r]; [discriminate|].
        cbn [startsWith] in E, H. apply andb_prop in H.
        destruct H as [H _]. rewrite H in E. destruct r; discriminate.
  - exists []. split; [reflexivity|]. split; [reflexivity|]. split.
    + discriminate.
    + intros (p & Hp & _). discriminate.
Qed.

(** ** The token bucket *)

Lemma normalized_stored (t : option Q) :
  (if (TOKEN_MAX
       <? (if (match t with Some t => Qfloor t | None => TOKEN_MAX end <? 0)%Z
           then 0%Z
           else match t with Some t => Qfloor t | None => TOKEN_MAX end))%Z
   then TOKEN_MAX
   else (if (match t with Some t => Qfloor t | None => TOKEN_MAX end <? 0)%Z
         then 0%Z
         else match t with Some t => Qfloor t | None => TOKEN_MAX end))
  = storedTokens t.
Proof.
  unfold storedTokens, TOKEN_MAX. destruct t as [t|]; [|reflexivity].
  generalize (Qfloor t). intros f.
  destruct (f <? 0)%Z eqn:E1.
  - apply Z.ltb_lt in E1. cbn. lia.
  - apply Z.ltb_ge in E1. destruct (3 <? f)%Z eqn:E2.
    + apply Z.ltb_lt in E2. lia.
    + apply Z.ltb_ge in E2. lia.
Qed.

Lemma storedTokens_range (t : option Q) :
  (0 <= storedTokens t <= TOKEN_MAX)%Z.
Proof. unfold storedTokens, TOKEN_MAX. destruct t; lia. Qed.

(** The four ways through [reviveTokenState]. *)
Lemma reviveTokenState_cases (now : Z) (t l : option Q) :
  let t0 := storedTokens t in
  let l0 := match l with Some l => l | None => inject_Z now end in
  let elapsed := (inject_Z now - l0)%Q in
  let regained := Qfloor (elapsed / inject_Z TOKEN_INTERVAL_MS)%Q in
  let waiting (last : Q) :=
    Qmax 0 (inject_Z TOKEN_INTERVAL_MS - (inject_Z now - last))%Q in
  (t0 = TOKEN_MAX
   /\ reviveTokenState now t l
      = {| tokens := TOKEN_MAX; lastRefill := l0; nextReadyInMs := 0%Q |})
  \/ ((t0 < TOKEN_MAX)%Z
      /\ (elapsed < inject_Z TOKEN_INTERVAL_MS)%Q
      /\ reviveTokenState now t l
         = {| tokens := t0; lastRefill := l0;
              nextReadyInMs := waiting l0 |})
  \/ ((t0 < TOKEN_MAX)%Z
      /\ (inject_Z TOKEN_INTERVAL_MS <= elapsed)%Q
      /\ (TOKEN_MAX <= t0 + regained)%Z
      /\ reviveTokenState now t l
         = {| tokens := TOKEN_MAX; lastRefill := inject_Z now;
              nextReadyInMs := 0%Q |})
  \/ ((t0 < TOKEN_MAX)%Z
      /\ (inject_Z TOKEN_INTERVAL_MS <= elapsed)%Q
      /\ (t0 + regained < TOKEN_MAX)%Z
      /\ reviveTokenState now t l
         = {| tokens := t0 + regained;
              lastRefill :=
                (l0 + inject_Z regained * inject_Z TOKEN_INTERVAL_MS)%Q;
              nextReadyInMs :=
                waiting
                  (l0 + inject_Z regained * inject_Z TOKEN_INTERVAL_MS)%Q |}).
Proof.
  cbv zeta. unfold reviveTokenState. cbv zeta. rewrite normalized_stored.
  pose proof (storedTokens_range t) as Hr.
  set (t0 := storedTokens t) in *.
  set (l0 := match l with Some l => l | None => inject_Z now end).
  destruct (t0 <? TOKEN_MAX)%Z eqn:Et.
  - apply Z.ltb_lt in Et.
    destruct (Qle_bool (inject_Z TOKEN_INTERVAL_MS) (inject_Z now - l0)) eqn:Ee.
    + apply Qle_bool_iff in Ee.
      set (regained :=
             Qfloor ((inject_Z now - l0) / inject_Z TOKEN_INTERVAL_MS)%Q).
      cbn [fst snd].
      destruct (Z.min TOKEN_MAX (t0 + regained) =? TOKEN_MAX)%Z eqn:Em.
      * apply Z.eqb_eq in Em. right. right. left.
        split; [exact Et|]. split; [exact Ee|]. split; [lia|].
        rewrite Em. reflexivity.
      * apply Z.eqb_neq in Em. right. right. right.
        assert (Hlt : (t0 + regained < TOKEN_MAX)%Z) by lia.
        split; [exact Et|]. split; [exact Ee|]. split; [exact Hlt|].
        rewrite Z.min_r by lia.
        assert (Hb : (TOKEN_MAX <=? t0 + regained)%Z = false)
          by (apply Z.leb_gt; exact Hlt).
        rewrite Hb. reflexivity.
    + right. left. cbn [fst snd].
      assert (Hb : (TOKEN_MAX <=? t0)%Z = false) by (apply Z.leb_gt; exact Et).
      rewrite Hb. split; [exact Et|]. split; [|reflexivity].
      apply Qnot_le_lt. intros H. apply Qle_bool_iff in H. congruence.
  - apply Z.ltb_ge in Et. left. cbn [fst snd].
    assert (E3 : t0 = TOKEN_MAX) by lia. rewrite E3.
    split; [reflexivity|]. reflexivity.
Qed.

Lemma regained_bounds (elapsed : Q) :
  let interval := inject_Z TOKEN_INTERVAL_MS in
  let regained := Qfloor (elapsed / interval)%Q in
  (inject_Z regained * interval <= elapsed)%Q
  /\ (elapsed < inject_Z regained * interval + interval)%Q
  /\ ((interval <= elapsed)%Q -> (1 <= regained)%Z)
  /\ ((0 <= elapsed)%Q -> (0 <= regained)%Z).
Proof.
  cbv zeta. change (inject_Z TOKEN_INTERVAL_MS) with (300000 # 1)%Q.
  set (q := (elapsed / (300000 # 1))%Q).
  assert (Hq : ((300000 # 1) * q == elapsed)%Q)
    by (apply Qmult_div_r; discriminate).
  pose proof (Qfloor_le q) as Hlo. pose proof (Qlt_floor q) as Hhi.
  rewrite inject_Z_plus in Hhi. change (inject_Z 1) with 1%Q in Hhi.
  split; [lra|]. split; [lra|]. split.
  - intros H. change 1%Z with (Qfloor 1). apply Qfloor_resp_le. lra.
  - intros H. change 0%Z with (Qfloor 0). apply Qfloor_resp_le. lra.
Qed.

Lemma Qfloor_inject (z : Z) : Qfloor (inject_Z z) = z.
Proof. apply Qfloor_Z. Qed.

Lemma storedTokens_inject (z : Z) :
  (0 <= z <= TOKEN_MAX)%Z -> storedTokens (Some (inject_Z z)) = z.
Proof.
  intros H. unfold storedTokens. rewrite Qfloor_inject.
  unfold TOKEN_MAX in *. lia.
Qed.

Lemma waiting_nonneg (now : Z) (last : Q) :
  (0 <= Qmax 0 (inject_Z TOKEN_INTERVAL_MS - (inject_Z now - last)))%Q.
Proof. apply Q.le_max_l. Qed.

(** X15: the token bucket stays well formed.  Whatever is read back from
    storage and whatever the clock says, the revived state holds between 0
    and 3 tokens and never fewer than were stored, the wait for the next
    token is not negative and is 0 when the bucket is full; while the bucket
    is not full, less than one interval is left unaccounted for and the
    refill time has moved forward by one interval per token regained.
    Reviving the revived state at the same time changes nothing. *)
Theorem token_state_invariants (now : Z) (t l : option Q) :
  let s := reviveTokenState now t l in
  let l0 := match l with Some l => l | None => inject_Z now end in
  (0 <= tokens s <= TOKEN_MAX)%Z
  /\ (storedTokens t <= tokens s)%Z
  /\ (0 <= nextReadyInMs s)%Q
  /\ (if (tokens s <? TOKEN_MAX)%Z
      then (inject_Z now - lastRefill s < inject_Z TOKEN_INTERVAL_MS)%Q
           /\ (lastRefill s
               == l0 + inject_Z (tokens s - storedTokens t)
                       * inject_Z TOKEN_INTERVAL_MS)%Q
      else nextReadyInMs s = 0%Q)
  /\ tick now s = s.
Proof.
  cbv zeta. pose proof (storedTokens_range t) as Hr.
  pose proof (regained_bounds
                (inject_Z now
                 - match l with Some l => l | None => inject_Z now end))
    as (Hlo & Hhi & Hone & _).
  cbv zeta in Hlo, Hhi, Hone.
  destruct (reviveTokenState_cases now t l)
    as [(Ht & ->) | [(Ht & He & ->) | [(Ht & He & Hm & ->)
                                      | (Ht & He & Hm & ->)]]];
    cbn [tokens lastRefill nextReadyInMs].
  - split; [unfold TOKEN_MAX; lia|]. split; [lia|].
    split; [apply Qle_refl|]. rewrite Z.ltb_irrefl. split; [reflexivity|].
    unfold tick. cbn [tokens lastRefill].
    destruct (reviveTokenState_cases now (Some (inject_Z TOKEN_MAX))
                (Some match l with Some l => l | None => inject_Z now end))
      as [(_ & ->) | [(H & _) | [(H & _) | (H & _)]]];
      [reflexivity | exfalso..];
      rewrite storedTokens_inject in H by (unfold TOKEN_MAX; lia); lia.
  - split; [lia|]. split; [lia|]. split; [apply waiting_nonneg|].
    assert (Hb : (storedTokens t <? TOKEN_MAX)%Z = true)
      by (apply Z.ltb_lt; exact Ht).
    rewrite Hb. split.
    + split; [exact He|]. rewrite Z.sub_diag. change (inject_Z 0) with 0%Q.
      lra.
    + unfold tick. cbn [tokens lastRefill].
      destruct (reviveTokenState_cases now
                  (Some (inject_Z (storedTokens t)))
                  (Some match l with Some l => l | None => inject_Z now end))
        as [(H & _) | [(_ & _ & ->) | [(_ & H & _) | (_ & H & _)]]];
        rewrite ?storedTokens_inject in * by lia.
      * lia.
      * reflexivity.
      * exfalso. lra.
      * exfalso. lra.
  - split; [unfold TOKEN_MAX; lia|]. split; [lia|].
    split; [apply Qle_refl|]. rewrite Z.ltb_irrefl. split; [reflexivity|].
    unfold tick. cbn [tokens lastRefill].
    destruct (reviveTokenState_cases now (Some (inject_Z TOKEN_MAX))
                (Some (inject_Z now)))
      as [(_ & ->) | [(H & _) | [(H & _) | (H & _)]]];
      [reflexivity | exfalso..];
      rewrite storedTokens_inject in H by (unfold TOKEN_MAX; lia); lia.
  - specialize (Hone He).
    set (l0 := match l with Some l => l | None => inject_Z now end) in *.
    set (regained :=
           Qfloor ((inject_Z now - l0) / inject_Z TOKEN_INTERVAL_MS)%Q) in *.
    split; [lia|]. split; [lia|]. split; [apply waiting_nonneg|].
    assert (Hb : (storedTokens t + regained <? TOKEN_MAX)%Z = true)
      by (apply Z.ltb_lt; exact Hm).
    rewrite Hb. split.
    + split; [lra|].
      replace (storedTokens t + regained - storedTokens t)%Z with regained
        by lia.
      apply Qeq_refl.
    + unfold tick. cbn [tokens lastRefill].
      destruct (reviveTokenState_cases now
                  (Some (inject_Z (storedTokens t + regained)))
                  (Some (l0 + inject_Z regained
                              * inject_Z TOKEN_INTERVAL_MS)%Q))
        as [(H & _) | [(_ & _ & ->) | [(_ & H & _) | (_ & H & _)]]];
        rewrite ?storedTokens_inject in * by lia.
      * lia.
      * reflexivity.
      * exfalso. lra.
      * exfalso. lra.
Qed.

Lemma waiting_value (now : Z) (last : Q) :
  (inject_Z now - last < inject_Z TOKEN_INTERVAL_MS)%Q ->
  (Qmax 0 (inject_Z TOKEN_INTERVAL_MS - (inject_Z now - last))
   == last + inject_Z TOKEN_INTERVAL_MS - inject_Z now)%Q.
Proof.
  intros H.
  destruct (Q.max_spec 0 (inject_Z TOKEN_INTERVAL_MS
                          - (inject_Z now - last))%Q) as [[_ E] | [Hle _]].
  - rewrite E. lra.
  - exfalso. lra.
Qed.

Lemma no_regain (elapsed : Q) :
  (0 <= elapsed)%Q -> (elapsed < inject_Z TOKEN_INTERVAL_MS)%Q ->
  Qfloor (elapsed / inject_Z TOKEN_INTERVAL_MS)%Q = 0%Z.
Proof.
  intros H0 H1.
  pose proof (regained_bounds elapsed) as (Hlo & _ & _ & Hzero).
  cbv zeta in Hlo, Hzero. specialize (Hzero H0).
  destruct (Z.eq_dec (Qfloor (elapsed / inject_Z TOKEN_INTERVAL_MS)%Q) 0)
    as [E|E]; [exact E|].
  exfalso.
  assert (Hone : (1 <= Qfloor (elapsed / inject_Z TOKEN_INTERVAL_MS)%Q)%Z)
    by lia.
  assert (Hq : (inject_Z 1
                <= inject_Z (Qfloor (elapsed / inject_Z TOKEN_INTERVAL_MS)))%Q)
    by (rewrite <- Zle_Qle; exact Hone).
  change (inject_Z 1) with 1%Q in Hq.
  change (inject_Z TOKEN_INTERVAL_MS) with (300000 # 1)%Q in *.
  nra.
Qed.

(** The tokens of a revived bucket whose refill time is not in the future. *)
Lemma revived_tokens (now : Z) (t : option Q) (l : Q) :
  (l <= inject_Z now)%Q ->
  tokens (reviveTokenState now t (Some l))
  = Z.min TOKEN_MAX
      (storedTokens t
       + Qfloor ((inject_Z now - l) / inject_Z TOKEN_INTERVAL_MS)%Q).
Proof.
  intros Hpast. pose proof (storedTokens_range t) as Hr.
  pose proof (regained_bounds (inject_Z now - l)) as (_ & _ & _ & Hzero).
  cbv zeta in Hzero.
  assert (H0 : (0 <= Qfloor ((inject_Z now - l)
                             / inject_Z TOKEN_INTERVAL_MS)%Q)%Z)
    by (apply Hzero; lra).
  destruct (reviveTokenState_cases now t (Some l))
    as [(Ht & ->) | [(Ht & He & ->) | [(Ht & He & Hm & ->)
                                      | (Ht & He & Hm & ->)]]];
    cbn [tokens]; [lia | | lia | lia].
  rewrite no_regain by (exact He || lra). lia.
Qed.

(** X16: the refill law.  With a refill time that is not in the future, the
    revived bucket holds the stored tokens plus one token per full
    interval elapsed, capped at 3; while it is not full, the refill time is
    not in the future either and the next token is due after more than 0
    and at most one interval, namely one interval after the refill time. *)
Theorem refill_law (now : Z) (t : option Q) (l : Q) :
  (l <= inject_Z now)%Q ->
  let s := reviveTokenState now t (Some l) in
  let elapsed := (inject_Z now - l)%Q in
  tokens s
  = Z.min TOKEN_MAX
      (storedTokens t + Qfloor (elapsed / inject_Z TOKEN_INTERVAL_MS)%Q)
  /\ (if (tokens s <? TOKEN_MAX)%Z
      then (lastRefill s <= inject_Z now)%Q
           /\ (nextReadyInMs s
               == lastRefill s + inject_Z TOKEN_INTERVAL_MS - inject_Z now)%Q
           /\ (0 < nextReadyInMs s)%Q
           /\ (nextReadyInMs s <= inject_Z TOKEN_INTERVAL_MS)%Q
      else nextReadyInMs s = 0%Q).
Proof.
  intros Hpast. cbv zeta. split; [now apply revived_tokens|].
  pose proof (regained_bounds (inject_Z now - l)) as (Hlo & Hhi & _ & _).
  cbv zeta in Hlo, Hhi.
  destruct (reviveTokenState_cases now t (Some l))
    as [(Ht & ->) | [(Ht & He & ->) | [(Ht & He & Hm & ->)
                                      | (Ht & He & Hm & ->)]]];
    cbn [tokens lastRefill nextReadyInMs].
  - now rewrite Z.ltb_irrefl.
  - assert (Hb : (storedTokens t <? TOKEN_MAX)%Z = true)
      by (apply Z.ltb_lt; exact Ht).
    rewrite Hb. pose proof (waiting_value now l He) as Hw.
    split; [exact Hpast|]. split; [exact Hw|]. rewrite Hw.
    change (inject_Z TOKEN_INTERVAL_MS) with (300000 # 1)%Q in *.
    split; lra.
  - now rewrite Z.ltb_irrefl.
  - assert (Hb : (storedTokens t
                  + Qfloor ((inject_Z now - l) / inject_Z TOKEN_INTERVAL_MS)
                  <? TOKEN_MAX)%Z = true)
      by (apply Z.ltb_lt; exact Hm).
    rewrite Hb.
    set (regained :=
           Qfloor ((inject_Z now - l) / inject_Z TOKEN_INTERVAL_MS)%Q) in *.
    assert (Hleft : (inject_Z now
                     - (l + inject_Z regained * inject_Z TOKEN_INTERVAL_MS)
                     < inject_Z TOKEN_INTERVAL_MS)%Q) by lra.
    pose proof (waiting_value now _ Hleft) as Hw.
    split; [lra|]. split; [exact Hw|]. rewrite Hw.
    change (inject_Z TOKEN_INTERVAL_MS) with (300000 # 1)%Q in *.
    split; lra.
Qed.

Lemma refill_law_witness :
  (inject_Z 600000 <= inject_Z 1000000)%Q
  /\ let s := reviveTokenState 1000000 (Some 0%Q) (Some (inject_Z 600000)) in
     let elapsed := (inject_Z 1000000 - inject_Z 600000)%Q in
     tokens s
     = Z.min TOKEN_MAX
         (storedTokens (Some 0%Q)
          + Qfloor (elapsed / inject_Z TOKEN_INTERVAL_MS)%Q)
     /\ (if (tokens s <? TOKEN_MAX)%Z
         then (lastRefill s <= inject_Z 1000000)%Q
              /\ (nextReadyInMs s
                  == lastRefill s + inject_Z TOKEN_INTERVAL_MS
                     - inject_Z 1000000)%Q
              /\ (0 < nextReadyInMs s)%Q
              /\ (nextReadyInMs s <= inject_Z TOKEN_INTERVAL_MS)%Q
         else nextReadyInMs s = 0%Q).
Proof.
  split; [unfold Qle; simpl; lia|].
  apply (refill_law 1000000 (Some 0%Q) (inject_Z 600000)).
  unfold Qle; simpl; lia.
Defined.

Lemma Qfloor_quotient (a b : Z) :
  Qfloor ((inject_Z a - inject_Z b) / inject_Z TOKEN_INTERVAL_MS)%Q
  = ((a - b) / TOKEN_INTERVAL_MS)%Z.
Proof.
  assert (E : ((inject_Z a - inject_Z b) / inject_Z TOKEN_INTERVAL_MS
               == (a - b) # 300000)%Q).
  { unfold Qeq, Qdiv, Qminus, Qplus, Qopp, Qmult, Qinv, inject_Z; simpl. lia. }
  rewrite E. reflexivity.
Qed.

(** X17: a consumed token comes back.  [consumeToken] reads the clock
    twice, for its argument and inside [reviveTokenState].  With the two
    reads in order and less than one interval apart, consuming a token from
    a bucket that holds one takes exactly one token and restarts the
    interval at the first read, so the next token is due one interval after
    the first read (a full interval when the two reads agree); a timer tick
    at a later time then finds the tokens left plus one token per full
    interval since the first read, capped at 3. *)
Theorem consumed_token_returns (now0 now1 now2 : Z) (current : TokenState) :
  (1 <= tokens current <= TOKEN_MAX)%Z ->
  (now0 <= now1 < now0 + TOKEN_INTERVAL_MS)%Z ->
  (now1 <= now2)%Z ->
  let spent := consumeToken now0 now1 current in
  tokens spent = (tokens current - 1)%Z
  /\ lastRefill spent = inject_Z now0
  /\ (nextReadyInMs spent
      == inject_Z (TOKEN_INTERVAL_MS - (now1 - now0)))%Q
  /\ (now1 = now0 ->
      (nextReadyInMs spent == inject_Z TOKEN_INTERVAL_MS)%Q)
  /\ tokens (tick now2 spent)
     = Z.min TOKEN_MAX
         (tokens current - 1 + (now2 - now0) / TOKEN_INTERVAL_MS).
Proof.
  intros Hc Hn Hn2. cbv zeta. unfold consumeToken.
  assert (Hb : (tokens current <=? 0)%Z = false) by (apply Z.leb_gt; lia).
  rewrite Hb.
  assert (Hs : storedTokens (Some (inject_Z (tokens current - 1)))
               = (tokens current - 1)%Z)
    by (apply storedTokens_inject; unfold TOKEN_MAX in *; lia).
  assert (He : (inject_Z now1 - inject_Z now0
                < inject_Z TOKEN_INTERVAL_MS)%Q).
  { unfold Qminus. rewrite <- inject_Z_opp, <- inject_Z_plus, <- Zlt_Qlt.
    lia. }
  assert (Hspent :
            reviveTokenState now1 (Some (inject_Z (tokens current - 1)))
                             (Some (inject_Z now0))
            = {| tokens := tokens current - 1;
                 lastRefill := inject_Z now0;
                 nextReadyInMs :=
                   Qmax 0 (inject_Z TOKEN_INTERVAL_MS
                           - (inject_Z now1 - inject_Z now0))%Q |}).
  { destruct (reviveTokenState_cases now1
                (Some (inject_Z (tokens current - 1)))
                (Some (inject_Z now0)))
      as [(H & _) | [(_ & _ & E) | [(_ & H & _) | (_ & H & _)]]];
      rewrite ?Hs in *.
    - exfalso. lia.
    - exact E.
    - exfalso. exact (Qlt_not_le _ _ He H).
    - exfalso. exact (Qlt_not_le _ _ He H). }
  rewrite Hspent. cbn [tokens lastRefill nextReadyInMs].
  assert (Hwait :
            (Qmax 0 (inject_Z TOKEN_INTERVAL_MS
                     - (inject_Z now1 - inject_Z now0))
             == inject_Z (TOKEN_INTERVAL_MS - (now1 - now0)))%Q).
  { rewrite (waiting_value now1 (inject_Z now0) He).
    unfold Z.sub.
    repeat (rewrite inject_Z_plus || rewrite inject_Z_opp).
    generalize (inject_Z TOKEN_INTERVAL_MS) (inject_Z now0) (inject_Z now1).
    intros i a b. ring. }
  split; [reflexivity|]. split; [reflexivity|].
  split; [exact Hwait|]. split.
  - intros ->. rewrite Hwait.
    replace (TOKEN_INTERVAL_MS - (now0 - now0))%Z with TOKEN_INTERVAL_MS
      by lia.
    reflexivity.
  - unfold tick. cbn [tokens lastRefill].
    assert (Hpast : (inject_Z now0 <= inject_Z now2)%Q)
      by (rewrite <- Zle_Qle; lia).
    rewrite (revived_tokens now2 _ _ Hpast), Hs, Qfloor_quotient.
    reflexivity.
Qed.

Lemma consumed_token_returns_witness :
  (1 <= tokens {| tokens := 3; lastRefill := 0; nextReadyInMs := 0 |}
   <= TOKEN_MAX)%Z
  /\ (1000 <= 1001 < 1000 + TOKEN_INTERVAL_MS)%Z
  /\ (1001 <= 700000)%Z
  /\ let current := {| tokens := 3; lastRefill := 0; nextReadyInMs := 0 |} in
     let spent := consumeToken 1000 1001 current in
     tokens spent = 2%Z
     /\ lastRefill spent = inject_Z 1000
     /\ (nextReadyInMs spent == inject_Z 299999)%Q
     /\ tokens (tick 700000 spent) = 3%Z.
Proof.
  assert (Hc : (1 <= tokens {| tokens := 3; lastRefill := 0;
                               nextReadyInMs := 0 |} <= TOKEN_MAX)%Z)
    by (simpl; unfold TOKEN_MAX; lia).
  assert (Hn : (1000 <= 1001 < 1000 + TOKEN_INTERVAL_MS)%Z)
    by (unfold TOKEN_INTERVAL_MS; lia).
  assert (Hn2 : (1001 <= 700000)%Z) by lia.
  split; [exact Hc|]. split; [exact Hn|]. split; [exact Hn2|].
  destruct (consumed_token_returns 1000 1001 700000
              {| tokens := 3; lastRefill := 0; nextReadyInMs := 0 |}
              Hc Hn Hn2) as (H1 & H2 & H3 & _ & H5).
  cbv zeta. split; [exact H1|]. split; [exact H2|].
  split; [exact H3|]. exact H5.
Defined.

(** ** Printing and reading back digits *)

Lemma ofString_cons (a : ascii) (r : string) :
  ofString (String a r) = N_of_ascii a :: ofString r.
Proof. reflexivity. Qed.

Lemma string_of_uint_digits (u : Decimal.uint) :
  forallb isDigit (ofString (NilEmpty.string_of_uint u)) = true.
Proof.
  induction u as [|u IH|u IH|u IH|u IH|u IH|u IH|u IH|u IH|u IH|u IH];
    [reflexivity|..];
    cbn [NilEmpty.string_of_uint]; rewrite ofString_cons;
    cbn [forallb]; rewrite IH; reflexivity.
Qed.

Lemma natToString_digits (n : N) : forallb isDigit (natToString n) = true.
Proof.
  unfold natToString, NilZero.string_of_uint.
  destruct (N.to_uint n); try reflexivity; apply string_of_uint_digits.
Qed.

Lemma natToString_nonempty (n : N) : natToString n <> [].
Proof.
  unfold natToString, NilZero.string_of_uint.
  destruct (N.to_uint n); discriminate.
Qed.

Lemma digits_fold_acc (u : Decimal.uint) :
  forall p : positive,
    fold_left (fun acc c => (acc * 10 + (c - 48))%N)
              (ofString (NilEmpty.string_of_uint u)) (Npos p)
    = Npos (Pos.of_uint_acc u p).
Proof.
  induction u as [|u IH|u IH|u IH|u IH|u IH|u IH|u IH|u IH|u IH|u IH];
    intros p; [reflexivity|..];
    cbn [NilEmpty.string_of_uint Pos.of_uint_acc];
    rewrite ofString_cons; cbn [fold_left];
    rewrite <- IH; f_equal;
    match goal with
    | |- context [N_of_ascii ?a] =>
      let v := eval vm_compute in (N_of_ascii a) in
      change (N_of_ascii a) with v
    end; lia.
Qed.

Lemma digits_fold (u : Decimal.uint) :
  fold_left (fun acc c => (acc * 10 + (c - 48))%N)
            (ofString (NilEmpty.string_of_uint u)) 0%N
  = Pos.of_uint u.
Proof.
  induction u as [|u IH|u IH|u IH|u IH|u IH|u IH|u IH|u IH|u IH|u IH];
    [reflexivity|exact IH|..];
    cbn [NilEmpty.string_of_uint Pos.of_uint];
    rewrite ofString_cons; cbn [fold_left];
    rewrite <- digits_fold_acc; reflexivity.
Qed.

Lemma digitsValue_natToString (n : N) : digitsValue (natToString n) = n.
Proof.
  rewrite <- (DecimalN.Unsigned.of_to n) at 2.
  unfold digitsValue, natToString, NilZero.string_of_uint, N.of_uint.
  destruct (N.to_uint n) eqn:E; rewrite <- digits_fold; reflexivity.
Qed.

Lemma takeWhile_run (inClass : N -> bool) (run rest : jsstring) :
  forallb inClass run = true ->
  match rest with [] => True | c :: _ => inClass c = false end ->
  takeWhile inClass (run ++ rest) = (run, rest).
Proof.
  intros Hrun Hrest. induction run as [|d run IH].
  - destruct rest as [|c rest]; [reflexivity|]. cbn [app takeWhile].
    now rewrite Hrest.
  - cbn [forallb] in Hrun. apply andb_prop in Hrun. destruct Hrun as [Hd Hr].
    cbn [app takeWhile]. now rewrite Hd, (IH Hr).
Qed.

Lemma digit_not_minus (c : N) : isDigit c = true -> c <> 45%N.
Proof. unfold isDigit. intros H ->. discriminate. Qed.

Lemma digit_head (n : N) :
  exists c rest,
    natToString n = c :: rest /\ isDigit c = true /\ (c =? 45)%N = false.
Proof.
  pose proof (natToString_digits n) as H.
  pose proof (natToString_nonempty n) as Hn.
  destruct (natToString n) as [|c rest]; [now elim Hn|].
  cbn [forallb] in H. apply andb_prop in H. destruct H as [Hc _].
  exists c, rest. split; [reflexivity|]. split; [exact Hc|].
  apply N.eqb_neq. now apply digit_not_minus.
Qed.

(** A number printed as digits, an optional fraction, and [%] is matched
    at its first unit. *)
Lemma matchPercentAt_decimal (a b : N) (tail : jsstring) :
  matchPercentAt (natToString a ++ [46%N] ++ natToString b ++ 37%N :: tail)
  = Some (false, natToString a, natToString b).
Proof.
  unfold matchPercentAt.
  pose proof (natToString_digits a) as Ha.
  pose proof (natToString_digits b) as Hb.
  pose proof (natToString_nonempty b) as Hnb.
  destruct (digit_head a) as (c & da & Ea & Hc & Hminus).
  rewrite Ea in *. cbn [app]. rewrite Hminus.
  change (c :: da ++ 46%N :: natToString b ++ 37%N :: tail)
    with ((c :: da) ++ 46%N :: natToString b ++ 37%N :: tail).
  rewrite (takeWhile_run isDigit (c :: da)) by (exact Ha || reflexivity).
  cbn [truthy negb]. rewrite N.eqb_refl.
  rewrite (takeWhile_run isDigit (natToString b) (37%N :: tail))
    by (exact Hb || reflexivity).
  destruct (natToString b) as [|d db]; [now elim Hnb|].
  cbn [truthy takeWhile snd]. reflexivity.
Qed.

Lemma matchPercentAt_natural (a : N) (tail : jsstring) :
  matchPercentAt (natToString a ++ 37%N :: tail)
  = Some (false, natToString a, []).
Proof.
  unfold matchPercentAt.
  pose proof (natToString_digits a) as Ha.
  destruct (digit_head a) as (c & da & Ea & Hc & Hminus).
  rewrite Ea in *. cbn [app]. rewrite Hminus.
  change (c :: da ++ 37%N :: tail) with ((c :: da) ++ 37%N :: tail).
  rewrite (takeWhile_run isDigit (c :: da)) by (exact Ha || reflexivity).
  cbn [truthy negb takeWhile snd]. reflexivity.
Qed.

Lemma searchPercent_head (s : jsstring) capture :
  matchPercentAt s = Some capture -> searchPercent s = Some capture.
Proof. intros H. destruct s; cbn [searchPercent]; now rewrite H. Qed.

Lemma natToString_single (b : N) :
  (b < 10)%N -> List.length (natToString b) = 1.
Proof.
  intros H.
  assert (E : (b = 0 \/ b = 1 \/ b = 2 \/ b = 3 \/ b = 4 \/ b = 5 \/ b = 6
               \/ b = 7 \/ b = 8 \/ b = 9)%N) by lia.
  destruct E as [E|[E|[E|[E|[E|[E|[E|[E|[E|E]]]]]]]]]; subst b; reflexivity.
Qed.

Lemma tenths_value (f : Z) :
  (0 <= f)%Z ->
  (inject_Z (Z.of_N (Z.to_N f / 10))
   + inject_Z (Z.of_N (Z.to_N f mod 10)) / inject_Z (10 ^ Z.of_nat 1)
   == inject_Z f / 10)%Q.
Proof.
  intros H. change (inject_Z (10 ^ Z.of_nat 1)) with 10%Q.
  rewrite N2Z.inj_div, N2Z.inj_mod, Z2N.id by exact H.
  change (Z.of_N 10) with 10%Z.
  pose proof (Z.div_mod f 10 ltac:(discriminate)) as E.
  generalize dependent (f / 10)%Z. generalize (f mod 10)%Z.
  intros b a E. rewrite E, inject_Z_plus, inject_Z_mult.
  change (inject_Z 10) with 10%Q.
  generalize (inject_Z a) (inject_Z b). intros qa qb. field.
Qed.

(** The value a printed percentage of one decimal is read back as. *)
Lemma extractPercent_percent1 (d : Q) :
  (0 <= d)%Q ->
  extractPercent (Some (percent1 d)) = Some (toDouble (shownPercent d)).
Proof.
  intros Hd. unfold percent1, toFixed1.
  assert (Hx : (0 <= fmul d 100)%Q) by (apply fmul_nonneg; [exact Hd|discriminate]).
  destruct (Qlt_le_dec (fmul d 100) 0) as [Hneg | _];
    [exfalso; apply (Qlt_not_le _ _ Hneg); exact Hx|].
  set (f := Qfloor (fmul d 100 * 10 + (1 # 2))%Q).
  assert (Hf : (0 <= f)%Z).
  { unfold f. change 0%Z with (Qfloor 0). apply Qfloor_resp_le.
    assert (H10 : (0 <= fmul d 100 * 10)%Q)
      by (apply Qmult_le_0_compat; [exact Hx|discriminate]).
    apply (Qle_trans _ (fmul d 100 * 10)); [exact H10|].
    rewrite <- (Qplus_0_r (fmul d 100 * 10)) at 1.
    apply Qplus_le_r. discriminate. }
  set (n := Z.to_N f).
  change (lit "%") with [37%N]. cbn [app].
  replace ((natToString (n / 10) ++ 46%N :: natToString (n mod 10)) ++ [37%N])
    with (natToString (n / 10) ++ [46%N] ++ natToString (n mod 10)
            ++ 37%N :: [])
    by (now rewrite <- !app_assoc).
  unfold extractPercent.
  destruct (digit_head (n / 10)) as (c & da & Ea & _ & _).
  assert (Ht : truthy (natToString (n / 10) ++ [46%N]
                         ++ natToString (n mod 10) ++ [37%N]) = true)
    by (rewrite Ea; reflexivity).
  rewrite Ht. cbn [negb].
  rewrite (searchPercent_head _ _ (matchPercentAt_decimal _ _ [])).
  cbn [option_map]. f_equal.
  unfold parseFloat, shownPercent. rewrite !digitsValue_natToString.
  rewrite natToString_single by (apply N.mod_lt; discriminate).
  fold f. apply toDouble_Qeq, tenths_value. exact Hf.
Qed.

(** The value a printed whole percentage is read back as. *)
Lemma extractPercent_whole (z : Z) :
  (0 <= z < 2 ^ 53)%Z ->
  exists v,
    extractPercent (Some (intToString z ++ lit "%")) = Some v
    /\ (v == inject_Z z)%Q.
Proof.
  intros Hz53. assert (Hz : (0 <= z)%Z) by lia. unfold intToString.
  assert (Hb : (z <? 0)%Z = false) by (apply Z.ltb_ge; exact Hz).
  rewrite Hb. change (lit "%") with [37%N].
  unfold extractPercent.
  destruct (digit_head (Z.to_N z)) as (c & da & Ea & _ & _).
  assert (Ht : truthy (natToString (Z.to_N z) ++ [37%N]) = true)
    by (rewrite Ea; reflexivity).
  rewrite Ht. cbn [negb].
  rewrite (searchPercent_head _ _ (matchPercentAt_natural _ [])).
  cbn [option_map]. eexists. split; [reflexivity|].
  unfold parseFloat. rewrite digitsValue_natToString, Z2N.id by exact Hz.
  cbn [digitsValue fold_left List.length Z.of_nat Z.pow].
  change (inject_Z (Z.of_N 0)) with 0%Q. change (inject_Z 1) with 1%Q.
  rewrite <- (toDouble_integer z Hz53) at 2.
  assert (E : (inject_Z z + 0 / 1 == inject_Z z)%Q)
    by (generalize (inject_Z z); intros q; field).
  now rewrite (toDouble_Qeq _ _ E).
Qed.

Lemma takeWhile_split (inClass : N -> bool) (s : jsstring) :
  s = fst (takeWhile inClass s) ++ snd (takeWhile inClass s).
Proof.
  induction s as [|c s IH]; [reflexivity|].
  cbn [takeWhile]. destruct (inClass c); [|reflexivity].
  destruct (takeWhile inClass s) as [taken rest]. cbn [fst snd app] in *.
  now rewrite <- IH.
Qed.

Lemma takeWhile_rest_In (inClass : N -> bool) (s : jsstring) (x : N) :
  In x (snd (takeWhile inClass s)) -> In x s.
Proof.
  intros H. rewrite (takeWhile_split inClass s). apply in_or_app. now right.
Qed.

Lemma matchPercentAt_percent (s : jsstring) capture :
  matchPercentAt s = Some capture -> In 37%N s.
Proof.
  unfold matchPercentAt.
  set (start := match s with
                | c :: s' => if (c =? 45)%N then (true, s') else (false, s)
                | [] => (false, s)
                end).
  assert (Hstart : forall x, In x (snd start) -> In x s).
  { intros x. unfold start. destruct s as [|c s']; [trivial|].
    destruct (c =? 45)%N; cbn [snd]; [now right | trivial]. }
  destruct start as [negative s1]. cbn [snd] in Hstart.
  pose proof (takeWhile_rest_In isDigit s1) as H1.
  destruct (takeWhile isDigit s1) as [digits s2]. cbn [snd] in H1.
  destruct (negb (truthy digits)); [discriminate|].
  set (frac := match s2 with
               | c :: s' =>
                 if (c =? 46)%N
                 then let (fraction, rest) := takeWhile isDigit s' in
                      if truthy fraction then (fraction, rest) else ([], s2)
                 else ([], s2)
               | [] => ([], s2)
               end).
  assert (Hfrac : forall x, In x (snd frac) -> In x s2).
  { intros x. unfold frac. destruct s2 as [|c s']; [trivial|].
    destruct (c =? 46)%N; [|trivial].
    pose proof (takeWhile_rest_In isDigit s' x) as H2.
    destruct (takeWhile isDigit s') as [fraction rest]. cbn [snd] in H2.
    destruct (truthy fraction); cbn [snd]; [|trivial].
    intros H. right. now apply H2. }
  destruct frac as [fraction s3]. cbn [snd] in Hfrac.
  pose proof (takeWhile_rest_In isWhiteSpace s3) as H3.
  destruct (snd (takeWhile isWhiteSpace s3)) as [|c r]; [discriminate|].
  destruct (c =? 37)%N eqn:E; [|discriminate].
  apply N.eqb_eq in E. subst c. intros _.
  apply Hstart, H1, Hfrac, H3. now left.
Qed.

Lemma searchPercent_none (s : jsstring) :
  forallb (fun c => negb (c =? 37)%N) s = true -> searchPercent s = None.
Proof.
  assert (Hno : forall u, forallb (fun c => negb (c =? 37)%N) u = true ->
                          matchPercentAt u = None).
  { intros u Hu. destruct (matchPercentAt u) as [capture|] eqn:E;
      [|reflexivity].
    apply matchPercentAt_percent in E. rewrite forallb_forall in Hu.
    specialize (Hu _ E). discriminate. }
  induction s as [|c s IH]; intros H.
  - cbn [searchPercent]. now rewrite (Hno [] H).
  - cbn [searchPercent]. rewrite (Hno _ H).
    cbn [forallb] in H. apply andb_prop in H. now apply IH.
Qed.

Lemma digits_no_percent (s : jsstring) :
  forallb isDigit s = true ->
  forallb (fun c => negb (c =? 37)%N) s = true.
Proof.
  intros H. rewrite forallb_forall in *. intros c Hc. specialize (H c Hc).
  unfold isDigit in H. apply andb_prop in H. destruct H as [H _].
  apply N.leb_le in H. apply negb_true_iff, N.eqb_neq. lia.
Qed.

Lemma groupDigits_no_percent (fuel : nat) :
  forall n, forallb (fun c => negb (c =? 37)%N) (groupDigits fuel n) = true.
Proof.
  induction fuel as [|fuel IH]; intros n; cbn [groupDigits].
  - apply digits_no_percent, natToString_digits.
  - destruct (n <? 1000)%N; [apply digits_no_percent, natToString_digits|].
    rewrite !forallb_app, IH.
    rewrite (digits_no_percent _ (natToString_digits (n mod 1000))).
    destruct (n mod 1000 <? 10)%N; [reflexivity|].
    destruct (n mod 1000 <? 100)%N; reflexivity.
Qed.

Lemma wordCount_value_unread (n : nat) :
  extractPercent (Some (toLocaleString n ++ lit " terms")) = None.
Proof.
  unfold extractPercent.
  destruct (negb (truthy (toLocaleString n ++ lit " terms")));
    [reflexivity|].
  rewrite searchPercent_none; [reflexivity|].
  rewrite forallb_app. unfold toLocaleString.
  rewrite groupDigits_no_percent. reflexivity.
Qed.

Lemma round_inject (z : Z) : round (inject_Z z) = z.
Proof.
  apply Z.le_antisymm.
  - apply round_upper_bound, Qle_refl.
  - apply round_lower_bound, Qle_refl.
Qed.

(** ** The radar series of a result *)

Lemma metric_label_tests_en :
  test [lit "coverage"; lit "커버"; lit "sentence"]
       (wordCountLabel (copyMetrics enCopy)) = false
  /\ test [lit "coverage"; lit "커버"; lit "sentence"]
          (coverageLabel (copyMetrics enCopy)) = true
  /\ test [lit "coverage"; lit "커버"]
          (wordCountLabel (copyMetrics enCopy)) = false
  /\ test [lit "coverage"; lit "커버"]
          (coverageLabel (copyMetrics enCopy)) = true.
Proof. vm_compute. repeat split. Qed.

Lemma metric_label_tests_ko :
  forallb (fun label =>
             negb (test [lit "coverage"; lit "커버"; lit "sentence"] label)
             && negb (test [lit "coverage"; lit "커버"] label))
          [wordCountLabel (copyMetrics koCopy);
           coverageLabel (copyMetrics koCopy);
           negationMetricLabel (copyMetrics koCopy)] = true.
Proof. vm_compute. reflexivity. Qed.

Lemma cue_label_tests (l : Locale) :
  test [lit "hedging"; lit "헤징"] (hedgingLabel (copyOf l)) = true
  /\ test [lit "pressure"; lit "압박"] (hedgingLabel (copyOf l)) = false
  /\ test [lit "pressure"; lit "압박"] (pressureLabel (copyOf l)) = true
  /\ test [lit "negation"; lit "부정"] (hedgingLabel (copyOf l)) = false
  /\ test [lit "negation"; lit "부정"] (pressureLabel (copyOf l)) = false
  /\ test [lit "negation"; lit "부정"] (negationLabel (copyOf l)) = true.
Proof. destruct l; vm_compute; repeat split. Qed.

Lemma clampRadarValue_density (d fallback : Q) :
  clampRadarValue (Some (toDouble (shownPercent d))) fallback
  = axisOfDensity d.
Proof. reflexivity. Qed.

Lemma clampRadarValue_score (z : Z) (fallback : Q) :
  clampRadarValue (Some (inject_Z z)) fallback = Z.max 0 (Z.min 100 z).
Proof. unfold clampRadarValue. now rewrite round_inject. Qed.

Lemma find_hedging (raw : jsstring) (l : Locale) :
  option_map cueValue
    (find (fun cue => test [lit "hedging"; lit "헤징"] (cueLabel cue))
          (cuesOf raw (copyOf l)))
  = Some (percent1 (hedgingDensity raw)).
Proof.
  destruct (cue_label_tests l) as (H & _).
  unfold cuesOf. cbn [app find cueLabel]. now rewrite H.
Qed.

Lemma find_pressure (raw : jsstring) (l : Locale) :
  option_map cueValue
    (find (fun cue => test [lit "pressure"; lit "압박"] (cueLabel cue))
          (cuesOf raw (copyOf l)))
  = Some (percent1 (pressureDensity raw)).
Proof.
  destruct (cue_label_tests l) as (_ & H1 & H2 & _).
  unfold cuesOf. cbn [app find cueLabel]. now rewrite H1, H2.
Qed.

Lemma find_negation (raw : jsstring) (l : Locale) :
  option_map cueValue
    (find (fun cue => test [lit "negation"; lit "부정"] (cueLabel cue))
          (cuesOf raw (copyOf l)))
  = Some (percent1 (negationDensity raw)).
Proof.
  destruct (cue_label_tests l) as (_ & _ & _ & H1 & H2 & H3).
  unfold cuesOf. cbn [app find cueLabel]. now rewrite H1, H2, H3.
Qed.

(** Looking a cue up by its label and reading its value depends on the
    labels and the values only. *)
Lemma find_label_value (p : jsstring -> bool) (l1 : list CueInsight) :
  forall l2 : list CueInsight,
    map cueLabel l1 = map cueLabel l2 ->
    map cueValue l1 = map cueValue l2 ->
    option_map cueValue (find (fun cue => p (cueLabel cue)) l1)
    = option_map cueValue (find (fun cue => p (cueLabel cue)) l2).
Proof.
  induction l1 as [|c1 l1 IH]; intros [|c2 l2] Hl Hv;
    try discriminate; [reflexivity|].
  cbn [map] in Hl, Hv. injection Hl as Hl1 Hl. injection Hv as Hv1 Hv.
  cbn [find]. rewrite Hl1. destruct (p (cueLabel c2)).
  - cbn [option_map]. now rewrite Hv1.
  - now apply IH.
Qed.

(** X18: the radar chart of a result.  The chart has six axes in a fixed
    order, each between 0 and 100.  The risk and confidence axes are the
    two scores of the result, capped.  For a result whose cues carry the
    labels and values of the engine's cues for a text, in either locale,
    the hedging, pressure and negation axes are the percentages those cues
    print, read back as doubles, rounded to whole numbers and capped at
    100. *)
Theorem radar_series_of_cues (a : AnalysisResult) (raw : jsstring)
    (l : Locale) :
  map cueLabel (cues a) = map cueLabel (cuesOf raw (copyOf l)) ->
  map cueValue (cues a) = map cueValue (cuesOf raw (copyOf l)) ->
  exists coverageValue,
    buildRadarSeries a
    = [ (RiskAxis, Z.max 0 (Z.min 100 (lieProbability a)));
        (ConfidenceAxis, Z.max 0 (Z.min 100 (confidenceScore a)));
        (HedgingAxis, axisOfDensity (hedgingDensity raw));
        (PressureAxis, axisOfDensity (pressureDensity raw));
        (NegationAxis, axisOfDensity (negationDensity raw));
        (CoverageAxis, coverageValue) ]
    /\ (0 <= coverageValue <= 100)%Z
    /\ Forall (fun axis => (0 <= snd axis <= 100)%Z) (buildRadarSeries a).
Proof.
  intros Hl Hv.
  assert (Hfind : forall p,
             option_map cueValue (find (fun cue => p (cueLabel cue)) (cues a))
             = option_map cueValue
                 (find (fun cue => p (cueLabel cue)) (cuesOf raw (copyOf l))))
    by (intros p; now apply find_label_value).
  pose proof (Hfind (test [lit "hedging"; lit "헤징"])) as Hh.
  pose proof (Hfind (test [lit "pressure"; lit "압박"])) as Hp.
  pose proof (Hfind (test [lit "negation"; lit "부정"])) as Hn.
  cbv beta in Hh, Hp, Hn.
  rewrite find_hedging in Hh. rewrite find_pressure in Hp.
  rewrite find_negation in Hn.
  unfold buildRadarSeries. cbv zeta. rewrite Hh, Hp, Hn.
  rewrite !extractPercent_percent1 by apply density_nonneg.
  rewrite !clampRadarValue_density, !clampRadarValue_score.
  eexists. split; [reflexivity|].
  assert (Hclamp : forall v f, (0 <= clampRadarValue v f <= 100)%Z)
    by (intros v f; unfold clampRadarValue; lia).
  split; [apply Hclamp|].
  repeat constructor; cbn [snd];
    try apply Hclamp; unfold axisOfDensity; lia.
Qed.

Lemma radar_series_of_cues_witness :
  map cueLabel (cues (resultOf (lit "maybe honestly not") en))
  = map cueLabel (cuesOf (lit "maybe honestly not") (copyOf en))
  /\ map cueValue (cues (resultOf (lit "maybe honestly not") en))
     = map cueValue (cuesOf (lit "maybe honestly not") (copyOf en))
  /\ axisOfDensity (hedgingDensity (lit "maybe honestly not")) = 33%Z
  /\ exists coverageValue,
       buildRadarSeries (resultOf (lit "maybe honestly not") en)
       = [ (RiskAxis,
            Z.max 0 (Z.min 100
                       (lieProbability
                          (resultOf (lit "maybe honestly not") en))));
           (ConfidenceAxis,
            Z.max 0 (Z.min 100
                       (confidenceScore
                          (resultOf (lit "maybe honestly not") en))));
           (HedgingAxis,
            axisOfDensity (hedgingDensity (lit "maybe honestly not")));
           (PressureAxis,
            axisOfDensity (pressureDensity (lit "maybe honestly not")));
           (NegationAxis,
            axisOfDensity (negationDensity (lit "maybe honestly not")));
           (CoverageAxis, coverageValue) ]
       /\ (0 <= coverageValue <= 100)%Z
       /\ Forall (fun axis => (0 <= snd axis <= 100)%Z)
                 (buildRadarSeries (resultOf (lit "maybe honestly not") en)).
Proof.
  assert (Hl : map cueLabel (cues (resultOf (lit "maybe honestly not") en))
               = map cueLabel (cuesOf (lit "maybe honestly not") (copyOf en)))
    by reflexivity.
  assert (Hv : map cueValue (cues (resultOf (lit "maybe honestly not") en))
               = map cueValue (cuesOf (lit "maybe honestly not") (copyOf en)))
    by reflexivity.
  split; [exact Hl|]. split; [exact Hv|].
  split; [vm_compute; reflexivity|].
  exact (radar_series_of_cues _ (lit "maybe honestly not") en Hl Hv).
Defined.

(** X19: the coverage figure of the ensemble step.  [simulateEnsemble]
    looks the coverage metric up by its label; on the English result it
    reads back the coverage percentage, on the Korean result the label
    matches neither pattern and the figure is 0, whatever the transcript. *)
Theorem ensemble_coverage_lookup (raw : jsstring) :
  exists resultEn resultKo,
    analyzeTranscriptFallback raw (tag en) = Normal resultEn
    /\ analyzeTranscriptFallback raw (tag ko) = Normal resultKo
    /\ (ensembleCoverage resultEn == inject_Z (coveragePercent raw))%Q
    /\ ensembleCoverage resultKo = 0%Q.
Proof.
  exists (resultOf raw en), (resultOf raw ko).
  split; [apply analyze_supported|]. split; [apply analyze_supported|].
  unfold ensembleCoverage. cbn [resultOf metrics]. split.
  - destruct metric_label_tests_en as (_ & _ & H1 & H2).
    unfold metricsOf, copyOf. cbn [find metricLabel]. rewrite H1, H2.
    cbn [option_map metricValue].
    destruct (extractPercent_whole (coveragePercent raw))
      as (v & Ev & Hv); [pose proof (coveragePercent_bounds raw); lia|].
    unfold jsstring in *. rewrite Ev. exact Hv.
  - pose proof metric_label_tests_ko as H. cbn [forallb] in H.
    apply andb_prop in H. destruct H as [H1 H].
    apply andb_prop in H. destruct H as [H2 H].
    apply andb_prop in H. destruct H as [H3 _].
    apply andb_prop in H1. destruct H1 as [_ H1].
    apply andb_prop in H2. destruct H2 as [_ H2].
    apply andb_prop in H3. destruct H3 as [_ H3].
    apply negb_true_iff in H1, H2, H3.
    unfold metricsOf, copyOf. cbn [find metricLabel].
    rewrite H1, H2, H3. reflexivity.
Qed.

Lemma shownPercent_close (d : Q) :
  (fmul d 100 - (1 # 20) <= shownPercent d)%Q
  /\ (shownPercent d <= fmul d 100 + (1 # 20))%Q.
Proof.
  unfold shownPercent.
  pose proof (Qfloor_le (fmul d 100 * 10 + (1 # 2))) as Hlo.
  pose proof (Qlt_floor (fmul d 100 * 10 + (1 # 2))) as Hhi.
  rewrite inject_Z_plus in Hhi. change (inject_Z 1) with 1%Q in Hhi.
  generalize dependent (inject_Z (Qfloor (fmul d 100 * 10 + (1 # 2)))).
  generalize (fmul d 100).
  intros x f Hlo Hhi. unfold Qdiv. change (/ 10)%Q with (1 # 10)%Q.
  split; lra.
Qed.

(** X20: what the engine prints, the page reads back.  A density is
    printed as the double product [density * 100] rounded to one decimal,
    so the number printed is within 0.05 of that product; [extractPercent]
    reads the text back as the double nearest to the number printed.  A
    whole percentage below 2^53 is read back exactly.  For the density
    23/80 the product is just below 28.75 and the text is "28.7%". *)
Theorem percent_read_back (d : Q) (z : Z) :
  (0 <= d)%Q -> (0 <= z < 2 ^ 53)%Z ->
  (extractPercent (Some (percent1 d)) = Some (toDouble (shownPercent d))
   /\ (exists n : N,
         percent1 d
         = natToString (n / 10) ++ lit "." ++ natToString (n mod 10)
             ++ lit "%"
         /\ (shownPercent d == inject_Z (Z.of_N n) / 10)%Q)
   /\ (fmul d 100 - (1 # 20) <= shownPercent d)%Q
   /\ (shownPercent d <= fmul d 100 + (1 # 20))%Q)
  /\ (exists v,
        extractPercent (Some (intToString z ++ lit "%")) = Some v
        /\ (v == inject_Z z)%Q)
  /\ percent1 (fdiv 23 80) = lit "28.7%"
  /\ extractPercent (Some (lit "28.7%")) = Some (toDouble (287 # 10)).
Proof.
  intros Hd Hz. split; [|split; [now apply extractPercent_whole|]].
  - split; [now apply extractPercent_percent1|].
    split; [|apply shownPercent_close].
    exists (Z.to_N (Qfloor (fmul d 100 * 10 + (1 # 2)))).
    assert (Hx : (0 <= fmul d 100)%Q)
      by (apply fmul_nonneg; [exact Hd | discriminate]).
    split.
    + unfold percent1, toFixed1.
      destruct (Qlt_le_dec (fmul d 100) 0) as [Hneg | _];
        [exfalso; exact (Qlt_not_le _ _ Hneg Hx)|].
      cbn [app]. now rewrite <- !app_assoc.
    + unfold shownPercent. rewrite Z2N.id; [reflexivity|].
      change 0%Z with (Qfloor 0). apply Qfloor_resp_le.
      generalize dependent (fmul d 100). intros x Hx. lra.
  - split; vm_compute; reflexivity.
Qed.

Lemma percent_read_back_witness :
  (0 <= fdiv 23 80)%Q /\ (0 <= 67 < 2 ^ 53)%Z
  /\ extractPercent (Some (percent1 (fdiv 23 80)))
     = Some (toDouble (shownPercent (fdiv 23 80)))
  /\ (shownPercent (fdiv 23 80) == 287 # 10)%Q
  /\ exists v,
       extractPercent (Some (intToString 67 ++ lit "%")) = Some v
       /\ (v == inject_Z 67)%Q.
Proof.
  assert (Hd : (0 <= fdiv 23 80)%Q) by (vm_compute; discriminate).
  assert (Hz : (0 <= 67 < 2 ^ 53)%Z) by lia.
  split; [exact Hd|]. split; [exact Hz|].
  split; [exact (proj1 (proj1 (percent_read_back _ 67 Hd Hz)))|].
  split; [vm_compute; reflexivity|].
  exact (proj1 (proj2 (percent_read_back _ 67 Hd Hz))).
Defined.

(** ** More markers never lower the score *)

Lemma ofNat_le (a b : nat) : a <= b -> (ofNat a <= ofNat b)%Q.
Proof. intros H. unfold ofNat. rewrite <- Zle_Qle. lia. Qed.

Lemma ofNat_pos (a : nat) : 0 < a -> (0 < ofNat a)%Q.
Proof.
  intros H. unfold ofNat. change 0%Q with (inject_Z 0).
  rewrite <- Zlt_Qlt. lia.
Qed.

Lemma ratio_monotone (a b c d : nat) :
  a <= c -> 0 < d -> d <= b ->
  (ofNat a / ofNat b <= ofNat c / ofNat d)%Q.
Proof.
  intros Hac Hd Hdb.
  pose proof (ofNat_pos d Hd) as Hpd.
  pose proof (ofNat_pos b ltac:(lia)) as Hpb.
  pose proof (ofNat_le a c Hac) as Hle.
  pose proof (ofNat_le d b Hdb) as Hle'.
  pose proof (nonneg_ofNat a) as Ha.
  apply Qle_shift_div_r; [exact Hpb|].
  apply Qle_trans with (ofNat c); [exact Hle|].
  assert (Hq : (0 <= ofNat c / ofNat d)%Q).
  { apply Qle_shift_div_l; [exact Hpd|]. rewrite Qmult_0_l.
    apply nonneg_ofNat. }
  assert (E : (ofNat c == ofNat c / ofNat d * ofNat d)%Q).
  { field. intros H. rewrite H in Hpd. now apply (Qlt_irrefl 0). }
  rewrite E at 1.
  rewrite (Qmult_comm _ (ofNat d)), (Qmult_comm _ (ofNat b)).
  apply Qmult_le_compat_r; assumption.
Qed.

Lemma round_monotone (x y : Q) : (x <= y)%Q -> (round x <= round y)%Z.
Proof.
  intros H. unfold round. apply Qfloor_resp_le.
  apply Qplus_le_compat; [exact H | apply Qle_refl].
Qed.

Lemma fmul_monotone (x y c : Q) :
  (x <= y)%Q -> (0 <= c)%Q -> (fmul x c <= fmul y c)%Q.
Proof.
  intros H Hc. unfold fmul. apply toDouble_monotone.
  now apply Qmult_le_compat_r.
Qed.

Lemma fadd_monotone (x y x' y' : Q) :
  (x <= x')%Q -> (y <= y')%Q -> (fadd x y <= fadd x' y')%Q.
Proof.
  intros Hx Hy. unfold fadd. apply toDouble_monotone.
  now apply Qplus_le_compat.
Qed.

Lemma base_sum_monotone (a b c d a' b' c' d' : Q) :
  (a <= a')%Q -> (b <= b')%Q -> (c <= c')%Q -> (d <= d')%Q ->
  (fadd (fadd (fadd (fadd 42 (fmul a 520)) (fmul b 360)) (fmul c 180))
        (fmul d 4)
   <= fadd (fadd (fadd (fadd 42 (fmul a' 520)) (fmul b' 360)) (fmul c' 180))
           (fmul d' 4))%Q.
Proof.
  intros Ha Hb Hc Hd.
  repeat (apply fadd_monotone;
          [|apply fmul_monotone; [assumption | discriminate]]).
  apply Qle_refl.
Qed.

Lemma density_monotone (a b : jsstring) (hitsA hitsB : nat) :
  hitsA <= hitsB ->
  List.length (words b) <= List.length (words a) ->
  (density a hitsA <= density b hitsB)%Q.
Proof.
  intros Hh Hw. unfold density, fdiv.
  apply toDouble_monotone, ratio_monotone; lia.
Qed.

(** X21: more markers never lower the score.  If a transcript has at
    least as many hits of each keyword family and at least as many
    conflicting sentences as another one, and no more words, then its lie
    probability is at least the other one's. *)
Theorem lie_probability_monotone (a b : jsstring) (l : Locale) :
  hedgingHits a <= hedgingHits b ->
  pressureHits a <= pressureHits b ->
  negationHits a <= negationHits b ->
  List.length (contradictionCandidates a)
  <= List.length (contradictionCandidates b) ->
  List.length (words b) <= List.length (words a) ->
  exists ra rb,
    analyzeTranscriptFallback a (tag l) = Normal ra
    /\ analyzeTranscriptFallback b (tag l) = Normal rb
    /\ (lieProbability ra <= lieProbability rb)%Z.
Proof.
  intros Hh Hp Hn Hc Hw.
  exists (resultOf a l), (resultOf b l).
  split; [apply analyze_supported|]. split; [apply analyze_supported|].
  cbn [resultOf lieProbability]. unfold lieProbabilityOf.
  assert (Hr : (round (baseScore a) <= round (baseScore b))%Z).
  { apply round_monotone. unfold baseScore.
    apply base_sum_monotone.
    - now apply density_monotone.
    - now apply density_monotone.
    - now apply density_monotone.
    - now apply ofNat_le. }
  lia.
Qed.

Lemma lie_probability_monotone_witness :
  hedgingHits (lit "well I was there") <= hedgingHits (lit "maybe I was there")
  /\ pressureHits (lit "well I was there")
     <= pressureHits (lit "maybe I was there")
  /\ negationHits (lit "well I was there")
     <= negationHits (lit "maybe I was there")
  /\ List.length (contradictionCandidates (lit "well I was there"))
     <= List.length (contradictionCandidates (lit "maybe I was there"))
  /\ List.length (words (lit "maybe I was there"))
     <= List.length (words (lit "well I was there"))
  /\ exists ra rb,
       analyzeTranscriptFallback (lit "well I was there") (tag en) = Normal ra
       /\ analyzeTranscriptFallback (lit "maybe I was there") (tag en)
          = Normal rb
       /\ (lieProbability ra <= lieProbability rb)%Z.
Proof.
  assert (H1 : hedgingHits (lit "well I was there")
               <= hedgingHits (lit "maybe I was there"))
    by (vm_compute; lia).
  assert (H2 : pressureHits (lit "well I was there")
               <= pressureHits (lit "maybe I was there"))
    by (vm_compute; lia).
  assert (H3 : negationHits (lit "well I was there")
               <= negationHits (lit "maybe I was there"))
    by (vm_compute; lia).
  assert (H4 : List.length (contradictionCandidates (lit "well I was there"))
               <= List.length
                    (contradictionCandidates (lit "maybe I was there")))
    by (vm_compute; lia).
  assert (H5 : List.length (words (lit "maybe I was there"))
               <= List.length (words (lit "well I was there")))
    by (vm_compute; lia).
  repeat (split; [assumption|]).
  exact (lie_probability_monotone _ _ en H1 H2 H3 H4 H5).
Defined.

(** ** The text of a CSV file *)

Lemma splitLines_noLineFeed (s : jsstring) :
  forall acc,
    noLineFeed acc = true ->
    forallb noLineFeed (splitLines acc s) = true.
Proof.
  unfold noLineFeed.
  assert (Hrev : forall acc,
             forallb (fun c => negb (c =? 10)%N) acc = true ->
             forallb (fun c => negb (c =? 10)%N) (rev acc) = true).
  { intros acc H. rewrite forallb_forall in *. intros c Hc.
    apply H. now apply in_rev. }
  assert (Hstrong : forall n s, List.length s <= n -> forall acc,
             forallb (fun c => negb (c =? 10)%N) acc = true ->
             forallb (forallb (fun c => negb (c =? 10)%N))
                     (splitLines acc s) = true).
  { clear s. induction n as [|n IH]; intros s Hn acc Hacc.
    - destruct s; [|cbn [List.length] in Hn; lia].
      cbn [splitLines forallb]. now rewrite Hrev.
    - destruct s as [|c s']; [cbn [splitLines forallb]; now rewrite Hrev|].
      cbn [List.length] in Hn. cbn [splitLines].
      destruct (c =? 10)%N eqn:Ec.
      + cbn [forallb]. rewrite (Hrev _ Hacc). apply IH; [lia|reflexivity].
      + assert (Hpush : forallb (fun c => negb (c =? 10)%N) (c :: acc) = true)
          by (cbn [forallb]; now rewrite Ec, Hacc).
        destruct (c =? 13)%N; [|apply IH; [lia|exact Hpush]].
        destruct s' as [|d s'']; [apply IH; [lia|exact Hpush]|].
        destruct (d =? 10)%N; [|apply IH; [lia|exact Hpush]].
        cbn [forallb]. rewrite (Hrev _ Hacc).
        cbn [List.length] in Hn. apply IH; [lia|reflexivity]. }
  intros acc. now apply (Hstrong (List.length s) s).
Qed.

Lemma replaced_noSeparator (line : jsstring) :
  noSeparator (map (fun c => if isSeparator c then 32%N else c) line) = true.
Proof.
  unfold noSeparator. induction line as [|c line IH]; [reflexivity|].
  cbn [map forallb]. rewrite IH.
  destruct (isSeparator c) eqn:E; [reflexivity | now rewrite E].
Qed.

Lemma replaced_noLineFeed (line : jsstring) :
  noLineFeed line = true ->
  noLineFeed (map (fun c => if isSeparator c then 32%N else c) line) = true.
Proof.
  unfold noLineFeed. induction line as [|c line IH]; [reflexivity|].
  cbn [map forallb]. intros H. apply andb_prop in H. destruct H as [Hc Hl].
  rewrite (IH Hl). destruct (isSeparator c); [reflexivity | now rewrite Hc].
Qed.

Lemma noSeparator_fixed (line : jsstring) :
  noSeparator line = true ->
  map (fun c => if isSeparator c then 32%N else c) line = line.
Proof.
  unfold noSeparator. induction line as [|c line IH]; [reflexivity|].
  cbn [map forallb]. intros H. apply andb_prop in H. destruct H as [Hc Hl].
  apply negb_true_iff in Hc. now rewrite Hc, (IH Hl).
Qed.

Lemma trimEnd_last (s pre : jsstring) (c : N) :
  trimEnd s = pre ++ [c] -> isWhiteSpace c = false.
Proof.
  revert pre. induction s as [|d s IH]; intros pre H.
  - destruct pre; discriminate.
  - rewrite trimEnd_cons in H. destruct (trimEnd s) as [|e r] eqn:E.
    + destruct (isWhiteSpace d) eqn:Ed; [destruct pre; discriminate|].
      destruct pre as [|x pre].
      * injection H as ->. exact Ed.
      * injection H as _ H. destruct pre; discriminate.
    + destruct pre as [|x pre].
      * discriminate.
      * injection H as _ H. now apply (IH pre).
Qed.

Lemma cleanLine_trimmed (l : jsstring) :
  noLineFeed l = true -> trim l = l -> cleanLine l = true.
Proof.
  intros Hlf Htrim.
  assert (Hlast : forall pre c, l = pre ++ [c] -> c <> 13%N).
  { intros pre c E Hc. rewrite <- Htrim in E. unfold trim in E.
    apply trimEnd_last in E. subst c. discriminate. }
  clear Htrim. induction l as [|c l IH]; [reflexivity|].
  unfold noLineFeed in *. cbn [forallb] in Hlf.
  apply andb_prop in Hlf. destruct Hlf as [Hc Hl].
  cbn [cleanLine]. rewrite Hc, IH; [|exact Hl|].
  - destruct l as [|d l]; [|reflexivity].
    rewrite andb_true_r. apply negb_true_iff, N.eqb_neq.
    now apply (Hlast []).
  - intros pre d E. apply (Hlast (c :: pre) d). now rewrite E.
Qed.

Lemma splitLines_clean (l rest : jsstring) :
  cleanLine l = true ->
  forall acc,
    splitLines acc (l ++ 10%N :: rest) = (rev acc ++ l) :: splitLines [] rest.
Proof.
  induction l as [|c l IH]; intros H acc.
  - cbn [app splitLines]. rewrite N.eqb_refl. now rewrite app_nil_r.
  - cbn [cleanLine] in H. apply andb_prop in H. destruct H as [H Hl].
    apply andb_prop in H. destruct H as [Hc Hend].
    apply negb_true_iff in Hc.
    assert (Hnext : splitLines (c :: acc) (l ++ 10%N :: rest)
                    = (rev acc ++ c :: l) :: splitLines [] rest).
    { rewrite (IH Hl (c :: acc)). cbn [rev]. now rewrite <- app_assoc. }
    cbn [app splitLines]. rewrite Hc.
    destruct (c =? 13)%N; [|exact Hnext].
    destruct l as [|d l]; [discriminate|].
    cbn [app]. cbn [cleanLine] in Hl.
    apply andb_prop in Hl. destruct Hl as [Hd _].
    apply andb_prop in Hd. destruct Hd as [Hd _].
    apply negb_true_iff in Hd. rewrite Hd. exact Hnext.
Qed.

Lemma splitLines_last (l : jsstring) :
  cleanLine l = true ->
  forall acc, splitLines acc l = [rev acc ++ l].
Proof.
  induction l as [|c l IH]; intros H acc.
  - cbn [splitLines]. now rewrite app_nil_r.
  - cbn [cleanLine] in H. apply andb_prop in H. destruct H as [H Hl].
    apply andb_prop in H. destruct H as [Hc Hend].
    apply negb_true_iff in Hc.
    assert (Hnext : splitLines (c :: acc) l = [rev acc ++ c :: l]).
    { rewrite (IH Hl (c :: acc)). cbn [rev]. now rewrite <- app_assoc. }
    cbn [splitLines]. rewrite Hc.
    destruct (c =? 13)%N; [|exact Hnext].
    destruct l as [|d l]; [discriminate|].
    cbn [cleanLine] in Hl.
    apply andb_prop in Hl. destruct Hl as [Hd _].
    apply andb_prop in Hd. destruct Hd as [Hd _].
    apply negb_true_iff in Hd. rewrite Hd. exact Hnext.
Qed.

Lemma splitLines_join (lines : list jsstring) :
  forallb cleanLine lines = true ->
  lines <> [] ->
  splitLines [] (join [10%N] lines) = lines.
Proof.
  induction lines as [|l lines IH]; intros H Hne; [now elim Hne|].
  cbn [forallb] in H. apply andb_prop in H. destruct H as [Hl Hs].
  destruct lines as [|m lines].
  - cbn [join]. now rewrite splitLines_last.
  - change (join [10%N] (l :: m :: lines))
      with (l ++ 10%N :: join [10%N] (m :: lines)).
    rewrite splitLines_clean by exact Hl. cbn [rev app].
    rewrite IH; [reflexivity | exact Hs | discriminate].
Qed.

Lemma join_noSeparator (lines : list jsstring) :
  forallb noSeparator lines = true ->
  noSeparator (join [10%N] lines) = true.
Proof.
  unfold noSeparator.
  induction lines as [|l lines IH]; intros H; [reflexivity|].
  cbn [forallb] in H. apply andb_prop in H. destruct H as [Hl Hs].
  destruct lines as [|m lines]; [exact Hl|].
  change (join [10%N] (l :: m :: lines))
    with (l ++ 10%N :: join [10%N] (m :: lines)).
  rewrite forallb_app, Hl. cbn [forallb]. now rewrite (IH Hs).
Qed.

(** The lines [csvToText] keeps are non-empty, trimmed, and free of line
    feeds and separators. *)
Lemma csv_lines (raw : jsstring) :
  let lines :=
    filter truthy
      (map (fun line =>
              trim (map (fun c => if isSeparator c then 32%N else c) line))
           (splitLines [] raw)) in
  forallb (fun l => truthy l && noLineFeed l && noSeparator l) lines = true
  /\ Forall (fun l => trim l = l) lines.
Proof.
  cbv zeta. pose proof (splitLines_noLineFeed raw [] eq_refl) as Hlf.
  induction (splitLines [] raw) as [|piece pieces IH];
    [split; [reflexivity|constructor]|].
  cbn [forallb] in Hlf. apply andb_prop in Hlf. destruct Hlf as [Hp Hps].
  destruct (IH Hps) as [IH1 IH2]. cbn [map filter].
  set (line := trim (map (fun c => if isSeparator c then 32%N else c) piece)).
  destruct (truthy line) eqn:Et; [|split; assumption].
  split.
  - cbn [forallb]. rewrite Et, IH1.
    assert (Hsub : isSubstring line
                     (map (fun c => if isSeparator c then 32%N else c) piece))
      by apply trim_substring.
    unfold noLineFeed, noSeparator.
    rewrite (forallb_substring _ _ _ Hsub (replaced_noLineFeed _ Hp)).
    rewrite (forallb_substring _ _ _ Hsub (replaced_noSeparator _)).
    reflexivity.
  - constructor; [apply trim_idem | exact IH2].
Qed.

(** X22: the text of a CSV file is a normal form.  It holds no comma and
    no semicolon; it is a list of lines joined by line feeds, each line
    non-empty, trimmed and without a line feed; and converting the
    converted text again changes nothing. *)
Theorem csv_text_normal_form (raw : jsstring) :
  let converted := csvToText raw in
  noSeparator converted = true
  /\ (exists lines,
         converted = join [10%N] lines
         /\ Forall (fun l => l <> [] /\ trim l = l /\ noLineFeed l = true)
                   lines)
  /\ csvToText converted = converted.
Proof.
  cbv zeta.
  destruct (csv_lines raw) as [Hall Htrim]. cbv zeta in Hall, Htrim.
  assert (Hc : csvToText raw
               = join [10%N]
                   (filter truthy
                      (map (fun line =>
                              trim (map (fun c => if isSeparator c then 32%N
                                                  else c) line))
                           (splitLines [] raw)))) by reflexivity.
  remember (filter truthy
              (map (fun line =>
                      trim (map (fun c => if isSeparator c then 32%N
                                          else c) line))
                   (splitLines [] raw))) as lines eqn:Hdef.
  rewrite Hc. clear Hdef Hc.
  assert (Hparts : Forall (fun l => l <> [] /\ trim l = l
                                    /\ noLineFeed l = true
                                    /\ noSeparator l = true) lines).
  { rewrite Forall_forall. intros l Hl.
    rewrite forallb_forall in Hall. specialize (Hall l Hl).
    rewrite Forall_forall in Htrim. specialize (Htrim l Hl).
    apply andb_prop in Hall. destruct Hall as [Hall Hsep].
    apply andb_prop in Hall. destruct Hall as [Hne Hlf].
    split; [now destruct l|]. tauto. }
  split; [|split].
  - apply join_noSeparator. rewrite forallb_forall. intros l Hl.
    rewrite Forall_forall in Hparts. now apply Hparts.
  - exists lines. split; [reflexivity|].
    rewrite Forall_forall in *. intros l Hl.
    specialize (Hparts l Hl). tauto.
  - unfold csvToText. f_equal.
    destruct lines as [|l0 rest] eqn:El; [reflexivity|].
    rewrite splitLines_join; [| |discriminate].
    + rewrite <- El in *. clear El l0 rest.
      induction lines as [|l lines IH]; [reflexivity|].
      inversion Hparts as [|? ? (Hne & Ht & _ & Hsep) Hrest]; subst.
      cbn [map filter]. rewrite (noSeparator_fixed l Hsep), Ht.
      destruct l; [now elim Hne|]. cbn [truthy].
      f_equal. apply IH; [| |exact Hrest].
      * rewrite forallb_forall in *. intros x Hx. apply Hall. now right.
      * now inversion Htrim.
    + rewrite forallb_forall. intros l Hl.
      rewrite Forall_forall in Hparts.
      destruct (Hparts l Hl) as (_ & Ht & Hlf & _).
      now apply cleanLine_trimmed.
Qed.
